(** * Relayboy: the symmetric ratchets (V1 metadata-in-clear, V2 zero-metadata)

    A shallow embedding of
      - backend/quantum_encryption_module.py  (V1 sender,   [SymmetricRatchet])
      - backend/quantum_decryption_module.py  (V1 receiver, [SymmetricRatchetReceiver])
      - kyber/quantum_encryption_module.py    (V2 sender,   [QuantumDoubleRatchet])
      - kyber/quantum_decryption_module.py    (V2 receiver, [QuantumDoubleRatchetReceiver])
    and of [smart_load_secret], the key loader of the two V2 command lines.

    Python [bytes] are [list byte], Python [int]s are [Z], Python [str]s are
    lists of code points, dictionaries are insertion-ordered association
    lists, exceptions are an error type, and [os.urandom] / [time.time] are an
    explicit random tape and an explicit clock value.

    What the Python files import from libraries (pycryptodome's [HKDF] and
    AES-GCM, the [utf-8] codec, the builtin [int], [json.loads]) is the class
    [Lib]; the ratchets are written over any [Lib].  A reference
    implementation of that library ([pylib]: HKDF-SHA256 of RFC 5869 and
    AES-256-GCM of SP 800-38D, executable) instantiates it. *)

From Stdlib Require Import String.
From Stdlib Require Import ZArith NArith List Bool Lia Uint63 Permutation.
From Stdlib.Strings Require Import Byte.
Import ListNotations.

Set Implicit Arguments.
Local Open Scope Z_scope.

(** ** Python values *)

Definition bytes := list byte.

(** A Python [str]: its code points. *)
Definition str := list N.

Definition lit (s : string) : bytes := list_byte_of_string s.
Definition str_of_bytes (x : bytes) : str := map Byte.to_N x.

Definition byte_eqb (x y : byte) : bool := N.eqb (Byte.to_N x) (Byte.to_N y).

Fixpoint bytes_eqb (x y : bytes) : bool :=
  match x, y with
  | [], [] => true
  | c :: x', d :: y' => byte_eqb c d && bytes_eqb x' y'
  | _, _ => false
  end.

Definition byte_of_Z (z : Z) : byte :=
  match Byte.of_N (Z.to_N (z mod 256)) with Some c => c | None => x00 end.

(** [x[i:j]] for [0 <= i], [0 <= j]: Python clamps both ends to [len(x)]. *)
Definition slice (x : bytes) (i j : Z) : bytes :=
  firstn (Z.to_nat (j - i)) (skipn (Z.to_nat i) x).

Definition len (x : bytes) : Z := Z.of_nat (length x).

(** [int.from_bytes(x, 'big')]. *)
Definition int_from_bytes (x : bytes) : Z :=
  fold_left (fun acc c => acc * 256 + Z.of_N (Byte.to_N c)) x 0.

(** [n.to_bytes(4, 'big')]: [OverflowError] (here [None]) unless [0 <= n < 2^32]. *)
Definition to_bytes4 (n : Z) : option bytes :=
  if (0 <=? n) && (n <? 2 ^ 32)
  then Some [byte_of_Z (n / 2 ^ 24); byte_of_Z (n / 2 ^ 16); byte_of_Z (n / 2 ^ 8); byte_of_Z n]
  else None.

(** ** Exceptions

    Every failure of the four modules is a Python exception; the constructors
    name the raise sites after the specification's taxonomy. *)

Inductive error : Type :=
| MalformedPacket    (* V1 "Invalid package size", V2 "Blob too small" *)
| AuthFailure        (* V1 "MAC check failed" out of decrypt_and_verify;
  V2 trial_decrypt returned None and _unpack(None) raised *)
| ReplayOrStale      (* V1 "Message step .. is older than current step .." *)
| SkipTooLarge       (* V1 "Message skip distance .. exceeds safety limit" *)
| SkipStoreOverflow  (* V1 "Too many skipped keys stored" *)
| UnknownBeacon      (* V2 "Decryption Failure: Unknown Beacon" *)
| PayloadTooLarge    (* V2 "Message too large! Max payload is 512 bytes." *)
| LengthOverflow     (* V2 OverflowError of len(...).to_bytes(4, 'big') *)
| HeaderError        (* V2 _unpack: the hidden header is no JSON object with s, n, i *)
| UnboundKey         (* V1 UnboundLocalError on message_key (never raised) *)
| BadInput.          (* the specification's wrong-shape secret; no raise site *)

Inductive result (A : Type) : Type :=
| Ok (a : A)
| Err (e : error).
Arguments Ok {A} a.
Arguments Err {A} e.

(** ** Dictionaries

    A Python [dict] keeps its keys unique and in insertion order; assigning to
    a key that is present replaces the value in place. *)

Section Dict.
Variables (K V : Type) (eqb : K -> K -> bool).

Definition dict := list (K * V).

Fixpoint dict_get (k : K) (d : dict) : option V :=
  match d with
  | [] => None
  | (k', v) :: r => if eqb k k' then Some v else dict_get k r
  end.

Definition dict_mem (k : K) (d : dict) : bool :=
  match dict_get k d with Some _ => true | None => false end.

Fixpoint dict_set (k : K) (v : V) (d : dict) : dict :=
  match d with
  | [] => [(k, v)]
  | (k', v') :: r => if eqb k k' then (k', v) :: r else (k', v') :: dict_set k v r
  end.

Fixpoint dict_del (k : K) (d : dict) : dict :=
  match d with
  | [] => []
  | (k', v') :: r => if eqb k k' then r else (k', v') :: dict_del k r
  end.

Definition dict_len (d : dict) : Z := Z.of_nat (length d).
End Dict.

(** ** The operating system: [os.urandom] as a tape of bytes read left to right *)

Record Rng : Type := { tape : nat -> byte; pos : nat }.

Definition urandom (r : Rng) (n : nat) : bytes * Rng :=
  (map (tape r) (seq (pos r) n), {| tape := tape r; pos := (pos r + n)%nat |}).

(** ** The imported libraries *)

Class Lib : Type := {
  (** [Crypto.Protocol.KDF.HKDF(master, key_len, salt, SHA256, context=...)];
      [salt = None] is the Python [None]. *)
  HKDF : bytes -> nat -> option bytes -> bytes -> bytes;
  (** [c = AES.new(key, AES.MODE_GCM, nonce=nonce)], [c.update(aad)] when the
      AAD is given, [c.encrypt_and_digest(pt)]: ciphertext and tag. *)
  gcm_encrypt : bytes -> bytes -> option bytes -> bytes -> bytes * bytes;
  (** the same cipher object, [c.decrypt_and_verify(ct, tag)]; [None] is the
      [ValueError] of a tag mismatch. *)
  gcm_decrypt : bytes -> bytes -> option bytes -> bytes -> bytes -> option bytes;
  (** [x.decode('utf-8', errors='ignore')]. *)
  decode_utf8_ignore : bytes -> str;
  (** the builtin [int(s)]; [None] is its [ValueError]. *)
  py_int : str -> option Z;
  (** whether [json.loads(x.decode('utf-8'))] returns an object on which
      [header['s']], [header['n']] and [header['i']] succeed. *)
  json_header_ok : bytes -> bool
}.

(** ** Python string helpers used by the V1 receiver *)

Fixpoint str_prefix (p s : str) : bool :=
  match p, s with
  | [], _ => true
  | c :: p', d :: s' => N.eqb c d && str_prefix p' s'
  | _ :: _, [] => false
  end.

(** The text after the first occurrence of [sep] ([None] iff [sep not in s]). *)
Fixpoint after_first (sep s : str) : option str :=
  match s with
  | [] => None
  | _ :: r => if str_prefix sep s then Some (skipn (length sep) s) else after_first sep r
  end.

(** [s.split(sep)[0]]: the text before the first occurrence of [sep]. *)
Fixpoint before_first (sep s : str) : str :=
  match s with
  | [] => []
  | c :: r => if str_prefix sep s then [] else c :: before_first sep r
  end.

(** ** [json.dumps] of the V2 hidden header (default separators, ensure_ascii) *)

Definition hexdig (n : N) : byte :=
  match Byte.of_N (if (n <? 10)%N then 48 + n else 87 + n)%N with Some c => c | None => x00 end.

Definition u_escape (n : N) : bytes :=
  lit "\u" ++ [hexdig (n / 4096 mod 16); hexdig (n / 256 mod 16); hexdig (n / 16 mod 16); hexdig (n mod 16)]%N.

Definition json_escape_char (c : N) : bytes :=
  (if c =? 34 then [x5c; x22] else
   if c =? 92 then [x5c; x5c] else
   if c =? 10 then lit "\n" else
   if c =? 13 then lit "\r" else
   if c =? 9 then lit "\t" else
   if c =? 8 then lit "\b" else
   if c =? 12 then lit "\f" else
   if (32 <=? c) && (c <=? 126) then [byte_of_Z (Z.of_N c)] else
   if c <? 65536 then u_escape c
   else u_escape (55296 + (c - 65536) / 1024) ++ u_escape (56320 + (c - 65536) mod 1024))%N.

Definition json_dumps_str (s : str) : bytes :=
  [x22] ++ flat_map json_escape_char s ++ [x22].

Fixpoint dec_digits (fuel : nat) (n : N) (acc : bytes) : bytes :=
  match fuel with
  | O => acc
  | S fuel' =>
      let acc' := hexdig (n mod 10) :: acc in
      if (n <? 10)%N then acc' else dec_digits fuel' (n / 10) acc'
  end.

(** [json.dumps] of an [int]: its decimal [repr]. *)
Definition json_dumps_int (z : Z) : bytes :=
  match z with
  | Z0 => lit "0"
  | Zpos p => dec_digits (N.size_nat (Npos p)) (Npos p) []
  | Zneg p => lit "-" ++ dec_digits (N.size_nat (Npos p)) (Npos p) []
  end.

(** [str(uuid.uuid4())[:8]]: [uuid4] is [UUID(bytes=os.urandom(16), version=4)];
    the version and variant bits live in bytes 6 and 8, so the first eight hex
    digits are the first four random bytes. *)
Definition uuid4_8 (r : Rng) : str * Rng :=
  let (u, r1) := urandom r 16 in
  (flat_map (fun c => [Byte.to_N (hexdig (Byte.to_N c / 16)); Byte.to_N (hexdig (Byte.to_N c mod 16))]%N)
            (firstn 4 u), r1).

(** * V1: backend/quantum_encryption_module.py, backend/quantum_decryption_module.py

    [secure_wipe] zeroes a [bytearray] in place and does nothing on [bytes].
    The only [bytearray]s are private copies ([bytearray(shared_secret)]) that
    are dropped right after the wipe, and every key that outlives a call is an
    immutable [bytes] returned by [HKDF]; so no wipe changes a value that is
    read afterwards, and the embedding leaves the calls out. *)

Module V1.

Definition AES_KEY_SIZE : nat := 32.
Definition SALT_SIZE : nat := 16.
Definition NONCE_SIZE : nat := 12.
Definition TAG_SIZE : nat := 16.
Definition HKDF_INFO : bytes := lit "AES-GCM-256-KEY".
Definition RATCHET_INFO_CHAIN : bytes := lit "RATCHET-CHAIN-KEY".
Definition RATCHET_INFO_MSG : bytes := lit "RATCHET-MESSAGE-KEY".
Definition MAX_SKIP_RANGE : Z := 1000.
Definition MAX_STORED_KEYS : Z := 2000.

Section Functions.
Context {L : Lib}.

(** [encrypt_message(shared_secret, plaintext, aad)]:
    [salt || nonce || ciphertext || tag]. *)
Definition encrypt_message (shared_secret plaintext : bytes) (aad : option bytes)
           (r : Rng) : bytes * Rng :=
  let (salt, r1) := urandom r SALT_SIZE in
  let aes_key := HKDF shared_secret AES_KEY_SIZE (Some salt) HKDF_INFO in
  let (nonce, r2) := urandom r1 NONCE_SIZE in
  let (ciphertext, tag) := gcm_encrypt aes_key nonce aad plaintext in
  (salt ++ nonce ++ ciphertext ++ tag, r2).

(** [decrypt_message(shared_secret, package, aad)]. *)
Definition decrypt_message (shared_secret package : bytes) (aad : option bytes)
  : result bytes :=
  if len package <? Z.of_nat (SALT_SIZE + NONCE_SIZE + TAG_SIZE) then Err MalformedPacket
  else
    let salt := slice package 0 (Z.of_nat SALT_SIZE) in
    let nonce := slice package (Z.of_nat SALT_SIZE) (Z.of_nat (SALT_SIZE + NONCE_SIZE)) in
    let ciphertext := slice package (Z.of_nat (SALT_SIZE + NONCE_SIZE))
                            (len package - Z.of_nat TAG_SIZE) in
    let tag := slice package (len package - Z.of_nat TAG_SIZE) (len package) in
    let aes_key := HKDF shared_secret AES_KEY_SIZE (Some salt) HKDF_INFO in
    match gcm_decrypt aes_key nonce aad ciphertext tag with
    | Some plaintext => Ok plaintext
    | None => Err AuthFailure
    end.
End Functions.

(** class SymmetricRatchet (the sender) *)
Module SymmetricRatchet.
Record state : Type := { chain_key : bytes; step : Z }.

(** [__init__]: the [isinstance(shared_secret, bytes)] test holds of every
    [bytes]; nothing looks at the length. *)
Definition fresh (shared_secret : bytes) : state :=
  {| chain_key := shared_secret; step := 0 |}.

Definition init (shared_secret : bytes) : result state := Ok (fresh shared_secret).

Section Methods.
Context {L : Lib}.

Definition _advance (st : state) : bytes * state :=
  let message_key := HKDF (chain_key st) AES_KEY_SIZE None RATCHET_INFO_MSG in
  let new_chain_key := HKDF (chain_key st) AES_KEY_SIZE None RATCHET_INFO_CHAIN in
  (message_key, {| chain_key := new_chain_key; step := step st + 1 |}).

Definition encrypt (st : state) (r : Rng) (plaintext : bytes) (aad : option bytes)
  : (state * Rng) * bytes :=
  let (message_key, st1) := _advance st in
  let (package, r1) := encrypt_message message_key plaintext aad r in
  ((st1, r1), package).
End Methods.
End SymmetricRatchet.

(** class SymmetricRatchetReceiver *)
Module SymmetricRatchetReceiver.
Record state : Type :=
  { chain_key : bytes; step : Z; skipped_keys : dict Z bytes }.

(** [__init__]: no test at all on the secret. *)
Definition fresh (initial_shared_secret : bytes) : state :=
  {| chain_key := initial_shared_secret; step := 0; skipped_keys := [] |}.

Definition init (initial_shared_secret : bytes) : result state :=
  Ok (fresh initial_shared_secret).

Definition set_skipped (st : state) (d : dict Z bytes) : state :=
  {| chain_key := chain_key st; step := step st; skipped_keys := d |}.

Section Methods.
Context {L : Lib}.

Definition _advance (st : state) : bytes * state :=
  let message_key := HKDF (chain_key st) AES_KEY_SIZE None RATCHET_INFO_MSG in
  let new_chain_key := HKDF (chain_key st) AES_KEY_SIZE None RATCHET_INFO_CHAIN in
  (message_key,
   {| chain_key := new_chain_key; step := step st + 1; skipped_keys := skipped_keys st |}).

(** The sequence number the AAD carries: [None] when the AAD is [None] or
    empty, has no ["seq:"], or [int] raises (the [except] clause). *)
Definition aad_seq (aad : option bytes) : option Z :=
  match aad with
  | None => None
  | Some [] => None
  | Some a =>
      let aad_str := decode_utf8_ignore a in
      match after_first (str_of_bytes (lit "seq:")) aad_str with
      | None => None
      | Some rest =>
          let parts := before_first (str_of_bytes (lit "|"))
                                    (before_first (str_of_bytes (lit "seq:")) rest) in
          py_int parts
      end
  end.

Definition target_of (st : state) (aad : option bytes) : Z :=
  match aad_seq aad with
  | Some n => n
  | None => step st + 1
  end.

(** [while self._step < target_step: ...]; [fuel] bounds the iterations,
    [message_key] is the local variable ([None] while unbound). *)
Fixpoint catch_up (fuel : nat) (st : state) (target_step : Z)
         (message_key : option bytes) : state * option bytes :=
  match fuel with
  | O => (st, message_key)
  | S fuel' =>
      if step st <? target_step then
        let (mk, st1) := _advance st in
        let st2 := if step st1 <? target_step
                   then set_skipped st1 (dict_set Z.eqb (step st1) mk (skipped_keys st1))
                   else st1 in
        catch_up fuel' st2 target_step (Some mk)
      else (st, message_key)
  end.

Definition decrypt (st : state) (package : bytes) (aad : option bytes)
  : state * result bytes :=
  let target_step := target_of st aad in
  match dict_get Z.eqb target_step (skipped_keys st) with
  | Some message_key =>
      (* Case A: pop the saved key *)
      (set_skipped st (dict_del Z.eqb target_step (skipped_keys st)),
       decrypt_message message_key package aad)
  | None =>
      if target_step >? step st then
        (* Case B: catch up *)
        let skip_distance := target_step - step st in
        if skip_distance >? MAX_SKIP_RANGE then (st, Err SkipTooLarge)
        else if dict_len (skipped_keys st) + skip_distance >? MAX_STORED_KEYS
             then (st, Err SkipStoreOverflow)
        else
          match catch_up (Z.to_nat skip_distance) st target_step None with
          | (st1, Some message_key) => (st1, decrypt_message message_key package aad)
          | (st1, None) => (st1, Err UnboundKey)
          end
      else
        (* Case C *)
        (st, Err ReplayOrStale)
  end.
End Methods.
End SymmetricRatchetReceiver.
End V1.

(** * V2: kyber/quantum_encryption_module.py, kyber/quantum_decryption_module.py *)

Module V2.

Definition AES_KEY_SIZE : nat := 32.
Definition NONCE_SIZE : nat := 12.
Definition TAG_SIZE : nat := 16.
Definition FIXED_PAYLOAD_SIZE : Z := 512.
Definition HKDF_INFO : bytes := lit "AES-GCM-256-ZERO-METADATA".
Definition RATCHET_INFO_CHAIN : bytes := lit "RATCHET-CHAIN-KEY".
Definition RATCHET_INFO_MSG : bytes := lit "RATCHET-MESSAGE-KEY".
Definition LOOKUP_INFO : bytes := lit "MESSAGE-LOOKUP-ID".
Definition ROOT_REFRESH : bytes := lit "ROOT-REFRESH".

(** [json.dumps({"s": sender_id, "n": step, "t": now, "i": id}).encode('utf-8')] *)
Definition header_bytes (sender_id : str) (n t : Z) (i : str) : bytes :=
  lit "{" ++ json_dumps_str (str_of_bytes (lit "s")) ++ lit ": " ++ json_dumps_str sender_id ++
  lit ", " ++ json_dumps_str (str_of_bytes (lit "n")) ++ lit ": " ++ json_dumps_int n ++
  lit ", " ++ json_dumps_str (str_of_bytes (lit "t")) ++ lit ": " ++ json_dumps_int t ++
  lit ", " ++ json_dumps_str (str_of_bytes (lit "i")) ++ lit ": " ++ json_dumps_str i ++
  lit "}".

Section Functions.
Context {L : Lib}.

(** [trial_decrypt(msg_key, package)]: [None] on any exception. *)
Definition trial_decrypt (msg_key package : bytes) : option bytes :=
  let nonce := slice package 0 (Z.of_nat NONCE_SIZE) in
  let tag := slice package (Z.of_nat NONCE_SIZE) (Z.of_nat (NONCE_SIZE + TAG_SIZE)) in
  let ciphertext := skipn (NONCE_SIZE + TAG_SIZE) package in
  let aes_key := HKDF msg_key AES_KEY_SIZE None HKDF_INFO in
  gcm_decrypt aes_key nonce None ciphertext tag.
End Functions.

(** class QuantumDoubleRatchet (the sender) *)
Module QuantumDoubleRatchet.
Record state : Type :=
  { root_key : bytes; chain_key : bytes; step : Z; sender_id : str }.

(** [__init__(shared_secret, sender_id="User")]: no test on the secret. *)
Definition fresh (shared_secret : bytes) (sender_id : str) : state :=
  {| root_key := shared_secret; chain_key := shared_secret; step := 0;
     sender_id := sender_id |}.

Definition init (shared_secret : bytes) (sender_id : str) : result state :=
  Ok (fresh shared_secret sender_id).

Section Methods.
Context {L : Lib}.

Definition refresh_root (st : state) (new_entropy : bytes) : state :=
  let new_root := HKDF (root_key st ++ new_entropy) AES_KEY_SIZE None ROOT_REFRESH in
  {| root_key := new_root; chain_key := new_root; step := 0; sender_id := sender_id st |}.

Definition _advance_message_key (st : state) : bytes * state :=
  let msg_key := HKDF (chain_key st) AES_KEY_SIZE None RATCHET_INFO_MSG in
  let new_chain := HKDF (chain_key st) AES_KEY_SIZE None RATCHET_INFO_CHAIN in
  (msg_key, {| root_key := root_key st; chain_key := new_chain; step := step st + 1;
               sender_id := sender_id st |}).

(** [encrypt(plaintext)]; [now] is [int(time.time())]. *)
Definition encrypt (st : state) (now : Z) (r : Rng) (plaintext : bytes)
  : (state * Rng) * result bytes :=
  let (msg_key, st1) := _advance_message_key st in
  let (i, r1) := uuid4_8 r in
  let header := header_bytes (sender_id st1) (step st1) now i in
  match to_bytes4 (len plaintext), to_bytes4 (len header) with
  | Some msg_len, Some hdr_len =>
      let content := hdr_len ++ header ++ msg_len ++ plaintext in
      if len content >? FIXED_PAYLOAD_SIZE then ((st1, r1), Err PayloadTooLarge)
      else
        let padding_needed := FIXED_PAYLOAD_SIZE - len content in
        let (padding, r2) := urandom r1 (Z.to_nat padding_needed) in
        let content := content ++ padding in
        let aes_key := HKDF msg_key AES_KEY_SIZE None HKDF_INFO in
        let lookup_id := HKDF msg_key 16 None LOOKUP_INFO in
        let (nonce, r3) := urandom r2 NONCE_SIZE in
        let (ciphertext, tag) := gcm_encrypt aes_key nonce None content in
        ((st1, r3), Ok (lookup_id ++ nonce ++ tag ++ ciphertext))
  | _, _ => ((st1, r1), Err LengthOverflow)
  end.
End Methods.
End QuantumDoubleRatchet.

(** class QuantumDoubleRatchetReceiver *)
Module QuantumDoubleRatchetReceiver.
Definition MAX_SKIP : nat := 100.
Definition MAX_CACHE : Z := 50.   (* declared; no method reads it *)

Record state : Type :=
  { root_key : bytes; chain_key : bytes; step : Z;
    skipped_keys : dict Z bytes;
    lookup_cache : dict bytes (bytes * Z) }.

Definition set_cache (st : state) (c : dict bytes (bytes * Z)) : state :=
  {| root_key := root_key st; chain_key := chain_key st; step := step st;
     skipped_keys := skipped_keys st; lookup_cache := c |}.

Definition set_skipped (st : state) (d : dict Z bytes) : state :=
  {| root_key := root_key st; chain_key := chain_key st; step := step st;
     skipped_keys := d; lookup_cache := lookup_cache st |}.

Section Methods.
Context {L : Lib}.

(** [for seq, key in self._skipped_keys.items(): ...] *)
Fixpoint index_skipped (items : list (Z * bytes)) (cache : dict bytes (bytes * Z))
  : dict bytes (bytes * Z) :=
  match items with
  | [] => cache
  | (seq, key) :: rest =>
      let lid := HKDF key 16 None LOOKUP_INFO in
      index_skipped rest (dict_set bytes_eqb lid (key, seq) cache)
  end.

(** [for i in range(self.MAX_SKIP): ...] on the shadow chain. *)
Fixpoint lookahead (n : nat) (temp_chain : bytes) (temp_step : Z)
         (cache : dict bytes (bytes * Z)) : dict bytes (bytes * Z) :=
  match n with
  | O => cache
  | S n' =>
      let candidate_key := HKDF temp_chain AES_KEY_SIZE None RATCHET_INFO_MSG in
      let lid := HKDF candidate_key 16 None LOOKUP_INFO in
      let cache1 := dict_set bytes_eqb lid (candidate_key, temp_step + 1) cache in
      let next_chain := HKDF temp_chain AES_KEY_SIZE None RATCHET_INFO_CHAIN in
      lookahead n' next_chain (temp_step + 1) cache1
  end.

Definition _refresh_lookup_cache (st : state) : state :=
  set_cache st (lookahead MAX_SKIP (chain_key st) (step st)
                          (index_skipped (skipped_keys st) [])).

Definition fresh (initial_shared_secret : bytes) : state :=
  _refresh_lookup_cache
    {| root_key := initial_shared_secret; chain_key := initial_shared_secret;
       step := 0; skipped_keys := []; lookup_cache := [] |}.

Definition init (initial_shared_secret : bytes) : result state :=
  Ok (fresh initial_shared_secret).

Definition refresh_root (st : state) (new_entropy : bytes) : state :=
  let new_root := HKDF (root_key st ++ new_entropy) AES_KEY_SIZE None ROOT_REFRESH in
  _refresh_lookup_cache
    {| root_key := new_root; chain_key := new_root; step := 0;
       skipped_keys := []; lookup_cache := lookup_cache st |}.

Definition _advance_chain (st : state) : bytes * state :=
  let msg_key := HKDF (chain_key st) AES_KEY_SIZE None RATCHET_INFO_MSG in
  let new_chain := HKDF (chain_key st) AES_KEY_SIZE None RATCHET_INFO_CHAIN in
  (msg_key, {| root_key := root_key st; chain_key := new_chain; step := step st + 1;
               skipped_keys := skipped_keys st; lookup_cache := lookup_cache st |}).

(** [_unpack(decrypted_payload)]; [None] is what [trial_decrypt] returns
    on a tag mismatch, and subscripting it raises. *)
Definition _unpack (decrypted_payload : option bytes) : result bytes :=
  match decrypted_payload with
  | None => Err AuthFailure
  | Some p =>
      let h_len := int_from_bytes (slice p 0 4) in
      let header := slice p 4 (4 + h_len) in
      if json_header_ok header then
        let m_start := 4 + h_len in
        let m_len := int_from_bytes (slice p m_start (m_start + 4)) in
        Ok (slice p (m_start + 4) (m_start + 4 + m_len))
      else Err HeaderError
  end.

(** Case B, [while self._step < match_seq: ...]: [Some r] when the loop
    returned [r], [None] when it ran out without returning. *)
Fixpoint catch_up (fuel : nat) (st : state) (match_seq : Z) (crypto_blob : bytes)
  : state * option (result bytes) :=
  match fuel with
  | O => (st, None)
  | S fuel' =>
      if step st <? match_seq then
        let (key, st1) := _advance_chain st in
        if step st1 =? match_seq then
          let res := trial_decrypt key crypto_blob in
          (_refresh_lookup_cache st1, Some (_unpack res))
        else
          catch_up fuel'
                   (set_skipped st1 (dict_set Z.eqb (step st1) key (skipped_keys st1)))
                   match_seq crypto_blob
      else (st, None)
  end.

Definition decrypt (st : state) (package : bytes) : state * result bytes :=
  if len package <? Z.of_nat (16 + NONCE_SIZE + TAG_SIZE) then (st, Err MalformedPacket)
  else
    let beacon := firstn 16 package in
    let crypto_blob := skipn 16 package in
    match dict_get bytes_eqb beacon (lookup_cache st) with
    | Some (match_key, match_seq) =>
        match dict_get Z.eqb match_seq (skipped_keys st) with
        | Some _ =>
            (* Case A *)
            let st1 := set_skipped st (dict_del Z.eqb match_seq (skipped_keys st)) in
            let res := trial_decrypt match_key crypto_blob in
            (_refresh_lookup_cache st1, _unpack res)
        | None =>
            (* Case B *)
            match catch_up (Z.to_nat (match_seq - step st)) st match_seq crypto_blob with
            | (st1, Some r) => (st1, r)
            | (st1, None) => (st1, Err UnknownBeacon)
            end
        end
    | None => (st, Err UnknownBeacon)
    end.
End Methods.
End QuantumDoubleRatchetReceiver.
End V2.

(** * A reference implementation of the imported libraries

    Executable models of what [Lib] names: SHA-256 (FIPS 180-4), HMAC (RFC
    2104), HKDF (RFC 5869) as pycryptodome's [HKDF] calls them, the AES-256
    forward cipher (FIPS 197) and GCM (SP 800-38D) with a 96-bit nonce and a
    128-bit tag, CPython's UTF-8 decoder, strict and with [errors='ignore'],
    the builtin [int] on a [str], and the scanner of [json.loads].  Words are
    32 bits held in primitive 63-bit integers. *)

Module Ref.
Local Open Scope uint63_scope.

Definition byte_int (c : byte) : int := Uint63.of_Z (Z.of_N (Byte.to_N c)).
Definition int_byte (x : int) : byte :=
  match Byte.of_N (Z.to_N (Uint63.to_Z (x land 255))) with Some c => c | None => x00 end.

Definition xor_bits (p q : bool * (bool * (bool * (bool * (bool * (bool * (bool * bool)))))))  :=
  let '(p0, (p1, (p2, (p3, (p4, (p5, (p6, p7))))))) := p in
  let '(q0, (q1, (q2, (q3, (q4, (q5, (q6, q7))))))) := q in
  (xorb p0 q0, (xorb p1 q1, (xorb p2 q2, (xorb p3 q3, (xorb p4 q4, (xorb p5 q5, (xorb p6 q6, xorb p7 q7))))))).
Definition bxor (k c : byte) : byte := Byte.of_bits (xor_bits (Byte.to_bits k) (Byte.to_bits c)).

Definition mask32 : int := 0xFFFFFFFF.
Definition add32 (x y : int) : int := (x + y) land mask32.
Definition rotr (x n : int) : int := ((x >> n) lor (x << (32 - n))) land mask32.

(** big-endian 32-bit words of a byte string, at most [n] of them *)
Fixpoint words_of (n : nat) (x : bytes) : list int :=
  match n, x with
  | S n', c0 :: c1 :: c2 :: c3 :: r =>
      ((byte_int c0 << 24) lor (byte_int c1 << 16) lor (byte_int c2 << 8) lor byte_int c3)
        :: words_of n' r
  | _, _ => []
  end.
Definition word_bytes (x : int) : bytes :=
  [int_byte (x >> 24); int_byte (x >> 16); int_byte (x >> 8); int_byte x].

(** *** SHA-256 (FIPS 180-4) *)
Fixpoint iroot3 (fuel : nat) (lo hi n : Z) : Z :=
  match fuel with
  | O => lo
  | S f => let mid := ((lo + hi + 1) / 2)%Z in
           if (mid * mid * mid <=? n)%Z then iroot3 f mid hi n else iroot3 f lo (mid - 1)%Z n
  end.
Definition primes64 : list Z :=
  [2;3;5;7;11;13;17;19;23;29;31;37;41;43;47;53;59;61;67;71;73;79;83;89;97;101;103;107;109;113;127;131;
   137;139;149;151;157;163;167;173;179;181;191;193;197;199;211;223;227;229;233;239;241;251;257;263;
   269;271;277;281;283;293;307;311]%Z.
(** the fractional parts of the cube (square) roots of the first primes *)
Definition K256 : list int := Eval vm_compute in
  map (fun p => Uint63.of_Z (iroot3 64 0 (2 ^ 40) (p * 2 ^ 96) mod 2 ^ 32)) primes64.
Definition H256 : list int := Eval vm_compute in
  map (fun p => Uint63.of_Z (Z.sqrt (p * 2 ^ 64) mod 2 ^ 32)) (firstn 8 primes64).

Definition Ch (x y z : int) := (x land y) lxor ((x lxor mask32) land z).
Definition Maj (x y z : int) := (x land y) lxor (x land z) lxor (y land z).
Definition bsig0 x := rotr x 2 lxor rotr x 13 lxor rotr x 22.
Definition bsig1 x := rotr x 6 lxor rotr x 11 lxor rotr x 25.
Definition ssig0 x := rotr x 7 lxor rotr x 18 lxor (x >> 3).
Definition ssig1 x := rotr x 17 lxor rotr x 19 lxor (x >> 10).

(** the message schedule; [w] holds the last sixteen words, newest first *)
Fixpoint schedule (n : nat) (w acc : list int) : list int :=
  match n, w with
  | S n', w1 :: w2 :: w3 :: w4 :: w5 :: w6 :: w7 :: w8 :: w9 :: w10 :: w11 :: w12 :: w13
            :: w14 :: w15 :: w16 :: _ =>
      let x := add32 (add32 (ssig1 w2) w7) (add32 (ssig0 w15) w16) in
      schedule n' [x; w1; w2; w3; w4; w5; w6; w7; w8; w9; w10; w11; w12; w13; w14; w15] (x :: acc)
  | _, _ => rev acc
  end.

Definition hstate := (int * int * int * int * int * int * int * int)%type.

Fixpoint rounds (ks ws : list int) (s : hstate) : hstate :=
  match ks, ws with
  | k :: ks', w :: ws' =>
      let '(a, b0, c, d, e, f, g, h) := s in
      let t1 := add32 (add32 (add32 h (bsig1 e)) (add32 (Ch e f g) k)) w in
      let t2 := add32 (bsig0 a) (Maj a b0 c) in
      rounds ks' ws' (add32 t1 t2, a, b0, c, add32 d t1, e, f, g)
  | _, _ => s
  end.

Definition compress (s : hstate) (blk : bytes) : hstate :=
  let w := words_of 16 blk in
  let '(a, b0, c, d, e, f, g, h) := s in
  let '(a', b', c', d', e', f', g', h') := rounds K256 (w ++ schedule 48 (rev w) []) s in
  (add32 a a', add32 b0 b', add32 c c', add32 d d', add32 e e', add32 f f', add32 g g',
   add32 h h').

Fixpoint absorb (fuel : nat) (s : hstate) (x : bytes) : hstate :=
  match fuel, x with
  | S f, _ :: _ => absorb f (compress s (firstn 64 x)) (skipn 64 x)
  | _, _ => s
  end.

Definition be64 (n : Z) : bytes :=
  map (fun i => int_byte (Uint63.of_Z (Z.shiftr n (8 * i)))) [7; 6; 5; 4; 3; 2; 1; 0]%Z.

Definition sha_pad (m : bytes) : bytes :=
  m ++ [x80] ++ repeat x00 ((64 - (length m + 9) mod 64) mod 64)%nat
    ++ be64 (8 * Z.of_nat (length m)).

Definition sha_init : hstate :=
  match H256 with
  | [a; b0; c; d; e; f; g; h] => (a, b0, c, d, e, f, g, h)
  | _ => (0, 0, 0, 0, 0, 0, 0, 0)
  end.

Definition sha256 (m : bytes) : bytes :=
  let p := sha_pad m in
  let '(a, b0, c, d, e, f, g, h) := absorb (length p) sha_init p in
  word_bytes a ++ word_bytes b0 ++ word_bytes c ++ word_bytes d ++
  word_bytes e ++ word_bytes f ++ word_bytes g ++ word_bytes h.

(** *** HMAC-SHA256 (RFC 2104) and HKDF (RFC 5869) *)
Definition hmac (key msg : bytes) : bytes :=
  let k0 := if (64 <? length key)%nat then sha256 key else key in
  let kp := k0 ++ repeat x00 (64 - length k0)%nat in
  sha256 (map (bxor x5c) kp ++ sha256 (map (bxor x36) kp ++ msg)).

Fixpoint hkdf_expand (n : nat) (prk info t : bytes) (i : int) : bytes :=
  match n with
  | O => []
  | S n' => let t' := hmac prk (t ++ info ++ [int_byte i]) in
            t' ++ hkdf_expand n' prk info t' (i + 1)
  end.

Definition hkdf (master : bytes) (key_len : nat) (salt : option bytes) (context : bytes)
  : bytes :=
  let salt' := match salt with
               | None | Some [] => repeat x00 32
               | Some s => s
               end in
  let prk := hmac salt' master in
  firstn key_len (hkdf_expand ((key_len + 31) / 32)%nat prk context [] 1).

(** *** AES-256 (FIPS 197), the forward cipher only *)
Definition xtime (x : int) : int :=
  ((x << 1) lxor (if (x land 128) =? 0 then 0 else 27)) land 255.

Fixpoint gf_mul (n : nat) (x y : int) : int :=
  match n with
  | O => 0
  | S n' => (if (y land 1) =? 0 then 0 else x) lxor gf_mul n' (xtime x) (y >> 1)
  end.

Fixpoint nth_int (l : list int) (i : int) : int :=
  match l with
  | [] => 0
  | x :: r => if i =? 0 then x else nth_int r (i - 1)
  end.

Definition ints256 : list int := Eval vm_compute in map (fun n => Uint63.of_Z (Z.of_nat n)) (seq 0 256).

Definition gf_inv (x : int) : int :=
  hd 0 (filter (fun y => gf_mul 8 x y =? 1) ints256).

Definition rotl8 (x n : int) : int := ((x << n) lor (x >> (8 - n))) land 255.

(** the S-box: the affine map of the inverse in GF(2^8) *)
Definition sbox : list int := Eval vm_compute in
  map (fun x => let i := gf_inv x in
                i lxor rotl8 i 1 lxor rotl8 i 2 lxor rotl8 i 3 lxor rotl8 i 4 lxor 99) ints256.

Definition sub (x : int) : int := nth_int sbox x.

(** a word is four bytes, as 32 bits *)
Definition sub_word (w : int) : int :=
  (sub (w >> 24) << 24) lor (sub ((w >> 16) land 255) << 16)
     lor (sub ((w >> 8) land 255) << 8) lor sub (w land 255).
Definition rot_word (w : int) : int := ((w << 8) lor (w >> 24)) land mask32.

(** key expansion for Nk = 8; [prev] holds the last eight words, newest first *)
Fixpoint expand_key (n : nat) (i : int) (rcon : int) (prev acc : list int) : list int :=
  match n, prev with
  | S n', w1 :: w2 :: w3 :: w4 :: w5 :: w6 :: w7 :: w8 :: _ =>
      let r := i land 7 in
      let t := if r =? 0 then sub_word (rot_word w1) lxor (rcon << 24)
               else if r =? 4 then sub_word w1 else w1 in
      let w := w8 lxor t in
      expand_key n' (i + 1) (if r =? 0 then xtime rcon else rcon)
                 [w; w1; w2; w3; w4; w5; w6; w7] (w :: acc)
  | _, _ => rev acc
  end.

Definition key_schedule (key : bytes) : list int :=
  let w := words_of 8 key in
  w ++ expand_key 52 8 1 (rev w) [].

(** the state: four column words *)
Definition cols := (int * int * int * int)%type.

Definition byte_at (w : int) (r : int) : int := (w >> (24 - 8 * r)) land 255.

Definition sub_shift (s : cols) : cols :=
  let '(c0, c1, c2, c3) := s in
  let col a b0 c d :=
      (sub (byte_at a 0) << 24) lor (sub (byte_at b0 1) << 16)
        lor (sub (byte_at c 2) << 8) lor sub (byte_at d 3) in
  (col c0 c1 c2 c3, col c1 c2 c3 c0, col c2 c3 c0 c1, col c3 c0 c1 c2).

Definition mix_col (w : int) : int :=
  let a0 := byte_at w 0 in let a1 := byte_at w 1 in
  let a2 := byte_at w 2 in let a3 := byte_at w 3 in
  let m2 := xtime in
  let m3 x := xtime x lxor x in
  ((m2 a0 lxor m3 a1 lxor a2 lxor a3) << 24)
    lor ((a0 lxor m2 a1 lxor m3 a2 lxor a3) << 16)
    lor ((a0 lxor a1 lxor m2 a2 lxor m3 a3) << 8)
    lor (m3 a0 lxor a1 lxor a2 lxor m2 a3).

Definition mix (s : cols) : cols :=
  let '(c0, c1, c2, c3) := s in (mix_col c0, mix_col c1, mix_col c2, mix_col c3).

Definition add_round_key (s : cols) (rk : list int) : cols * list int :=
  match rk with
  | k0 :: k1 :: k2 :: k3 :: rk' =>
      let '(c0, c1, c2, c3) := s in
      ((c0 lxor k0, c1 lxor k1, c2 lxor k2, c3 lxor k3), rk')
  | _ => (s, [])
  end.

Fixpoint aes_rounds (n : nat) (s : cols) (rk : list int) : cols :=
  match n with
  | O => fst (add_round_key (sub_shift s) rk)
  | S n' => let (s', rk') := add_round_key (mix (sub_shift s)) rk in aes_rounds n' s' rk'
  end.

(** the cipher on one block, under an expanded key *)
Definition aes_block (rk : list int) (s : cols) : cols :=
  let (s0, rk0) := add_round_key s rk in aes_rounds 13 s0 rk0.

Definition cols_of (x : bytes) : cols :=
  match words_of 4 (x ++ repeat x00 16) with
  | [a; b0; c; d] => (a, b0, c, d)
  | _ => (0, 0, 0, 0)
  end.
Definition cols_bytes (s : cols) : bytes :=
  let '(a, b0, c, d) := s in word_bytes a ++ word_bytes b0 ++ word_bytes c ++ word_bytes d.

(** *** GCM (SP 800-38D), 96-bit nonce, 128-bit tag *)
Definition cxor (x y : cols) : cols :=
  let '(a, b0, c, d) := x in let '(a', b', c', d') := y in
  (a lxor a', b0 lxor b', c lxor c', d lxor d').

Definition shr1 (x : cols) : cols :=
  let '(a, b0, c, d) := x in
  let r := (a >> 1, (b0 >> 1) lor ((a land 1) << 31), (c >> 1) lor ((b0 land 1) << 31),
            (d >> 1) lor ((c land 1) << 31)) in
  if (d land 1) =? 0 then r else cxor r (0xE1000000, 0, 0, 0).

(** the bits of one word of X, most significant first *)
Fixpoint gmul_word (n : nat) (w : int) (zv : cols * cols) : cols * cols :=
  match n with
  | O => zv
  | S n' =>
      let (z, v) := zv in
      let z' := if ((w >> Uint63.of_Z (Z.of_nat n')) land 1) =? 0 then z else cxor z v in
      gmul_word n' w (z', shr1 v)
  end.

Definition gmul (x y : cols) : cols :=
  let '(a, b0, c, d) := x in
  fst (gmul_word 32 d (gmul_word 32 c (gmul_word 32 b0 (gmul_word 32 a ((0, 0, 0, 0), y))))).

Fixpoint ghash (fuel : nat) (h y : cols) (x : bytes) : cols :=
  match fuel, x with
  | S f, _ :: _ => ghash f h (gmul (cxor y (cols_of (firstn 16 x))) h) (skipn 16 x)
  | _, _ => y
  end.

Definition ctr_block (nonce : bytes) (i : int) : cols :=
  cols_of (firstn 12 (nonce ++ repeat x00 12) ++ word_bytes (i land mask32)).

Fixpoint xor_with (ks : bytes) (chunk : bytes) : bytes :=
  match chunk with
  | [] => []
  | d :: r => bxor (hd x00 ks) d :: xor_with (tl ks) r
  end.

Fixpoint ctr_xor (fuel : nat) (rk : list int) (nonce : bytes) (i : int) (data : bytes)
  : bytes :=
  match fuel, data with
  | S f, _ :: _ =>
      xor_with (cols_bytes (aes_block rk (ctr_block nonce i))) (firstn 16 data)
        ++ ctr_xor f rk nonce (i + 1) (skipn 16 data)
  | _, _ => []
  end.

Definition gcm_tag (rk : list int) (nonce aad ct : bytes) : bytes :=
  let h := aes_block rk (0, 0, 0, 0) in
  let y1 := ghash (length aad) h (0, 0, 0, 0) aad in
  let y2 := ghash (length ct) h y1 ct in
  let y3 := gmul (cxor y2 (cols_of (be64 (8 * Z.of_nat (length aad))
                                      ++ be64 (8 * Z.of_nat (length ct))))) h in
  cols_bytes (cxor y3 (aes_block rk (ctr_block nonce 1))).

Definition aad_bytes (aad : option bytes) : bytes :=
  match aad with Some a => a | None => [] end.

Definition gcm_enc (key nonce : bytes) (aad : option bytes) (pt : bytes) : bytes * bytes :=
  let rk := key_schedule key in
  let ct := ctr_xor (length pt) rk nonce 2 pt in
  (ct, gcm_tag rk nonce (aad_bytes aad) ct).

Definition gcm_dec (key nonce : bytes) (aad : option bytes) (ct tag : bytes)
  : option bytes :=
  let rk := key_schedule key in
  if bytes_eqb (gcm_tag rk nonce (aad_bytes aad) ct) tag
  then Some (ctr_xor (length ct) rk nonce 2 ct)
  else None.

(** *** [bytes.decode('utf-8', errors='ignore')]

    CPython drops the maximal ill-formed prefix: one byte for a bad start
    byte or a bad second byte, two for a bad third, three for a bad fourth,
    and everything that is left for a sequence cut short by the end. *)
Local Open Scope N_scope.

Definition is_cont (c : N) : bool := (128 <=? c) && (c <=? 191).

Fixpoint utf8_ignore (x : list N) : str :=
  match x with
  | [] => []
  | c :: r =>
      if c <? 128 then c :: utf8_ignore r
      else if c <? 194 then utf8_ignore r
      else if c <? 224 then
        match r with
        | [] => []
        | c1 :: r1 =>
            if is_cont c1 then ((c - 192) * 64 + (c1 - 128)) :: utf8_ignore r1
            else utf8_ignore r
        end
      else if c <? 240 then
        match r with
        | [] => []
        | c1 :: r1 =>
            if is_cont c1 && (negb (c =? 224) || (160 <=? c1)) && (negb (c =? 237) || (c1 <? 160))
            then match r1 with
                 | [] => []
                 | c2 :: r2 =>
                     if is_cont c2
                     then ((c - 224) * 4096 + (c1 - 128) * 64 + (c2 - 128)) :: utf8_ignore r2
                     else utf8_ignore r1
                 end
            else utf8_ignore r
        end
      else if c <? 245 then
        match r with
        | [] => []
        | c1 :: r1 =>
            if is_cont c1 && (negb (c =? 240) || (144 <=? c1)) && (negb (c =? 244) || (c1 <? 144))
            then match r1 with
                 | [] => []
                 | c2 :: r2 =>
                     if is_cont c2
                     then match r2 with
                          | [] => []
                          | c3 :: r3 =>
                              if is_cont c3
                              then ((c - 240) * 262144 + (c1 - 128) * 4096 + (c2 - 128) * 64
                                    + (c3 - 128)) :: utf8_ignore r3
                              else utf8_ignore r2
                          end
                     else utf8_ignore r1
                 end
            else utf8_ignore r
        end
      else utf8_ignore r
  end.

(** *** [str.isspace], the white space of [str.strip] *)
Definition is_space (c : N) : bool :=
  ((9 <=? c) && (c <=? 13)) || ((28 <=? c) && (c <=? 32)) || (c =? 133) || (c =? 160)
  || (c =? 5760) || ((8192 <=? c) && (c <=? 8202)) || (c =? 8232) || (c =? 8233)
  || (c =? 8239) || (c =? 8287) || (c =? 12288).

Fixpoint lstrip (s : str) : str :=
  match s with
  | c :: r => if is_space c then lstrip r else s
  | [] => []
  end.

(** *** [int(s)] of a [str], as CPython 3.11 has it

    [PyLong_FromUnicodeObject] first maps the text to ASCII: code points below
    127 stay, a code point from 128 on becomes a blank when it is white space
    and its digit when it is a decimal digit (Unicode 14.0 has 66 runs of ten,
    [decimal_zeros] names their zeros).  [PyLong_FromString] then skips C
    white space on both sides (tab to carriage return and the blank, so not
    U+001C to U+001F, which [str.isspace] has), takes one optional sign and
    decimal digits with single underscores between them, and raises when
    there are more than [sys.int_max_str_digits = 4300] digits. *)
Definition int_space (c : N) : bool :=
  ((9 <=? c) && (c <=? 13)) || (c =? 32) || ((128 <=? c) && is_space c).

Fixpoint lstrip_int (s : str) : str :=
  match s with
  | c :: r => if int_space c then lstrip_int r else s
  | [] => []
  end.

Definition decimal_zeros : list N :=
  [48; 1632; 1776; 1984; 2406; 2534; 2662; 2790; 2918; 3046; 3174; 3302; 3430; 3558; 3664;
   3792; 3872; 4160; 4240; 6112; 6160; 6470; 6608; 6784; 6800; 6992; 7088; 7232; 7248;
   42528; 43216; 43264; 43472; 43504; 43600; 44016; 65296; 66720; 68912; 69734; 69872;
   69942; 70096; 70384; 70736; 70864; 71248; 71360; 71472; 71904; 72016; 72784; 73040;
   73120; 92768; 92864; 93008; 120782; 120792; 120802; 120812; 120822; 123200; 123632;
   125264; 130032].

Fixpoint decimal_in (zeros : list N) (c : N) : option N :=
  match zeros with
  | [] => None
  | z :: r => if (z <=? c) && (c <? z + 10) then Some (c - z) else decimal_in r c
  end.

(** [unicodedata.decimal(c)], [None] when [c] is no decimal digit. *)
Definition decimal (c : N) : option N := decimal_in decimal_zeros c.

Definition is_decimal (c : N) : bool :=
  match decimal c with Some _ => true | None => false end.

Fixpoint digits (s : str) (acc : Z) (after_digit : bool) : option Z :=
  match s with
  | [] => if after_digit then Some acc else None
  | c :: r =>
      match decimal c with
      | Some d => digits r (acc * 10 + Z.of_N d)%Z true
      | None => if (c =? 95) && after_digit then digits r acc false else None
      end
  end.

Definition MAX_STR_DIGITS : Z := 4300.

Definition unsigned_int (s : str) : option Z :=
  if (MAX_STR_DIGITS <? Z.of_nat (length (filter is_decimal s)))%Z then None
  else digits s 0%Z false.

Definition int_of_str (s : str) : option Z :=
  match rev (lstrip_int (rev (lstrip_int s))) with
  | [] => None
  | c :: r =>
      if c =? 43 then unsigned_int r
      else if c =? 45 then option_map Z.opp (unsigned_int r)
      else unsigned_int (c :: r)
  end.

(** *** [x.decode('utf-8')]: [None] is its [UnicodeDecodeError] *)
Fixpoint utf8_strict (x : list N) : option str :=
  match x with
  | [] => Some []
  | c :: r =>
      if c <? 128 then option_map (cons c) (utf8_strict r)
      else if c <? 194 then None
      else if c <? 224 then
        match r with
        | c1 :: r1 =>
            if is_cont c1
            then option_map (cons ((c - 192) * 64 + (c1 - 128))) (utf8_strict r1)
            else None
        | _ => None
        end
      else if c <? 240 then
        match r with
        | c1 :: c2 :: r2 =>
            if is_cont c1 && (negb (c =? 224) || (160 <=? c1)) && (negb (c =? 237) || (c1 <? 160))
               && is_cont c2
            then option_map (cons ((c - 224) * 4096 + (c1 - 128) * 64 + (c2 - 128)))
                            (utf8_strict r2)
            else None
        | _ => None
        end
      else if c <? 245 then
        match r with
        | c1 :: c2 :: c3 :: r3 =>
            if is_cont c1 && (negb (c =? 240) || (144 <=? c1)) && (negb (c =? 244) || (c1 <? 144))
               && is_cont c2 && is_cont c3
            then option_map (cons ((c - 240) * 262144 + (c1 - 128) * 4096 + (c2 - 128) * 64
                                   + (c3 - 128)))
                            (utf8_strict r3)
            else None
        | _ => None
        end
      else None
  end.

(** *** [json.loads(s)] of a [str], as CPython's C scanner ([_json.c]) has it

    Only what [_unpack] asks of the value is kept: whether it is an object,
    and the keys of that object.  White space is blank, tab, line feed and
    carriage return.  A string may not hold a raw control character; after a
    backslash it has a quote, a backslash, a slash, one of b f n r t, or u
    and four hexadecimal digits.  A number is an optional minus sign, then 0
    or a digit from 1 to 9 with any digits after it, then optionally a dot
    with one digit or more, then optionally e or E, an optional sign and one
    digit or more.  The literals are null, true, false, NaN, Infinity and
    -Infinity.  An escape with u is read as one code unit (the scanner joins
    surrogate pairs, which neither makes nor unmakes one of the keys s, n
    and i).  Two limits of the interpreter are not modelled: the recursion
    limit on nested arrays and objects, and [sys.int_max_str_digits] on
    integer literals, which [json_dumps_int] on the sender's side does not
    have either. *)
Definition json_ws (c : N) : bool := (c =? 32) || (c =? 9) || (c =? 10) || (c =? 13).

Fixpoint skip_ws (s : str) : str :=
  match s with
  | c :: r => if json_ws c then skip_ws r else s
  | [] => []
  end.

Definition xdigit (c : N) : option N :=
  if (48 <=? c) && (c <=? 57) then Some (c - 48)
  else if (97 <=? c) && (c <=? 102) then Some (c - 87)
  else if (65 <=? c) && (c <=? 70) then Some (c - 55)
  else None.

Definition hex4 (a b c d : N) : option N :=
  match xdigit a, xdigit b, xdigit c, xdigit d with
  | Some a', Some b', Some c', Some d' => Some (((a' * 16 + b') * 16 + c') * 16 + d')
  | _, _, _, _ => None
  end.

(** the character after a backslash, [u] apart *)
Definition unescape (e : N) : option N :=
  if (e =? 34) || (e =? 92) || (e =? 47) then Some e
  else if e =? 98 then Some 8
  else if e =? 102 then Some 12
  else if e =? 110 then Some 10
  else if e =? 114 then Some 13
  else if e =? 116 then Some 9
  else None.

Definition push (c : N) (o : option (str * str)) : option (str * str) :=
  match o with
  | Some (d, rest) => Some (c :: d, rest)
  | None => None
  end.

(** [scanstring], after the opening quote: the text of the string and what
    follows its closing quote. *)
Fixpoint scan_string (s : str) : option (str * str) :=
  match s with
  | [] => None
  | c :: r =>
      if c =? 34 then Some ([], r)
      else if c =? 92 then
        match r with
        | [] => None
        | e :: r1 =>
            if e =? 117 then
              match r1 with
              | h1 :: h2 :: h3 :: h4 :: r2 =>
                  match hex4 h1 h2 h3 h4 with
                  | Some u => push u (scan_string r2)
                  | None => None
                  end
              | _ => None
              end
            else
              match unescape e with
              | Some u => push u (scan_string r1)
              | None => None
              end
        end
      else if c <? 32 then None
      else push c (scan_string r)
  end.

Definition is_dig (c : N) : bool := (48 <=? c) && (c <=? 57).

Fixpoint skip_digits (s : str) : str :=
  match s with
  | c :: r => if is_dig c then skip_digits r else s
  | [] => []
  end.

Definition scan_frac (s : str) : str :=
  match s with
  | c :: d :: r => if (c =? 46) && is_dig d then skip_digits r else s
  | _ => s
  end.

Definition scan_exp (s : str) : str :=
  match s with
  | e :: r =>
      if (e =? 101) || (e =? 69) then
        let r1 := match r with
                  | sg :: r' => if (sg =? 43) || (sg =? 45) then r' else r
                  | [] => r
                  end in
        match r1 with
        | d :: r2 => if is_dig d then skip_digits r2 else s
        | [] => s
        end
      else s
  | [] => s
  end.

(** [_match_number]: what follows the number. *)
Definition scan_number (s : str) : option str :=
  let s1 := match s with
            | c :: r => if c =? 45 then r else s
            | [] => s
            end in
  match s1 with
  | c :: r =>
      if c =? 48 then Some (scan_exp (scan_frac r))
      else if (49 <=? c) && (c <=? 57) then Some (scan_exp (scan_frac (skip_digits r)))
      else None
  | [] => None
  end.

(** the literals, then the numbers *)
Definition scan_atom (s : str) : option str :=
  if str_prefix [110; 117; 108; 108] s then Some (skipn 4 s)
  else if str_prefix [116; 114; 117; 101] s then Some (skipn 4 s)
  else if str_prefix [102; 97; 108; 115; 101] s then Some (skipn 5 s)
  else if str_prefix [78; 97; 78] s then Some (skipn 3 s)
  else if str_prefix [73; 110; 102; 105; 110; 105; 116; 121] s then Some (skipn 8 s)
  else if str_prefix [45; 73; 110; 102; 105; 110; 105; 116; 121] s then Some (skipn 9 s)
  else scan_number s.

(** [scan_once]: [Some keys] for an object, [None] for any other value,
    with what follows the value.  [scan_members] reads an object from its
    first key on, [scan_elements] an array from its first element on; each
    call is one unit of [fuel]. *)
Fixpoint scan_value (fuel : nat) (s : str) {struct fuel} : option (option (list str) * str) :=
  match fuel with
  | O => None
  | S f =>
      match s with
      | [] => None
      | c :: r =>
          if c =? 34 then
            match scan_string r with
            | Some (_, rest) => Some (None, rest)
            | None => None
            end
          else if c =? 123 then
            match skip_ws r with
            | [] => None
            | c1 :: r1 =>
                if c1 =? 125 then Some (Some [], r1)
                else match scan_members f (c1 :: r1) with
                     | Some (ks, rest) => Some (Some ks, rest)
                     | None => None
                     end
            end
          else if c =? 91 then
            match skip_ws r with
            | [] => None
            | c1 :: r1 =>
                if c1 =? 93 then Some (None, r1)
                else match scan_elements f (c1 :: r1) with
                     | Some rest => Some (None, rest)
                     | None => None
                     end
            end
          else
            match scan_atom s with
            | Some rest => Some (None, rest)
            | None => None
            end
      end
  end
with scan_members (fuel : nat) (s : str) {struct fuel} : option (list str * str) :=
  match fuel with
  | O => None
  | S f =>
      match s with
      | [] => None
      | c :: r =>
          if c =? 34 then
            match scan_string r with
            | None => None
            | Some (key, r1) =>
                match skip_ws r1 with
                | [] => None
                | c2 :: r2 =>
                    if c2 =? 58 then
                      match scan_value f (skip_ws r2) with
                      | None => None
                      | Some (_, r3) =>
                          match skip_ws r3 with
                          | [] => None
                          | c4 :: r4 =>
                              if c4 =? 125 then Some ([key], r4)
                              else if c4 =? 44 then
                                match scan_members f (skip_ws r4) with
                                | Some (ks, rest) => Some (key :: ks, rest)
                                | None => None
                                end
                              else None
                          end
                      end
                    else None
                end
            end
          else None
      end
  end
with scan_elements (fuel : nat) (s : str) {struct fuel} : option str :=
  match fuel with
  | O => None
  | S f =>
      match scan_value f s with
      | None => None
      | Some (_, r1) =>
          match skip_ws r1 with
          | [] => None
          | c :: r2 =>
              if c =? 93 then Some r2
              else if c =? 44 then scan_elements f (skip_ws r2)
              else None
          end
      end
  end.

(** [json.loads(s)]: white space, one value, white space, the end.  No call
    is made without a character read since the call before the last, so two
    units of fuel per character are enough (lemma [ref_loads_fuel]). *)
Definition loads (s : str) : option (option (list str)) :=
  match scan_value (2 * length s + 2) (skip_ws s) with
  | Some (v, rest) =>
      match skip_ws rest with
      | [] => Some v
      | _ :: _ => None
      end
  | None => None
  end.

Fixpoint str_eqb (a b : str) : bool :=
  match a, b with
  | [], [] => true
  | c :: a', d :: b' => (c =? d) && str_eqb a' b'
  | _, _ => false
  end.

Definition has_key (k : N) (ks : list str) : bool := existsb (str_eqb [k]) ks.

(** [header = json.loads(x.decode('utf-8'))] returns, and [header['s']],
    [header['n']], [header['i']] are there: any other value, and an object
    without one of the keys, raises in the line that formats them.  Writing
    that line to the standard output is taken to succeed. *)
Definition header_ok (x : bytes) : bool :=
  match utf8_strict (map Byte.to_N x) with
  | None => false
  | Some s =>
      match loads s with
      | Some (Some ks) => has_key 115 ks && has_key 110 ks && has_key 105 ks
      | _ => false
      end
  end.
End Ref.

(** The reference library as a [Lib]. *)
Definition pylib : Lib :=
  {| HKDF := Ref.hkdf;
     gcm_encrypt := Ref.gcm_enc;
     gcm_decrypt := Ref.gcm_dec;
     decode_utf8_ignore := fun x => Ref.utf8_ignore (map Byte.to_N x);
     py_int := Ref.int_of_str;
     json_header_ok := Ref.header_ok |}.

(** Hexadecimal text, for the published test vectors. *)
Definition unhex_digit (c : byte) : N :=
  let n := Byte.to_N c in (if n <? 58 then n - 48 else n - 87)%N.

Fixpoint unhex_list (l : bytes) : bytes :=
  match l with
  | c :: d :: r => byte_of_Z (Z.of_N (16 * unhex_digit c + unhex_digit d)) :: unhex_list r
  | _ => []
  end.

Definition unhex (s : string) : bytes := unhex_list (lit s).

(** * The key loader of the V2 command lines

    [smart_load_secret] is the same function in
    kyber/quantum_encryption_module.py and kyber/quantum_decryption_module.py.
    Its result is [None] when it raises [ValueError("Invalid Key Format...")]. *)

(** [s.strip()]: whitespace off both ends. *)
Definition strip (s : str) : str := rev (Ref.lstrip (rev (Ref.lstrip s))).

(** [bytes.fromhex(s)]: pairs of hexadecimal digits of either case, ASCII
    whitespace allowed between pairs (not inside one); [None] is its
    [ValueError]. *)
Definition hex_space (c : N) : bool := (((9 <=? c) && (c <=? 13)) || (c =? 32))%N.

Definition hex_val (c : N) : option N :=
  (if (48 <=? c) && (c <=? 57) then Some (c - 48)
   else if (97 <=? c) && (c <=? 102) then Some (c - 87)
   else if (65 <=? c) && (c <=? 70) then Some (c - 55)
   else None)%N.

Fixpoint fromhex (s : str) : option bytes :=
  match s with
  | [] => Some []
  | c :: r =>
      if hex_space c then fromhex r
      else
        match hex_val c, r with
        | Some top, d :: r' =>
            match hex_val d with
            | Some bot =>
                match fromhex r' with
                | Some rest => Some (byte_of_Z (Z.of_N (16 * top + bot)) :: rest)
                | None => None
                end
            | None => None
            end
        | _, _ => None
        end
  end.

(** [b.hex()]: two lower-case digits per byte. *)
Definition hex_of (x : bytes) : str :=
  flat_map (fun c => [Byte.to_N (hexdig (Byte.to_N c / 16));
                      Byte.to_N (hexdig (Byte.to_N c mod 16))]%N) x.

(** [s.endswith('=')] *)
Definition endswith_eq (s : str) : bool :=
  match rev s with
  | c :: _ => (c =? 61)%N
  | [] => false
  end.

Section KeyLoader.
(** [base64.b64decode(s)] of a [str]; [None] when it raises. *)
Variable b64decode : str -> option bytes.

Definition smart_load_secret (input_str : str) : option bytes :=
  let input_str := strip input_str in
  if (length input_str =? 64)%nat then fromhex input_str
  else if (length input_str =? 44)%nat || endswith_eq input_str then
    match b64decode input_str with
    | Some decoded => if (length decoded =? 32)%nat then Some decoded else None
    | None => None
    end
  else None.
End KeyLoader.

(** * Vocabulary of the statements *)

Module S1 := V1.SymmetricRatchet.
Module R1 := V1.SymmetricRatchetReceiver.
Module S2 := V2.QuantumDoubleRatchet.
Module R2 := V2.QuantumDoubleRatchetReceiver.

(** What the ratchets rely on from the libraries. *)
Class Laws (L : Lib) : Prop := {
  (** [HKDF] returns [key_len] bytes (the ratchets ask for 16 and 32) *)
  hkdf_length : forall m n s c, (n <= 32)%nat -> length (HKDF m n s c) = n;
  (** the GCM tag has 16 bytes, the ciphertext the length of the plaintext *)
  gcm_tag_length : forall k n a p, length (snd (gcm_encrypt k n a p)) = 16%nat;
  gcm_ct_length : forall k n a p, length (fst (gcm_encrypt k n a p)) = length p;
  (** decryption under the same key, nonce and AAD gives the plaintext back *)
  gcm_roundtrip : forall k n a p,
      gcm_decrypt k n a (fst (gcm_encrypt k n a p)) (snd (gcm_encrypt k n a p)) = Some p;
  (** [json.loads] reads back what [json.dumps] wrote *)
  json_roundtrip : forall sid n t i, json_header_ok (V2.header_bytes sid n t i) = true
}.

Section Vocabulary.
Context {L : Lib}.

(** The key chain of a secret: chain key after [n] advances, message key and
    beacon of step [n] (steps count from 1). *)
Definition next_chain (ck : bytes) : bytes := HKDF ck 32 None (lit "RATCHET-CHAIN-KEY").
Definition msg_key_of (ck : bytes) : bytes := HKDF ck 32 None (lit "RATCHET-MESSAGE-KEY").
Definition beacon_of (mk : bytes) : bytes := HKDF mk 16 None (lit "MESSAGE-LOOKUP-ID").

Fixpoint chain_at (k : bytes) (n : nat) : bytes :=
  match n with
  | O => k
  | S n' => next_chain (chain_at k n')
  end.

Definition message_key (k : bytes) (n : nat) : bytes := msg_key_of (chain_at k (n - 1)).
Definition beacon (k : bytes) (n : nat) : bytes := beacon_of (message_key k n).

(** No two of the first [n] steps of the chain of [k] share a beacon. *)
Definition collision_free (k : bytes) (n : nat) : Prop :=
  NoDup (map (beacon k) (seq 1 n)).

(** V1: the sender encrypts [(plaintext, aad)] pairs in order. *)
Fixpoint send_all1 (st : S1.state) (r : Rng) (msgs : list (bytes * option bytes))
  : list bytes :=
  match msgs with
  | [] => []
  | (m, a) :: rest =>
      let '((st1, r1), pkg) := S1.encrypt st r m a in pkg :: send_all1 st1 r1 rest
  end.

(** V1: the receiver decrypts [(package, aad)] pairs in order. *)
Fixpoint recv_all1 (st : R1.state) (calls : list (bytes * option bytes))
  : list (result bytes) :=
  match calls with
  | [] => []
  | (p, a) :: rest => let (st1, res) := R1.decrypt st p a in res :: recv_all1 st1 rest
  end.

Fixpoint run1 (st : R1.state) (calls : list (bytes * option bytes)) : R1.state :=
  match calls with
  | [] => st
  | (p, a) :: rest => run1 (fst (R1.decrypt st p a)) rest
  end.

(** V2: the sender encrypts [(clock, plaintext)] pairs in order. *)
Fixpoint send_all2 (st : S2.state) (r : Rng) (msgs : list (Z * bytes))
  : list (result bytes) :=
  match msgs with
  | [] => []
  | (now, m) :: rest =>
      let '((st1, r1), res) := S2.encrypt st now r m in res :: send_all2 st1 r1 rest
  end.

Fixpoint recv_all2 (st : R2.state) (pkgs : list bytes) : list (result bytes) :=
  match pkgs with
  | [] => []
  | p :: rest => let (st1, res) := R2.decrypt st p in res :: recv_all2 st1 rest
  end.

Fixpoint run2 (st : R2.state) (pkgs : list bytes) : R2.state :=
  match pkgs with
  | [] => st
  | p :: rest => run2 (fst (R2.decrypt st p)) rest
  end.

(** The V1 receiver states that calls can produce. *)
Inductive reachable1 : R1.state -> Prop :=
  | reach1_fresh : forall k, reachable1 (R1.fresh k)
  | reach1_decrypt : forall st pkg aad,
      reachable1 st -> reachable1 (fst (R1.decrypt st pkg aad)).

(** A V2 receiver call: [decrypt] or [refresh_root]. *)
Inductive call2 : Type :=
  | Decrypt (package : bytes)
  | RefreshRoot (new_entropy : bytes).

Definition do_call2 (st : R2.state) (c : call2) : R2.state :=
  match c with
  | Decrypt p => fst (R2.decrypt st p)
  | RefreshRoot e => R2.refresh_root st e
  end.
End Vocabulary.

(** * Vocabulary of the proofs *)

(** The keys of a dictionary, in insertion order. *)
Definition keys (K V : Type) (d : dict K V) : list K := map fst d.

(** Distinctness of a list of byte strings, as a test. *)
Fixpoint mem_bytes (x : bytes) (l : list bytes) : bool :=
  match l with
  | [] => false
  | y :: r => bytes_eqb x y || mem_bytes x r
  end.

Fixpoint distinct_bytes (l : list bytes) : bool :=
  match l with
  | [] => true
  | x :: r => negb (mem_bytes x r) && distinct_bytes r
  end.

Section ProofVocabulary.
Context {L : Lib}.

(** Every key of [d] is at most [bound]. *)
Definition keys_le (bound : Z) (d : dict Z bytes) : Prop :=
  forall k, In k (keys d) -> k <= bound.

(** The invariant of the V1 receiver: saved keys are distinct past steps, and
    fewer than [MAX_STORED_KEYS]. *)
Definition wf1 (st : R1.state) : Prop :=
  keys_le (R1.step st - 1) (R1.skipped_keys st) /\
  NoDup (keys (R1.skipped_keys st)) /\
  dict_len (R1.skipped_keys st) <= V1.MAX_STORED_KEYS - 1.

(** One assignment [cache[lid] = (key, seq)]. *)
Definition set_entry (c : dict bytes (bytes * Z)) (e : bytes * (bytes * Z))
  : dict bytes (bytes * Z) :=
  dict_set bytes_eqb (fst e) (snd e) c.

(** The saved keys and the cache lines of a list of steps of the chain of [k]. *)
Definition skipped_of (k : bytes) (js : list nat) : dict Z bytes :=
  map (fun j => (Z.of_nat j, message_key k j)) js.

Definition entries_of (k : bytes) (js : list nat) : dict bytes (bytes * Z) :=
  map (fun j => (beacon k j, (message_key k j, Z.of_nat j))) js.

(** The receiver that stands at step [s] of the chain of [k], holds the keys
    of the steps [js], and has just rebuilt its cache. *)
Definition at_step (root k : bytes) (s : nat) (js : list nat) (c : dict bytes (bytes * Z))
  : R2.state :=
  {| R2.root_key := root; R2.chain_key := chain_at k s; R2.step := Z.of_nat s;
     R2.skipped_keys := skipped_of k js; R2.lookup_cache := c |}.

Definition synced (root k : bytes) (s : nat) (js : list nat) : R2.state :=
  R2._refresh_lookup_cache (at_step root k s js []).

(** The sender after one [_advance_message_key]. *)
Definition S2_advanced (st : S2.state) : S2.state :=
  {| S2.root_key := S2.root_key st; S2.chain_key := next_chain (S2.chain_key st);
     S2.step := S2.step st + 1; S2.sender_id := S2.sender_id st |}.

(** The hidden header of the next [encrypt]. *)
Definition next_header (st : S2.state) (now : Z) (r : Rng) : bytes :=
  V2.header_bytes (S2.sender_id st) (S2.step st + 1) now (fst (uuid4_8 r)).

(** A package as the sender builds it for step [t] of the chain of [k] and
    the plaintext [m]. *)
Definition honest_packet (k : bytes) (t : nat) (m pkg : bytes) : Prop :=
  exists nonce header hl ml pad,
    length nonce = 12%nat /\
    to_bytes4 (len header) = Some hl /\
    to_bytes4 (len m) = Some ml /\
    json_header_ok header = true /\
    let e := gcm_encrypt (HKDF (message_key k t) V2.AES_KEY_SIZE None V2.HKDF_INFO) nonce None
                         (hl ++ header ++ ml ++ m ++ pad) in
    pkg = beacon k t ++ nonce ++ snd e ++ fst e.

(** The packages of the plaintexts [ms], made at the steps after [s]. *)
Fixpoint honest_from (k : bytes) (s : nat) (ms pkts : list bytes) : Prop :=
  match ms, pkts with
  | [], [] => True
  | m :: ms', p :: pkts' => honest_packet k (S s) m p /\ honest_from k (S s) ms' pkts'
  | _, _ => False
  end.

(** The AAD of each message names no step, or the step of that message. *)
Fixpoint aads_agree (s : Z) (msgs : list (bytes * option bytes)) : Prop :=
  match msgs with
  | [] => True
  | (_, a) :: rest =>
      (R1.aad_seq a = None \/ R1.aad_seq a = Some (s + 1)) /\ aads_agree (s + 1) rest
  end.

(** Where the receiver stands after the package of step [t]. *)
Definition next2 (s : nat) (js : list nat) (t : nat) : nat * list nat :=
  if in_dec Nat.eq_dec t js
  then (s, remove Nat.eq_dec t js)
  else (t, js ++ seq (S s) (t - s - 1)).

(** The steps [todo] can be delivered in this order to a receiver at step [s]
    holding the keys of [js]: each is saved or within the lookahead, and the
    cache stays within the first [bound] steps. *)
Fixpoint deliverable (bound s : nat) (js todo : list nat) : Prop :=
  match todo with
  | [] => True
  | t :: rest =>
      In t (js ++ seq (S s) R2.MAX_SKIP) /\ (s + R2.MAX_SKIP <= bound)%nat /\
      deliverable bound (fst (next2 s js t)) (snd (next2 s js t)) rest
  end.

(** The size test of [encrypt], on the header of the next step. *)
Definition fits (st : S2.state) (now : Z) (r : Rng) (pt : bytes) : bool :=
  (len pt <? 2 ^ 32) && (len (next_header st now r) <? 2 ^ 32)
  && (8 + len (next_header st now r) + len pt <=? V2.FIXED_PAYLOAD_SIZE).

(** The random tape after a successful [encrypt]. *)
Definition rng_after (st : S2.state) (now : Z) (r : Rng) (pt : bytes) : Rng :=
  let pad := urandom (snd (uuid4_8 r))
                     (Z.to_nat (V2.FIXED_PAYLOAD_SIZE - (8 + len (next_header st now r) + len pt))) in
  snd (urandom (snd pad) V2.NONCE_SIZE).

(** Every message of the list passes the size test at its turn. *)
Fixpoint all_fit (st : S2.state) (r : Rng) (msgs : list (Z * bytes)) : bool :=
  match msgs with
  | [] => true
  | (now, m) :: rest =>
      fits st now r m && all_fit (S2_advanced st) (rng_after st now r m) rest
  end.

(** The packages of a list of results. *)
Fixpoint oks (l : list (result bytes)) : list bytes :=
  match l with
  | [] => []
  | Ok p :: rest => p :: oks rest
  | Err _ :: rest => oks rest
  end.

(** The beacons of the next [n] steps, walking the chain once. *)
Fixpoint beacon_list (n : nat) (ck : bytes) : list bytes :=
  match n with
  | O => []
  | S n' => beacon_of (msg_key_of ck) :: beacon_list n' (next_chain ck)
  end.

(** The keys the real chain hands out: [n] calls of [_advance_chain] from
    [st], each key with the step it belongs to. *)
Fixpoint advance_keys (n : nat) (st : R2.state) : list (bytes * Z) :=
  match n with
  | O => []
  | S n' =>
      let (key, st1) := R2._advance_chain st in
      (key, R2.step st1) :: advance_keys n' st1
  end.

(** The cache line of a key: its beacon, the key and its step. *)
Definition entry_of (e : bytes * Z) : bytes * (bytes * Z) := (beacon_of (fst e), e).

End ProofVocabulary.

(** ** Vocabulary of the further properties *)

Section V1Vocabulary.
Context {L : Lib}.

(** The V1 receiver that stands at step [s] of the chain of [k] and holds
    the message keys of the steps [js]. *)
Definition v1_at (k : bytes) (s : nat) (js : list nat) : R1.state :=
  {| R1.chain_key := chain_at k s; R1.step := Z.of_nat s; R1.skipped_keys := skipped_of k js |}.

(** A V1 package as [encrypt_message] builds it at step [t] of the chain of
    [k], for the plaintext [m] and the AAD [a]. *)
Definition honest_packet1 (k : bytes) (t : nat) (m : bytes) (a : option bytes) (pkg : bytes)
  : Prop :=
  exists salt nonce,
    length salt = 16%nat /\ length nonce = 12%nat /\
    let e := gcm_encrypt (HKDF (message_key k t) V1.AES_KEY_SIZE (Some salt) V1.HKDF_INFO)
                         nonce a m in
    pkg = salt ++ nonce ++ fst e ++ snd e.

(** What a V1 receiver at step [s] may hold: keys of distinct earlier steps. *)
Definition holds1 (s : nat) (js : list nat) : Prop :=
  NoDup js /\ (forall j, In j js -> 1 <= j < s)%nat.
End V1Vocabulary.

Section V2Vocabulary.
Context {L : Lib}.

(** The root key after a sequence of receiver calls: only [refresh_root]
    changes it. *)
Definition root_after (k : bytes) (calls : list call2) : bytes :=
  fold_left (fun root c =>
               match c with
               | Decrypt _ => root
               | RefreshRoot e => HKDF (root ++ e) V2.AES_KEY_SIZE None V2.ROOT_REFRESH
               end) calls k.
End V2Vocabulary.

Section V2DeliveryVocabulary.
Context {L : Lib}.

(** Of the results of a sequence of [encrypt] calls: the i-th call returned a
    package; and that package ([b""] if there is none). *)
Definition sent (res : list (result bytes)) (i : nat) : Prop :=
  (1 <= i)%nat /\ exists p, nth_error res (i - 1) = Some (Ok p).

Definition pkt_at (res : list (result bytes)) (i : nat) : bytes :=
  match nth_error res (i - 1) with
  | Some (Ok p) => p
  | _ => []
  end.

Definition sentb (res : list (result bytes)) (i : nat) : bool :=
  (1 <=? i)%nat &&
  match nth_error res (i - 1) with
  | Some (Ok _) => true
  | _ => false
  end.

(** Where the receiver stands after the packages of the steps [todo]. *)
Definition deliver (s : nat) (js todo : list nat) : nat * list nat :=
  fold_left (fun p t => next2 (fst p) (snd p) t) todo (s, js).

(** The steps go up, each at most [MAX_SKIP] beyond the one before. *)
Fixpoint gaps_ok (s : nat) (order : list nat) : Prop :=
  match order with
  | [] => True
  | t :: rest => (s < t <= s + R2.MAX_SKIP)%nat /\ gaps_ok t rest
  end.
End V2DeliveryVocabulary.

(** The largest plaintext the V2 [encrypt] takes: what is left of the 512
    bytes after the two length fields and the header, whose length depends
    on the sender id, on the digits of the step and on the digits of the
    clock. *)
Definition capacity (sender_id : str) (step now : Z) : Z :=
  V2.FIXED_PAYLOAD_SIZE - 8
  - (38 + len (json_dumps_str sender_id) + len (json_dumps_int step) + len (json_dumps_int now)).

(** A decimal digit, as a code point. *)
Definition is_digit (c : N) : Prop := (48 <= c <= 57)%N.

(** Plain ASCII bytes. *)
Definition is_ascii (x : bytes) : Prop := Forall (fun c => (Byte.to_N c < 128)%N) x.

(** The four keys of the V2 hidden header: s, n, t and i. *)
Definition header_key (k : N) : Prop := (k = 115 \/ k = 110 \/ k = 116 \/ k = 105)%N.

(** ** Concrete inputs *)

Definition k0 : bytes := repeat x00 32.

Definition rng0 : Rng := {| tape := fun n => byte_of_Z (Z.of_nat (7 * n + 3)); pos := 0 |}.

Definition user : str := str_of_bytes (lit "User").

Definition now0 : Z := 1700000000.

Definition msgs_v1 : list (bytes * option bytes) :=
  [(lit "hi", Some (lit "sender:Test|seq:1|ts:12345678")); (lit "bye", None)].

Definition msgs_v2 : list (Z * bytes) := [(now0, lit "hi"); (now0 + 1, lit "bye")].

Definition msgs3 : list (Z * bytes) :=
  [(now0, lit "first"); (now0 + 1, lit "second"); (now0 + 2, lit "third")].

(** The one V1 package of ["hi"] sent without AAD, and the same package with
    its last byte flipped. *)
Definition pkg_hi : bytes :=
  hd [] (send_all1 (L := pylib) (S1.fresh k0) rng0 [(lit "hi", None)]).

Definition corrupt (pkg : bytes) : bytes :=
  removelast pkg ++ [Ref.bxor x01 (last pkg x00)].

(** A secret of three bytes. *)
Definition k3 : bytes := [x01; x02; x03].

(** A V1 package of 60 bytes made to open under two keys.  Salt and nonce
    are zero, so the AES keys [K1] and [K2] that [decrypt_message] derives
    from the message keys of steps 1 and 2 of the chain of [k0] are known.
    With [H = AES_K(0)] and [E = AES_K(nonce || 1)], the GCM tag of a single
    ciphertext block [C] without AAD is [C * H^2 + len * H + E] in GF(2^128);
    the block is the [C] that makes the two tags equal,
    [C = (len * (H1 + H2) + E1 + E2) / (H1 + H2)^2], and the tag follows. *)
Definition pkg_twice : bytes :=
  unhex "00000000000000000000000000000000000000000000000000000000ec8ad1fb79ec425b2195abe82cf07b93f06296bfeb2dc29dd6889eb322bc2a47".

(** An [os.urandom] that returns the same byte every time. *)
Definition rng_const : Rng := {| tape := fun _ => x2a; pos := 0 |}.

(** The three messages of [test_out_of_order.py], with its AADs. *)
Definition msgs_test : list (bytes * option bytes) :=
  [(lit "Message 1 (The First One)", Some (lit "sender:Test|seq:1|ts:12345678"));
   (lit "Message 2 (The Second One)", Some (lit "sender:Test|seq:2|ts:12345678"));
   (lit "Message 3 (The Third One)", Some (lit "sender:Test|seq:3|ts:12345678"))].

(** Three V2 messages, the second too long to be sent. *)
Definition msgs_gap : list (Z * bytes) :=
  [(now0, lit "first"); (now0 + 1, repeat x00 600); (now0 + 2, lit "third")].


(** * Facts about bytes, slices and dictionaries *)

Lemma byte_eqb_eq (x y : byte) : byte_eqb x y = true <-> x = y.
Proof.
  unfold byte_eqb. rewrite N.eqb_eq. split; [intro H | congruence].
  assert (E : Some x = Some y) by (rewrite <- (Byte.of_to_N x), <- (Byte.of_to_N y), H; reflexivity).
  congruence.
Qed.

Lemma bytes_eqb_eq (x y : bytes) : bytes_eqb x y = true <-> x = y.
Proof.
  revert y. induction x as [|c x IH]; intros [|d y]; simpl; try (split; congruence).
  rewrite andb_true_iff, byte_eqb_eq, IH. split; [intros [-> ->]; reflexivity | intro E].
  inversion E; auto.
Qed.

Lemma Z_eqb_eq (x y : Z) : Z.eqb x y = true <-> x = y.
Proof. apply Z.eqb_eq. Qed.

Lemma NoDup_snoc (A : Type) (l : list A) (x : A) : NoDup l -> ~ In x l -> NoDup (l ++ [x]).
Proof.
  induction l as [|a l IH]; simpl; intros ND Hx.
  - constructor; [tauto | constructor].
  - inversion ND; subst. constructor.
    + rewrite in_app_iff. simpl. intuition congruence.
    + apply IH; tauto.
Qed.

Section DictFacts.
Variables (K V : Type) (eqb : K -> K -> bool).
Hypothesis eqb_eq : forall x y, eqb x y = true <-> x = y.

Lemma eqb_refl_true k : eqb k k = true.
Proof. apply eqb_eq. reflexivity. Qed.

Lemma eqb_neq k k' : k <> k' -> eqb k k' = false.
Proof.
  intro H. destruct (eqb k k') eqn:E; [|reflexivity]. apply eqb_eq in E. contradiction.
Qed.

Lemma dict_get_In k v (d : dict K V) : dict_get eqb k d = Some v -> In (k, v) d.
Proof.
  induction d as [|[k' v'] d IH]; simpl; [discriminate|].
  destruct (eqb k k') eqn:E.
  - apply eqb_eq in E. subst. intros [= ->]. now left.
  - intro H. right. auto.
Qed.

Lemma dict_get_None k (d : dict K V) : dict_get eqb k d = None <-> ~ In k (keys d).
Proof.
  induction d as [|[k' v'] d IH]; simpl; [tauto|].
  destruct (eqb k k') eqn:E.
  - apply eqb_eq in E. subst. split; [discriminate | intro H; exfalso; apply H; now left].
  - rewrite IH. split; [intros H [H1|H1]; [|auto] | tauto].
    subst. rewrite eqb_refl_true in E. discriminate.
Qed.

Lemma dict_get_NoDup k v (d : dict K V) :
  NoDup (keys d) -> In (k, v) d -> dict_get eqb k d = Some v.
Proof.
  induction d as [|[k' v'] d IH]; simpl; [tauto|].
  intros ND [H|H].
  - inversion H; subst. now rewrite eqb_refl_true.
  - inversion ND as [|? ? Hn ND']; subst.
    rewrite eqb_neq; [now apply IH|].
    intros ->. apply Hn. unfold keys. change k' with (fst (k', v)). now apply in_map.
Qed.

Lemma dict_get_set_same k v (d : dict K V) : dict_get eqb k (dict_set eqb k v d) = Some v.
Proof.
  induction d as [|[k' v'] d IH]; simpl.
  - now rewrite eqb_refl_true.
  - destruct (eqb k k') eqn:E; simpl; rewrite E; auto.
Qed.

Lemma dict_get_set_other k k' v (d : dict K V) :
  k <> k' -> dict_get eqb k' (dict_set eqb k v d) = dict_get eqb k' d.
Proof.
  intro Hne. induction d as [|[k1 v1] d IH]; simpl.
  - rewrite eqb_neq; auto.
  - destruct (eqb k k1) eqn:E; simpl.
    + apply eqb_eq in E. subst k1. rewrite eqb_neq; auto.
    + destruct (eqb k' k1); auto.
Qed.

Lemma dict_set_fresh k v (d : dict K V) :
  ~ In k (keys d) -> dict_set eqb k v d = d ++ [(k, v)].
Proof.
  induction d as [|[k' v'] d IH]; simpl; [reflexivity|].
  intro H. rewrite eqb_neq by (intros ->; apply H; now left).
  f_equal. apply IH. tauto.
Qed.

Lemma dict_del_subset k k' (d : dict K V) :
  In k' (keys (dict_del eqb k d)) -> In k' (keys d).
Proof.
  induction d as [|[k1 v1] d IH]; simpl; [tauto|].
  destruct (eqb k k1); simpl; tauto.
Qed.

Lemma dict_del_NoDup k (d : dict K V) : NoDup (keys d) -> NoDup (keys (dict_del eqb k d)).
Proof.
  induction d as [|[k1 v1] d IH]; simpl; [auto|].
  intro ND. inversion ND as [|? ? Hn ND']; subst.
  destruct (eqb k k1); simpl; [assumption|].
  constructor; [|auto]. intro H. apply Hn. eapply dict_del_subset; eauto.
Qed.

Lemma dict_del_gone k (d : dict K V) :
  NoDup (keys d) -> ~ In k (keys (dict_del eqb k d)).
Proof.
  induction d as [|[k1 v1] d IH]; simpl; [tauto|].
  intro ND. inversion ND as [|? ? Hn ND']; subst.
  destruct (eqb k k1) eqn:E; simpl.
  - apply eqb_eq in E. now subst.
  - intros [H|H]; [subst; rewrite eqb_refl_true in E; discriminate | now apply IH].
Qed.

Lemma dict_del_other k k' (d : dict K V) :
  k <> k' -> In k' (keys d) -> In k' (keys (dict_del eqb k d)).
Proof.
  intro Hne. induction d as [|[k1 v1] d IH]; simpl; [tauto|].
  destruct (eqb k k1) eqn:E; simpl.
  - apply eqb_eq in E. subst. intros [H|H]; [contradiction | assumption].
  - tauto.
Qed.

Lemma dict_del_length k v (d : dict K V) :
  dict_get eqb k d = Some v -> S (length (dict_del eqb k d)) = length d.
Proof.
  induction d as [|[k1 v1] d IH]; simpl; [discriminate|].
  destruct (eqb k k1); simpl; [reflexivity|]. intro H. f_equal. auto.
Qed.
End DictFacts.

(** * The key chain *)

Section ChainFacts.
Context {L : Lib}.

Lemma chain_at_shift k n : chain_at (next_chain k) n = next_chain (chain_at k n).
Proof. induction n as [|n IH]; simpl; [reflexivity | now rewrite IH]. Qed.

Lemma chain_at_add k n m : chain_at (chain_at k n) m = chain_at k (n + m).
Proof.
  revert k. induction n as [|n IH]; intro k; simpl; [reflexivity|].
  rewrite <- chain_at_shift, IH, chain_at_shift. reflexivity.
Qed.
End ChainFacts.

(** * The V1 receiver *)

Lemma gtb_true x y : x > y -> (x >? y) = true.
Proof. intro H. apply Z.gtb_lt. lia. Qed.

Lemma gtb_false x y : x <= y -> (x >? y) = false.
Proof. intro H. rewrite Z.gtb_ltb. apply Z.ltb_ge. lia. Qed.

Section V1Facts.
Context {L : Lib}.

Lemma R1_advance_eq st :
  R1._advance st =
  (msg_key_of (R1.chain_key st),
   {| R1.chain_key := next_chain (R1.chain_key st); R1.step := R1.step st + 1;
      R1.skipped_keys := R1.skipped_keys st |}).
Proof. reflexivity. Qed.

Lemma R1_catch_up_S n st t mk0 :
  R1.catch_up (S n) st t mk0 =
  if R1.step st <? t then
    let st1 := {| R1.chain_key := next_chain (R1.chain_key st); R1.step := R1.step st + 1;
                  R1.skipped_keys := R1.skipped_keys st |} in
    let mk := msg_key_of (R1.chain_key st) in
    R1.catch_up n
      (if R1.step st + 1 <? t
       then R1.set_skipped st1 (dict_set Z.eqb (R1.step st + 1) mk (R1.skipped_keys st))
       else st1) t (Some mk)
  else (st, mk0).
Proof. reflexivity. Qed.

(** The catch-up loop run for exactly [target - step] rounds. *)
Lemma R1_catch_up_spec n : forall st t mk0,
  t = R1.step st + Z.of_nat n ->
  keys_le (R1.step st) (R1.skipped_keys st) ->
  NoDup (keys (R1.skipped_keys st)) ->
  let r := R1.catch_up n st t mk0 in
  R1.step (fst r) = t /\
  R1.chain_key (fst r) = chain_at (R1.chain_key st) n /\
  NoDup (keys (R1.skipped_keys (fst r))) /\
  (n = O -> r = (st, mk0)) /\
  ((0 < n)%nat ->
   keys_le (t - 1) (R1.skipped_keys (fst r)) /\
   length (R1.skipped_keys (fst r)) = (length (R1.skipped_keys st) + n - 1)%nat /\
   snd r = Some (msg_key_of (chain_at (R1.chain_key st) (n - 1)))).
Proof.
  induction n as [|n IH]; intros st t mk0 Ht Hle Hnd r; subst r.
  - simpl. repeat split; auto; try lia; intro; lia.
  - rewrite R1_catch_up_S.
    assert (Hlt : (R1.step st <? t) = true) by (apply Z.ltb_lt; lia).
    rewrite Hlt. cbv zeta.
    destruct n as [|n].
    + assert (Hge : (R1.step st + 1 <? t) = false) by (apply Z.ltb_ge; lia).
      rewrite Hge. cbn. repeat split; auto; try lia; try discriminate.
      intros k Hk. specialize (Hle k Hk). lia.
    + assert (Hlt2 : (R1.step st + 1 <? t) = true) by (apply Z.ltb_lt; lia).
      rewrite Hlt2.
      assert (Hfresh : ~ In (R1.step st + 1) (keys (R1.skipped_keys st))).
      { intro H. specialize (Hle _ H). lia. }
      rewrite (@dict_set_fresh _ _ _ Z_eqb_eq _ _ _ Hfresh).
      match goal with |- context [R1.catch_up _ ?s _ _] => set (st2 := s) end.
      destruct (IH st2 t (Some (msg_key_of (R1.chain_key st)))) as (H1 & H2 & H3 & _ & H5).
      * subst st2. cbn. lia.
      * intros k Hk. subst st2. cbn in Hk |- *. unfold keys in Hk. rewrite map_app in Hk.
        apply in_app_or in Hk. destruct Hk as [Hk|[Hk|[]]].
        -- specialize (Hle k Hk). lia.
        -- cbn in Hk. lia.
      * subst st2. cbn. unfold keys. rewrite map_app. cbn.
        apply NoDup_snoc; assumption.
      * destruct H5 as (H5 & H6 & H7); [lia|].
        repeat split; auto; try discriminate.
        -- rewrite H2. subst st2. cbn [R1.chain_key R1.set_skipped].
           apply chain_at_shift.
        -- rewrite H6. subst st2. cbn [R1.skipped_keys R1.set_skipped].
           rewrite length_app. cbn. lia.
        -- rewrite H7. subst st2. cbn [R1.chain_key R1.set_skipped].
           replace (S (S n) - 1)%nat with (S n) by lia.
           replace (S n - 1)%nat with n by lia.
           f_equal. f_equal. apply chain_at_shift.
Qed.

(** Step, chain key and returned key of the loop, whatever the saved keys are. *)
Lemma R1_catch_up_core n : forall st t mk0,
  t = R1.step st + Z.of_nat n ->
  let r := R1.catch_up n st t mk0 in
  R1.step (fst r) = t /\
  R1.chain_key (fst r) = chain_at (R1.chain_key st) n /\
  ((0 < n)%nat -> snd r = Some (msg_key_of (chain_at (R1.chain_key st) (n - 1)))).
Proof.
  induction n as [|n IH]; intros st t mk0 Ht r; subst r.
  - simpl. repeat split; auto; try lia; intro; lia.
  - rewrite R1_catch_up_S.
    assert (Hlt : (R1.step st <? t) = true) by (apply Z.ltb_lt; lia).
    rewrite Hlt. cbv zeta.
    match goal with |- context [R1.catch_up _ ?s _ _] => set (st2 := s) end.
    assert (Hs : R1.step st2 = R1.step st + 1) by (subst st2; destruct (R1.step st + 1 <? t); reflexivity).
    assert (Hc : R1.chain_key st2 = next_chain (R1.chain_key st))
      by (subst st2; destruct (R1.step st + 1 <? t); reflexivity).
    destruct (IH st2 t (Some (msg_key_of (R1.chain_key st)))) as (H1 & H2 & H3); [lia|].
    rewrite Hc in H2, H3. repeat split; auto.
    + rewrite H2. apply chain_at_shift.
    + intros _. destruct n as [|n].
      * reflexivity.
      * rewrite H3 by lia. replace (S (S n) - 1)%nat with (S n) by lia.
        replace (S n - 1)%nat with n by lia. f_equal. f_equal. apply chain_at_shift.
Qed.

Lemma R1_catch_up_mono n : forall st t mk0,
  R1.step st <= R1.step (fst (R1.catch_up n st t mk0)).
Proof.
  induction n as [|n IH]; intros st t mk0; [simpl; lia|].
  rewrite R1_catch_up_S. destruct (R1.step st <? t); [|simpl; lia].
  cbv zeta. eapply Z.le_trans; [|apply IH].
  destruct (R1.step st + 1 <? t); cbn; lia.
Qed.

Lemma R1_decrypt_step_mono st pkg aad :
  R1.step st <= R1.step (fst (R1.decrypt st pkg aad)).
Proof.
  unfold R1.decrypt.
  destruct (dict_get _ _ _); [cbn; lia|].
  destruct (_ >? _); [|cbn; lia].
  destruct (_ >? _); [cbn; lia|].
  destruct (_ >? _); [cbn; lia|].
  pose proof (R1_catch_up_mono (Z.to_nat (R1.target_of st aad - R1.step st)) st
                (R1.target_of st aad) None) as H.
  destruct (R1.catch_up _ _ _ _) as [st1 [mk|]]; exact H.
Qed.

Lemma wf1_fresh k : wf1 (R1.fresh k).
Proof.
  unfold wf1. cbn. split; [intros j []|]. split; [constructor|].
  unfold dict_len, V1.MAX_STORED_KEYS. cbn. lia.
Qed.

Lemma dict_get_none_of_keys_le bound t (d : dict Z bytes) :
  keys_le bound d -> bound < t -> dict_get Z.eqb t d = None.
Proof.
  intros Hle Hlt. apply (@dict_get_None Z bytes Z.eqb Z_eqb_eq). intro H. specialize (Hle _ H). lia.
Qed.

(** Case B of [decrypt] when both guards pass. *)
Lemma R1_decrypt_catch_up st pkg aad :
  wf1 st ->
  let t := R1.target_of st aad in
  let n := Z.to_nat (t - R1.step st) in
  t > R1.step st ->
  t - R1.step st <= V1.MAX_SKIP_RANGE ->
  dict_len (R1.skipped_keys st) + (t - R1.step st) <= V1.MAX_STORED_KEYS ->
  exists st',
    R1.decrypt st pkg aad
    = (st', V1.decrypt_message (msg_key_of (chain_at (R1.chain_key st) (n - 1))) pkg aad) /\
    R1.step st' = t /\
    R1.chain_key st' = chain_at (R1.chain_key st) n /\
    length (R1.skipped_keys st') = (length (R1.skipped_keys st) + n - 1)%nat /\
    wf1 st'.
Proof.
  intros (Hle & Hnd & Hlen) t n Ht Hd Hs.
  unfold R1.decrypt. fold t.
  rewrite (dict_get_none_of_keys_le (t := t) Hle) by lia.
  rewrite (gtb_true Ht), (gtb_false Hd), (gtb_false Hs).
  fold n.
  destruct (@R1_catch_up_spec n st t None) as (H1 & H2 & H3 & _ & H5);
    [subst n; lia | intros k Hk; specialize (Hle k Hk); lia | assumption |].
  destruct H5 as (H5 & H6 & H7); [subst n; lia|].
  destruct (R1.catch_up n st t None) as [st1 mk]. cbn in *. subst mk.
  exists st1. repeat split; auto.
  - rewrite H1. exact H5.
  - unfold dict_len in *. rewrite H6. unfold V1.MAX_STORED_KEYS in *. subst n. lia.
Qed.

Lemma wf1_decrypt st pkg aad : wf1 st -> wf1 (fst (R1.decrypt st pkg aad)).
Proof.
  intros Hwf. pose proof Hwf as (Hle & Hnd & Hlen).
  destruct (dict_get Z.eqb (R1.target_of st aad) (R1.skipped_keys st)) as [mk|] eqn:Hget.
  - unfold R1.decrypt. rewrite Hget. cbn. repeat split; cbn.
    + intros k Hk. apply Hle. eapply dict_del_subset; eauto.
    + now apply dict_del_NoDup.
    + unfold dict_len, V1.MAX_STORED_KEYS in *. pose proof (dict_del_length _ _ _ Hget). lia.
  - destruct (Z_gt_le_dec (R1.target_of st aad) (R1.step st)) as [Hgt|Hle'].
    + destruct (Z_gt_le_dec (R1.target_of st aad - R1.step st) V1.MAX_SKIP_RANGE) as [H1|H1].
      { unfold R1.decrypt. rewrite Hget, (gtb_true Hgt), (gtb_true H1). exact Hwf. }
      destruct (Z_gt_le_dec (dict_len (R1.skipped_keys st)
                             + (R1.target_of st aad - R1.step st)) V1.MAX_STORED_KEYS) as [H2|H2].
      { unfold R1.decrypt. rewrite Hget, (gtb_true Hgt), (gtb_false H1), (gtb_true H2).
        exact Hwf. }
      destruct (@R1_decrypt_catch_up st pkg aad Hwf Hgt H1 H2) as (st' & E & _ & _ & _ & W).
      rewrite E. exact W.
    + unfold R1.decrypt. rewrite Hget, (gtb_false Hle'). exact Hwf.
Qed.

Lemma reachable1_wf st : reachable1 st -> wf1 st.
Proof.
  induction 1; [apply wf1_fresh | now apply wf1_decrypt].
Qed.

Lemma R1_decrypt_stale st pkg aad :
  R1.target_of st aad <= R1.step st ->
  dict_get Z.eqb (R1.target_of st aad) (R1.skipped_keys st) = None ->
  R1.decrypt st pkg aad = (st, Err ReplayOrStale).
Proof.
  intros Hle Hget. unfold R1.decrypt. rewrite Hget, (gtb_false Hle). reflexivity.
Qed.

Lemma R1_target_of_seq st aad n : R1.aad_seq aad = Some n -> R1.target_of st aad = n.
Proof. unfold R1.target_of. now intros ->. Qed.

Lemma R1_target_of_default st aad :
  R1.aad_seq aad = None -> R1.target_of st aad = R1.step st + 1.
Proof. unfold R1.target_of. now intros ->. Qed.
End V1Facts.

(** * The V2 receiver *)

Lemma inj_on_NoDup_map (A B : Type) (f : A -> B) (l : list A) x y :
  NoDup (map f l) -> In x l -> In y l -> f x = f y -> x = y.
Proof.
  induction l as [|a l IH]; simpl; [tauto|].
  intros ND Hx Hy E. inversion ND as [|? ? Hn ND']; subst.
  destruct Hx as [<-|Hx], Hy as [<-|Hy]; auto.
  - exfalso. apply Hn. rewrite E. now apply in_map.
  - exfalso. apply Hn. rewrite <- E. now apply in_map.
Qed.

Lemma NoDup_map_sub (A B : Type) (f : A -> B) (big l : list A) :
  NoDup (map f big) -> NoDup l -> incl l big -> NoDup (map f l).
Proof.
  intros Hbig. induction l as [|a l IH]; simpl; intros ND Hin; [constructor|].
  inversion ND as [|? ? Hn ND']; subst. constructor.
  - intro H. apply in_map_iff in H. destruct H as (y & E & Hy).
    apply Hn. replace a with y; [assumption|].
    eapply inj_on_NoDup_map; eauto; apply Hin; simpl; auto.
  - apply IH; [assumption|]. intros z Hz. apply Hin. now right.
Qed.

Section V2Facts.
Context {L : Lib}.

Lemma refresh_at_step root k s js c :
  R2._refresh_lookup_cache (at_step root k s js c) = synced root k s js.
Proof. reflexivity. Qed.

Lemma R2_fresh_synced k : R2.fresh k = synced k k 0 [].
Proof. reflexivity. Qed.

Lemma fold_set_entry_fresh es : forall c,
  NoDup (keys (c ++ es)) -> fold_left set_entry es c = c ++ es.
Proof.
  induction es as [|[lid v] es IH]; intros c ND; simpl; [now rewrite app_nil_r|].
  unfold set_entry at 2. cbn [fst snd].
  assert (Hfresh : ~ In lid (keys c)).
  { unfold keys in *. rewrite map_app in ND. cbn in ND.
    apply NoDup_remove_2 in ND. intro H. apply ND. apply in_or_app. now left. }
  rewrite (@dict_set_fresh _ _ _ bytes_eqb_eq _ _ _ Hfresh).
  rewrite IH; rewrite <- app_assoc; [reflexivity | exact ND].
Qed.

Lemma fold_set_entry_get es : forall c lid v,
  dict_get bytes_eqb lid (fold_left set_entry es c) = Some v ->
  In (lid, v) es \/ dict_get bytes_eqb lid c = Some v.
Proof.
  induction es as [|[lid0 v0] es IH]; intros c lid v H; simpl in *; [now right|].
  apply IH in H. destruct H as [H|H]; [left; now right|].
  unfold set_entry in H. cbn [fst snd] in H.
  destruct (bytes_eqb lid lid0) eqn:E.
  - apply bytes_eqb_eq in E. subst lid0.
    rewrite (@dict_get_set_same _ _ _ bytes_eqb_eq) in H. inversion H; subst. left. now left.
  - right. rewrite (@dict_get_set_other _ _ _ bytes_eqb_eq) in H; [assumption|].
    intros ->. rewrite (@eqb_refl_true _ _ bytes_eqb_eq) in E. discriminate.
Qed.

Lemma index_skipped_fold items : forall c,
  R2.index_skipped items c
  = fold_left set_entry (map (fun e => (beacon_of (snd e), (snd e, fst e))) items) c.
Proof.
  induction items as [|[seq key] items IH]; intro c; simpl; [reflexivity|].
  rewrite IH. reflexivity.
Qed.

Lemma index_skipped_of k js c :
  R2.index_skipped (skipped_of k js) c = fold_left set_entry (entries_of k js) c.
Proof.
  rewrite index_skipped_fold. unfold skipped_of, entries_of. rewrite map_map. reflexivity.
Qed.

Lemma lookahead_of k n : forall s c,
  R2.lookahead n (chain_at k s) (Z.of_nat s) c
  = fold_left set_entry (entries_of k (seq (S s) n)) c.
Proof.
  induction n as [|n IH]; intros s c; [reflexivity|].
  cbn [R2.lookahead seq entries_of map fold_left].
  change (HKDF (chain_at k s) V2.AES_KEY_SIZE None V2.RATCHET_INFO_CHAIN)
    with (chain_at k (S s)).
  replace (Z.of_nat s + 1) with (Z.of_nat (S s)) by lia.
  rewrite IH. unfold set_entry at 2, beacon, message_key. cbn [fst snd].
  replace (S s - 1)%nat with s by lia. reflexivity.
Qed.

(** The cache after a rebuild, when no two of its lines share a beacon. *)
Lemma synced_cache root k s js :
  NoDup (map (beacon k) (js ++ seq (S s) R2.MAX_SKIP)) ->
  R2.lookup_cache (synced root k s js) = entries_of k (js ++ seq (S s) R2.MAX_SKIP).
Proof.
  intro ND. unfold synced, R2._refresh_lookup_cache, at_step.
  cbn [R2.lookup_cache R2.set_cache R2.chain_key R2.step R2.skipped_keys].
  rewrite lookahead_of, index_skipped_of, <- fold_left_app.
  unfold entries_of. rewrite <- map_app.
  rewrite fold_set_entry_fresh; [reflexivity|].
  cbn [app]. unfold keys. rewrite map_map. exact ND.
Qed.

Lemma synced_lookup root k s js t :
  NoDup (map (beacon k) (js ++ seq (S s) R2.MAX_SKIP)) ->
  In t (js ++ seq (S s) R2.MAX_SKIP) ->
  dict_get bytes_eqb (beacon k t) (R2.lookup_cache (synced root k s js))
  = Some (message_key k t, Z.of_nat t).
Proof.
  intros ND Hin. rewrite synced_cache by assumption.
  apply (@dict_get_NoDup _ _ _ bytes_eqb_eq).
  - unfold keys, entries_of. rewrite map_map. exact ND.
  - unfold entries_of. apply in_map_iff. exists t. auto.
Qed.

Lemma NoDup_map_of_nat js : NoDup js -> NoDup (map Z.of_nat js).
Proof.
  induction 1 as [|j js Hn ND IH]; simpl; constructor; [|assumption].
  intro H. apply in_map_iff in H. destruct H as (i & E & Hi).
  apply Nat2Z.inj in E. now subst.
Qed.

Lemma keys_skipped_of k js : keys (skipped_of k js) = map Z.of_nat js.
Proof. unfold keys, skipped_of. rewrite map_map. reflexivity. Qed.

Lemma skipped_of_get k js t :
  NoDup js -> In t js ->
  dict_get Z.eqb (Z.of_nat t) (skipped_of k js) = Some (message_key k t).
Proof.
  intros ND Hin. apply (@dict_get_NoDup _ _ _ Z_eqb_eq).
  - rewrite keys_skipped_of. now apply NoDup_map_of_nat.
  - unfold skipped_of. apply in_map_iff. exists t. auto.
Qed.

Lemma skipped_of_get_none k js t :
  ~ In t js -> dict_get Z.eqb (Z.of_nat t) (skipped_of k js) = None.
Proof.
  intro Hn. apply (@dict_get_None _ _ _ Z_eqb_eq). rewrite keys_skipped_of.
  intro H. apply in_map_iff in H. destruct H as (i & E & Hi).
  apply Nat2Z.inj in E. now subst.
Qed.

Lemma skipped_of_del k js t :
  NoDup js ->
  dict_del Z.eqb (Z.of_nat t) (skipped_of k js) = skipped_of k (remove Nat.eq_dec t js).
Proof.
  induction js as [|j js IH]; intro ND; [reflexivity|].
  inversion ND as [|? ? Hn ND']; subst. cbn [skipped_of map dict_del remove].
  destruct (Nat.eq_dec t j) as [->|Hne].
  - rewrite Z.eqb_refl. rewrite notin_remove by assumption. reflexivity.
  - replace (Z.of_nat t =? Z.of_nat j) with false by (symmetry; apply Z.eqb_neq; lia).
    cbn [map]. f_equal. now apply IH.
Qed.

Lemma R2_catch_up_S n st m blob :
  R2.catch_up (S n) st m blob =
  if R2.step st <? m then
    let key := msg_key_of (R2.chain_key st) in
    let st1 := {| R2.root_key := R2.root_key st; R2.chain_key := next_chain (R2.chain_key st);
                  R2.step := R2.step st + 1; R2.skipped_keys := R2.skipped_keys st;
                  R2.lookup_cache := R2.lookup_cache st |} in
    if R2.step st + 1 =? m then
      (R2._refresh_lookup_cache st1, Some (R2._unpack (V2.trial_decrypt key blob)))
    else
      R2.catch_up n (R2.set_skipped st1 (dict_set Z.eqb (R2.step st + 1) key
                                                  (R2.skipped_keys st))) m blob
  else (st, None).
Proof. reflexivity. Qed.

(** Case B on a receiver that stands at step [s]: the loop stops at the target,
    having saved the keys in between. *)
Lemma R2_catch_up_at_step n : forall root k s js c blob,
  (forall j, In j js -> j <= s)%nat ->
  R2.catch_up (S n) (at_step root k s js c) (Z.of_nat (s + S n)) blob
  = (synced root k (s + S n) (js ++ seq (S s) n),
     Some (R2._unpack (V2.trial_decrypt (message_key k (s + S n)) blob))).
Proof.
  induction n as [|n IH]; intros root k s js c blob Hle.
  - rewrite R2_catch_up_S. cbn [at_step R2.step R2.chain_key R2.root_key R2.skipped_keys
                                 R2.lookup_cache].
    replace (Z.of_nat s <? Z.of_nat (s + 1)) with true by (symmetry; apply Z.ltb_lt; lia).
    replace (Z.of_nat s + 1 =? Z.of_nat (s + 1)) with true by (symmetry; apply Z.eqb_eq; lia).
    cbv zeta. rewrite app_nil_r. unfold message_key.
    replace (s + 1 - 1)%nat with s by lia. f_equal.
    replace (Z.of_nat s + 1) with (Z.of_nat (s + 1)) by lia.
    change (next_chain (chain_at k s)) with (chain_at k (S s)).
    replace (S s) with (s + 1)%nat by lia. reflexivity.
  - rewrite R2_catch_up_S. cbn [at_step R2.step R2.chain_key R2.root_key R2.skipped_keys
                                 R2.lookup_cache].
    replace (Z.of_nat s <? Z.of_nat (s + S (S n))) with true
      by (symmetry; apply Z.ltb_lt; lia).
    replace (Z.of_nat s + 1 =? Z.of_nat (s + S (S n))) with false
      by (symmetry; apply Z.eqb_neq; lia).
    cbv zeta.
    assert (Hfresh : ~ In (Z.of_nat s + 1) (keys (skipped_of k js))).
    { rewrite keys_skipped_of. intro H. apply in_map_iff in H. destruct H as (i & E & Hi).
      specialize (Hle i Hi). lia. }
    rewrite (@dict_set_fresh _ _ _ Z_eqb_eq _ _ _ Hfresh).
    replace (Z.of_nat s + 1) with (Z.of_nat (S s)) by lia.
    change (next_chain (chain_at k s)) with (chain_at k (S s)).
    assert (E : R2.set_skipped
                  {| R2.root_key := root; R2.chain_key := chain_at k (S s);
                     R2.step := Z.of_nat (S s); R2.skipped_keys := skipped_of k js;
                     R2.lookup_cache := c |}
                  (skipped_of k js ++ [(Z.of_nat (S s), msg_key_of (chain_at k s))])
                = at_step root k (S s) (js ++ [S s]) c).
    { unfold R2.set_skipped, at_step, skipped_of. cbn [R2.root_key R2.chain_key R2.step
                                                       R2.lookup_cache].
      rewrite map_app. cbn [map]. unfold message_key.
      replace (S s - 1)%nat with s by lia. reflexivity. }
    rewrite E.
    replace (s + S (S n))%nat with (S s + S n)%nat by lia.
    rewrite IH.
    + rewrite <- app_assoc. reflexivity.
    + intros j Hj. apply in_app_or in Hj. destruct Hj as [Hj|[<-|[]]]; [|lia].
      specialize (Hle j Hj). lia.
Qed.

Lemma synced_as_at_step root k s js :
  synced root k s js = at_step root k s js (R2.lookup_cache (synced root k s js)).
Proof. reflexivity. Qed.

Lemma refresh_set_skipped root k s js js' :
  R2._refresh_lookup_cache (R2.set_skipped (synced root k s js) (skipped_of k js'))
  = synced root k s js'.
Proof. reflexivity. Qed.

(** One [decrypt] on a receiver with a rebuilt cache, for a package that
    carries the beacon of a step [t] the cache knows. *)
Lemma R2_decrypt_synced root k s js t pkg :
  NoDup (map (beacon k) (js ++ seq (S s) R2.MAX_SKIP)) ->
  NoDup js ->
  (forall j, In j js -> j <= s)%nat ->
  44 <= len pkg ->
  firstn 16 pkg = beacon k t ->
  In t (js ++ seq (S s) R2.MAX_SKIP) ->
  R2.decrypt (synced root k s js) pkg =
  (if in_dec Nat.eq_dec t js
   then synced root k s (remove Nat.eq_dec t js)
   else synced root k t (js ++ seq (S s) (t - s - 1)),
   R2._unpack (V2.trial_decrypt (message_key k t) (skipn 16 pkg))).
Proof.
  intros NDb NDj Hle Hlen Hb Hin.
  unfold R2.decrypt.
  replace (len pkg <? Z.of_nat (16 + V2.NONCE_SIZE + V2.TAG_SIZE)) with false
    by (symmetry; apply Z.ltb_ge; cbn; lia).
  rewrite Hb, (@synced_lookup root k s js t NDb Hin).
  change (R2.skipped_keys (synced root k s js)) with (skipped_of k js).
  destruct (in_dec Nat.eq_dec t js) as [Hj|Hj].
  - rewrite (@skipped_of_get k js t NDj Hj), (@skipped_of_del k js t NDj), refresh_set_skipped.
    reflexivity.
  - rewrite (@skipped_of_get_none k js t Hj).
    apply in_app_or in Hin. destruct Hin as [Hin|Hin]; [contradiction|].
    apply in_seq in Hin.
    change (R2.step (synced root k s js)) with (Z.of_nat s).
    replace (Z.to_nat (Z.of_nat t - Z.of_nat s)) with (S (t - s - 1)) by lia.
    rewrite synced_as_at_step.
    replace (Z.of_nat t) with (Z.of_nat (s + S (t - s - 1))) by lia.
    rewrite R2_catch_up_at_step by assumption.
    replace (s + S (t - s - 1))%nat with t by lia. reflexivity.
Qed.
End V2Facts.

(** * Packets: slices and length fields *)

Lemma len_app x y : len (x ++ y) = len x + len y.
Proof. unfold len. rewrite length_app. lia. Qed.

Lemma slice_mid (a x r : bytes) i j :
  i = len a -> j = len a + len x -> slice (a ++ x ++ r) i j = x.
Proof.
  intros -> ->. unfold slice, len.
  replace (Z.to_nat (Z.of_nat (length a) + Z.of_nat (length x) - Z.of_nat (length a)))
    with (length x) by lia.
  rewrite Nat2Z.id, skipn_app, skipn_all, Nat.sub_diag. cbn [skipn app].
  rewrite firstn_app, firstn_all, Nat.sub_diag. cbn [firstn]. apply app_nil_r.
Qed.

Lemma slice_head (x r : bytes) j : j = len x -> slice (x ++ r) 0 j = x.
Proof. intro H. apply (@slice_mid [] x r); [reflexivity | cbn; lia]. Qed.

Lemma slice_last (a x : bytes) i j : i = len a -> j = len a + len x -> slice (a ++ x) i j = x.
Proof. intros. rewrite <- (app_nil_r x) at 1. now apply slice_mid. Qed.

Lemma byte_of_Z_to_N z : Z.of_N (Byte.to_N (byte_of_Z z)) = z mod 256.
Proof.
  unfold byte_of_Z. pose proof (Z.mod_pos_bound z 256 eq_refl) as Hb.
  destruct (Byte.of_N (Z.to_N (z mod 256))) as [c|] eqn:E.
  - apply Byte.to_of_N in E. rewrite E. lia.
  - apply Byte.of_N_None_iff in E. lia.
Qed.

Lemma to_bytes4_spec n x :
  to_bytes4 n = Some x -> length x = 4%nat /\ int_from_bytes x = n /\ 0 <= n < 2 ^ 32.
Proof.
  unfold to_bytes4. destruct (0 <=? n) eqn:E1; [|discriminate].
  destruct (n <? 2 ^ 32) eqn:E2; [|discriminate].
  apply Z.leb_le in E1. apply Z.ltb_lt in E2. cbn [andb]. intros [= <-].
  split; [reflexivity|]. split; [|lia].
  unfold int_from_bytes. cbn [fold_left]. rewrite !byte_of_Z_to_N.
  change (2 ^ 32) with 4294967296 in E2. change (2 ^ 24) with 16777216.
  change (2 ^ 16) with 65536. change (2 ^ 8) with 256.
  Z.div_mod_to_equations. lia.
Qed.

Lemma to_bytes4_some n : 0 <= n < 2 ^ 32 -> exists x, to_bytes4 n = Some x.
Proof.
  intros [H1 H2]. unfold to_bytes4.
  apply Z.leb_le in H1. apply Z.ltb_lt in H2. rewrite H1, H2. cbn [andb]. eauto.
Qed.

Lemma urandom_length r n : length (fst (urandom r n)) = n.
Proof. unfold urandom. cbn. now rewrite length_map, length_seq. Qed.

(** * The V2 sender and its packets *)

Section V2Packets.
Context {L : Lib}.

Lemma S2_encrypt_eq st now r pt :
  S2.encrypt st now r pt =
  let mk := msg_key_of (S2.chain_key st) in
  let r1 := snd (uuid4_8 r) in
  let header := next_header st now r in
  match to_bytes4 (len pt), to_bytes4 (len header) with
  | Some ml, Some hl =>
      let content := hl ++ header ++ ml ++ pt in
      if len content >? V2.FIXED_PAYLOAD_SIZE then ((S2_advanced st, r1), Err PayloadTooLarge)
      else
        let pad := urandom r1 (Z.to_nat (V2.FIXED_PAYLOAD_SIZE - len content)) in
        let nc := urandom (snd pad) V2.NONCE_SIZE in
        let e := gcm_encrypt (HKDF mk V2.AES_KEY_SIZE None V2.HKDF_INFO) (fst nc) None
                             (content ++ fst pad) in
        ((S2_advanced st, snd nc), Ok (beacon_of mk ++ fst nc ++ snd e ++ fst e))
  | _, _ => ((S2_advanced st, r1), Err LengthOverflow)
  end.
Proof.
  unfold S2.encrypt, S2._advance_message_key, next_header, uuid4_8, urandom. cbv zeta.
  cbn [fst snd].
  destruct (to_bytes4 (len pt)) as [ml|]; [|reflexivity].
  destruct (to_bytes4 _) as [hl|]; [|reflexivity].
  destruct (_ >? _); [reflexivity|].
  destruct (gcm_encrypt _ _ _ _) as [ct tag]. reflexivity.
Qed.

Context {HL : Laws L}.

Lemma S2_encrypt_honest k s st now r m st' r' pkg :
  S2.chain_key st = chain_at k s ->
  S2.step st = Z.of_nat s ->
  S2.encrypt st now r m = ((st', r'), Ok pkg) ->
  honest_packet k (S s) m pkg /\ st' = S2_advanced st.
Proof.
  intros Hc Hs. rewrite S2_encrypt_eq. cbv zeta.
  destruct (to_bytes4 (len m)) as [ml|] eqn:Eml; [|discriminate].
  destruct (to_bytes4 (len (next_header st now r))) as [hl|] eqn:Ehl; [|discriminate].
  destruct (_ >? _); [discriminate|].
  rewrite <- !app_assoc.
  remember (urandom (snd (uuid4_8 r)) _) as pad eqn:Epad.
  remember (urandom (snd pad) _) as nc eqn:Enc.
  remember (gcm_encrypt _ _ _ _) as e eqn:Ee.
  intros [= <- <- <-]. split; [|reflexivity].
  exists (fst nc), (next_header st now r), hl, ml, (fst pad).
  split; [subst nc; apply urandom_length|]. split; [exact Ehl|]. split; [exact Eml|].
  split; [apply json_roundtrip|].
  cbv zeta. unfold beacon, message_key. replace (S s - 1)%nat with s by lia.
  rewrite <- Hc, <- Ee. reflexivity.
Qed.

Lemma S2_encrypt_advances st now r m :
  fst (fst (S2.encrypt st now r m)) = S2_advanced st.
Proof.
  rewrite S2_encrypt_eq. cbv zeta.
  destruct (to_bytes4 (len m)); [|reflexivity].
  destruct (to_bytes4 _); [|reflexivity].
  destruct (_ >? _); reflexivity.
Qed.

Lemma send_all2_honest k msgs : forall s st r pkts,
  S2.chain_key st = chain_at k s ->
  S2.step st = Z.of_nat s ->
  send_all2 st r msgs = map Ok pkts ->
  honest_from k s (map snd msgs) pkts.
Proof.
  induction msgs as [|[now m] msgs IH]; intros s st r pkts Hc Hs H.
  - destruct pkts; [exact I | discriminate].
  - cbn [send_all2] in H.
    destruct (S2.encrypt st now r m) as [[st1 r1] res] eqn:E.
    destruct pkts as [|p pkts]; [discriminate|].
    cbn [map] in H. injection H as H1 H2. subst res.
    destruct (S2_encrypt_honest k s _ _ _ _ Hc Hs E) as [Hh ->].
    cbn [map honest_from]. split; [exact Hh|].
    apply (IH (S s) (S2_advanced st) r1); [| cbn; lia | exact H2].
    cbn. now rewrite Hc.
Qed.

(** What the receiver gets out of an honest package. *)
Lemma honest_packet_opens k t m pkg :
  honest_packet k t m pkg ->
  44 <= len pkg /\
  firstn 16 pkg = beacon k t /\
  R2._unpack (V2.trial_decrypt (message_key k t) (skipn 16 pkg)) = Ok m.
Proof.
  intros (nonce & header & hl & ml & pad & Hn & Hhl & Hml & Hj & ->).
  set (key := HKDF (message_key k t) V2.AES_KEY_SIZE None V2.HKDF_INFO).
  set (content := hl ++ header ++ ml ++ m ++ pad).
  cbv zeta.
  pose proof (gcm_tag_length key nonce None content) as Htag.
  assert (Hb : length (beacon k t) = 16%nat) by (apply hkdf_length; lia).
  destruct (to_bytes4_spec _ Hhl) as (Lhl & Ihl & _).
  destruct (to_bytes4_spec _ Hml) as (Lml & Iml & _).
  split; [|split].
  - rewrite !len_app. unfold len. rewrite Hb, Hn, Htag. lia.
  - rewrite firstn_app, firstn_all2 by lia. rewrite Hb. cbn [Nat.sub firstn]. apply app_nil_r.
  - rewrite skipn_app, skipn_all2 by lia. rewrite Hb. cbn [Nat.sub skipn app].
    unfold V2.trial_decrypt. fold key.
    rewrite (@slice_head nonce) by (unfold len; rewrite Hn; reflexivity).
    rewrite (@slice_mid nonce) by (unfold len; rewrite ?Hn, ?Htag; reflexivity).
    replace (skipn (V2.NONCE_SIZE + V2.TAG_SIZE) (nonce ++ snd (gcm_encrypt key nonce None content)
                                                   ++ fst (gcm_encrypt key nonce None content)))
      with (fst (gcm_encrypt key nonce None content)).
    2:{ change (V2.NONCE_SIZE + V2.TAG_SIZE)%nat with 28%nat.
        assert (H28 : length (nonce ++ snd (gcm_encrypt key nonce None content)) = 28%nat)
          by (rewrite length_app, Hn, Htag; reflexivity).
        rewrite app_assoc, skipn_app, H28, skipn_all2 by lia. reflexivity. }
    rewrite gcm_roundtrip. subst content. unfold R2._unpack.
    rewrite (@slice_head hl (header ++ ml ++ m ++ pad) 4)
      by (unfold len; rewrite Lhl; reflexivity).
    rewrite Ihl.
    rewrite (@slice_mid hl header (ml ++ m ++ pad) 4 (4 + len header))
      by (unfold len; rewrite ?Lhl; lia).
    rewrite Hj.
    replace (hl ++ header ++ ml ++ m ++ pad) with ((hl ++ header) ++ ml ++ m ++ pad)
      by (now rewrite <- app_assoc).
    rewrite (@slice_mid (hl ++ header) ml (m ++ pad) (4 + len header) (4 + len header + 4))
      by (rewrite ?len_app; unfold len; rewrite ?Lhl, ?Lml; lia).
    rewrite Iml.
    replace ((hl ++ header) ++ ml ++ m ++ pad) with (((hl ++ header) ++ ml) ++ m ++ pad)
      by (now rewrite <- !app_assoc).
    rewrite (@slice_mid ((hl ++ header) ++ ml) m pad (4 + len header + 4)
                        (4 + len header + 4 + len m))
      by (rewrite ?len_app; unfold len; rewrite ?Lhl, ?Lml; lia).
    reflexivity.
Qed.
End V2Packets.

(** * Round trips *)

Section V1RoundTrip.
Context {L : Lib} {HL : Laws L}.

Lemma S1_encrypt_eq st r m a :
  S1.encrypt st r m a =
  let mk := msg_key_of (S1.chain_key st) in
  let salt := urandom r V1.SALT_SIZE in
  let nc := urandom (snd salt) V1.NONCE_SIZE in
  let e := gcm_encrypt (HKDF mk V1.AES_KEY_SIZE (Some (fst salt)) V1.HKDF_INFO) (fst nc) a m in
  (({| S1.chain_key := next_chain (S1.chain_key st); S1.step := S1.step st + 1 |}, snd nc),
   fst salt ++ fst nc ++ fst e ++ snd e).
Proof.
  unfold S1.encrypt, S1._advance, V1.encrypt_message, urandom. cbv zeta. cbn [fst snd].
  destruct (gcm_encrypt _ _ _ _) as [ct tag]. reflexivity.
Qed.

Lemma V1_decrypt_message_roundtrip mk salt nonce a m :
  length salt = 16%nat -> length nonce = 12%nat ->
  let e := gcm_encrypt (HKDF mk V1.AES_KEY_SIZE (Some salt) V1.HKDF_INFO) nonce a m in
  V1.decrypt_message mk (salt ++ nonce ++ fst e ++ snd e) a = Ok m.
Proof.
  intros Hs Hn e.
  pose proof (gcm_tag_length (HKDF mk V1.AES_KEY_SIZE (Some salt) V1.HKDF_INFO) nonce a m)
    as Htag. fold e in Htag.
  set (pkg := salt ++ nonce ++ fst e ++ snd e).
  assert (Hlen : len pkg = 44 + len (fst e)).
  { subst pkg. rewrite !len_app. unfold len. rewrite Hs, Hn, Htag. lia. }
  unfold V1.decrypt_message.
  replace (len pkg <? Z.of_nat (V1.SALT_SIZE + V1.NONCE_SIZE + V1.TAG_SIZE)) with false
    by (symmetry; apply Z.ltb_ge; cbn; unfold len in *; lia).
  change (Z.of_nat V1.SALT_SIZE) with 16.
  change (Z.of_nat (V1.SALT_SIZE + V1.NONCE_SIZE)) with 28.
  change (Z.of_nat V1.TAG_SIZE) with 16.
  rewrite Hlen.
  assert (E1 : slice pkg 0 16 = salt)
    by (apply slice_head; unfold len; rewrite Hs; reflexivity).
  assert (E2 : slice pkg 16 28 = nonce)
    by (apply slice_mid; unfold len; rewrite ?Hs, ?Hn; reflexivity).
  assert (E3 : slice pkg 28 (44 + len (fst e) - 16) = fst e).
  { subst pkg. rewrite app_assoc.
    apply slice_mid; rewrite ?len_app; unfold len; rewrite ?Hs, ?Hn; lia. }
  assert (E4 : slice pkg (44 + len (fst e) - 16) (44 + len (fst e)) = snd e).
  { subst pkg. rewrite !app_assoc.
    apply slice_last; rewrite ?len_app; unfold len; rewrite ?Hs, ?Hn, ?Htag; lia. }
  rewrite E1, E2, E3, E4. subst e. rewrite gcm_roundtrip. reflexivity.
Qed.

Lemma V1_in_order msgs : forall ck s r,
  0 <= s ->
  aads_agree s msgs ->
  recv_all1 {| R1.chain_key := ck; R1.step := s; R1.skipped_keys := [] |}
            (combine (send_all1 {| S1.chain_key := ck; S1.step := s |} r msgs) (map snd msgs))
  = map (fun ma => Ok (fst ma)) msgs.
Proof.
  induction msgs as [|[m a] msgs IH]; intros ck s r Hs Ha; [reflexivity|].
  destruct Ha as [Ha Hrest].
  cbn [send_all1]. rewrite S1_encrypt_eq. cbv zeta. cbn [S1.chain_key S1.step].
  set (salt := urandom r V1.SALT_SIZE). set (nc := urandom (snd salt) V1.NONCE_SIZE).
  cbn [map combine snd fst recv_all1].
  set (st := {| R1.chain_key := ck; R1.step := s; R1.skipped_keys := [] |}).
  assert (Ht : R1.target_of st a = s + 1).
  { unfold R1.target_of. destruct Ha as [-> | ->]; reflexivity. }
  assert (Hwf : wf1 st).
  { unfold wf1, st. cbn. split; [intros j []|]. split; [constructor|].
    unfold dict_len, V1.MAX_STORED_KEYS. cbn. lia. }
  match goal with |- context [R1.decrypt st ?p a] => set (pkg := p) end.
  destruct (@R1_decrypt_catch_up L st pkg a Hwf) as (st' & E & H1 & H2 & H3 & _).
  { rewrite Ht. cbn. lia. }
  { rewrite Ht. cbn. unfold V1.MAX_SKIP_RANGE. lia. }
  { rewrite Ht. cbn. unfold V1.MAX_STORED_KEYS. lia. }
  rewrite E. rewrite Ht in *. cbn [R1.step R1.chain_key R1.skipped_keys st] in *.
  replace (Z.to_nat (s + 1 - s)) with 1%nat in * by lia.
  cbn [Nat.sub chain_at length Nat.add] in *.
  subst pkg. rewrite V1_decrypt_message_roundtrip
    by (subst salt nc; apply urandom_length).
  f_equal.
  assert (Est : st' = {| R1.chain_key := next_chain ck; R1.step := s + 1;
                         R1.skipped_keys := [] |}).
  { destruct st' as [c' s' sk']. cbn in H1, H2, H3. subst c' s'.
    destruct sk'; [reflexivity | discriminate]. }
  rewrite Est. apply IH; [lia | exact Hrest].
Qed.
End V1RoundTrip.

Section V2RoundTrip.
Context {L : Lib} {HL : Laws L}.

Lemma next2_invariant s js t :
  NoDup js -> (forall j, In j js -> 1 <= j <= s)%nat ->
  In t (js ++ seq (S s) R2.MAX_SKIP) ->
  NoDup (snd (next2 s js t)) /\
  (forall j, In j (snd (next2 s js t)) -> 1 <= j <= fst (next2 s js t))%nat.
Proof.
  intros ND Hr Hin. unfold next2. destruct (in_dec Nat.eq_dec t js) as [Hj|Hj]; cbn [fst snd].
  - split.
    + clear -ND. induction js as [|a js IH]; [constructor|].
      inversion ND; subst. cbn. destruct (Nat.eq_dec t a); [auto|].
      constructor; [|auto]. intro H. apply in_remove in H. tauto.
    + intros j H. apply in_remove in H. apply Hr. tauto.
  - apply in_app_or in Hin. destruct Hin as [Hin|Hin]; [contradiction|].
    apply in_seq in Hin. split.
    + apply NoDup_app; [assumption | apply seq_NoDup |].
      intros j H1 H2. apply in_seq in H2. specialize (Hr j H1). lia.
    + intros j H. apply in_app_or in H. destruct H as [H|H].
      * specialize (Hr j H). lia.
      * apply in_seq in H. lia.
Qed.

Lemma window_collision_free k bound s js :
  collision_free k bound ->
  NoDup js -> (forall j, In j js -> 1 <= j <= s)%nat ->
  (s + R2.MAX_SKIP <= bound)%nat ->
  NoDup (map (beacon k) (js ++ seq (S s) R2.MAX_SKIP)).
Proof.
  intros Hcf ND Hr Hb. apply (@NoDup_map_sub _ _ (beacon k) (seq 1 bound) _ Hcf).
  - apply NoDup_app; [assumption | apply seq_NoDup |].
    intros j H1 H2. apply in_seq in H2. specialize (Hr j H1). lia.
  - intros j H. apply in_seq. apply in_app_or in H. destruct H as [H|H].
    + specialize (Hr j H). lia.
    + apply in_seq in H. lia.
Qed.

(** Delivery in any deliverable order returns each plaintext. *)
Lemma recv_all2_deliverable root k bound (msg pkt : nat -> bytes) todo : forall s js,
  collision_free k bound ->
  (forall t, In t todo -> honest_packet k t (msg t) (pkt t)) ->
  NoDup js -> (forall j, In j js -> 1 <= j <= s)%nat ->
  deliverable bound s js todo ->
  recv_all2 (synced root k s js) (map pkt todo) = map (fun t => Ok (msg t)) todo.
Proof.
  induction todo as [|t todo IH]; intros s js Hcf Hh ND Hr Hd; [reflexivity|].
  destruct Hd as (Hin & Hb & Hd).
  destruct (honest_packet_opens (Hh t (or_introl eq_refl))) as (Hlen & Hbeacon & Hopen).
  cbn [map recv_all2].
  rewrite (@R2_decrypt_synced L root k s js t (pkt t)); auto.
  2:{ eapply window_collision_free; eauto. }
  2:{ intros j Hj. specialize (Hr j Hj). lia. }
  rewrite Hopen. f_equal.
  destruct (next2_invariant t ND Hr Hin) as (ND' & Hr').
  unfold next2 in *. destruct (in_dec Nat.eq_dec t js); cbn [fst snd] in *;
    apply IH; auto; intros u Hu; apply Hh; now right.
Qed.

Lemma honest_from_nth k ms : forall s pkts,
  honest_from k s ms pkts ->
  length pkts = length ms /\
  forall i, (i < length ms)%nat -> honest_packet k (s + i + 1) (nth i ms []) (nth i pkts []).
Proof.
  induction ms as [|m ms IH]; intros s [|p pkts] H; try contradiction.
  - split; [reflexivity | intros i Hi; cbn in Hi; lia].
  - destruct H as [H1 H2]. destruct (IH _ _ H2) as [E Hn]. split; [cbn; now rewrite E|].
    intros [|i] Hi; cbn [nth].
    + replace (s + 0 + 1)%nat with (S s) by lia. exact H1.
    + replace (s + S i + 1)%nat with (S s + i + 1)%nat by lia. apply Hn. cbn in Hi. lia.
Qed.

Lemma map_nth_seq (A : Type) (l : list A) d :
  map (fun t => nth (t - 1) l d) (seq 1 (length l)) = l.
Proof.
  induction l as [|a l IH]; [reflexivity|].
  cbn [length seq map]. cbn [Nat.sub nth]. f_equal.
  rewrite <- seq_shift, map_map. rewrite <- IH at 2.
  apply map_ext_in. intros t Ht. apply in_seq in Ht.
  replace (S t - 1)%nat with (S (t - 1)) by lia. reflexivity.
Qed.

Lemma deliverable_in_order bound n : forall s,
  (s + n + R2.MAX_SKIP <= bound + 1)%nat ->
  deliverable bound s [] (seq (S s) n).
Proof.
  induction n as [|n IH]; intros s Hb; [exact I|].
  cbn [seq deliverable]. split; [|split].
  - cbn [app]. apply in_seq. unfold R2.MAX_SKIP. lia.
  - lia.
  - unfold next2. cbn [in_dec fst snd app]. replace (S s - s - 1)%nat with 0%nat by lia.
    cbn [seq]. apply IH. lia.
Qed.

Lemma deliverable_any_order n todo : forall s js,
  (n <= R2.MAX_SKIP)%nat -> (s <= n)%nat ->
  NoDup todo ->
  (forall t, In t todo -> (1 <= t <= n)%nat /\ (In t js \/ (s < t)%nat)) ->
  (forall j, In j js -> 1 <= j <= s)%nat ->
  deliverable (n + R2.MAX_SKIP) s js todo.
Proof.
  induction todo as [|t todo IH]; intros s js Hn Hs ND Ht Hr; [exact I|].
  inversion ND as [|? ? Hnt ND']; subst.
  destruct (Ht t (or_introl eq_refl)) as (Htn & Hcase).
  assert (Hin : In t (js ++ seq (S s) R2.MAX_SKIP)).
  { apply in_or_app. destruct Hcase as [H|H]; [now left | right].
    apply in_seq. unfold R2.MAX_SKIP in *. lia. }
  cbn [deliverable]. split; [exact Hin|]. split; [lia|].
  unfold next2. destruct (in_dec Nat.eq_dec t js) as [Hj|Hj]; cbn [fst snd].
  - apply IH; auto.
    + intros u Hu. destruct (Ht u (or_intror Hu)) as (H1 & H2). split; [exact H1|].
      destruct H2 as [H2|H2]; [left | now right].
      apply in_in_remove; [|assumption]. intros ->. contradiction.
    + intros j H. apply in_remove in H. apply Hr. tauto.
  - destruct Hcase as [H|Hlt]; [contradiction|].
    apply IH; auto; try lia.
    + intros u Hu. destruct (Ht u (or_intror Hu)) as (H1 & H2). split; [exact H1|].
      assert (u <> t) by (intros ->; contradiction).
      destruct H2 as [H2|H2]; [left; apply in_or_app; now left|].
      destruct (Nat.lt_ge_cases u t) as [H3|H3]; [left | right; lia].
      apply in_or_app. right. apply in_seq. lia.
    + intros j H. apply in_app_or in H. destruct H as [H|H].
      * specialize (Hr j H). lia.
      * apply in_seq in H. lia.
Qed.
End V2RoundTrip.

(** * The reference library obeys the laws *)

Lemma bxor_involutive k c : Ref.bxor k (Ref.bxor k c) = c.
Proof.
  unfold Ref.bxor. rewrite Byte.to_bits_of_bits.
  rewrite <- (Byte.of_bits_to_bits c) at 2.
  destruct (Byte.to_bits k) as (k0 & k1 & k2 & k3 & k4 & k5 & k6 & k7).
  destruct (Byte.to_bits c) as (c0 & c1 & c2 & c3 & c4 & c5 & c6 & c7).
  cbn [Ref.xor_bits]. rewrite <- !xorb_assoc, !xorb_nilpotent, !xorb_false_l. reflexivity.
Qed.

Lemma xor_with_length chunk : forall ks, length (Ref.xor_with ks chunk) = length chunk.
Proof. induction chunk as [|d r IH]; intro ks; cbn; [reflexivity | now rewrite IH]. Qed.

Lemma xor_with_involutive chunk : forall ks,
  Ref.xor_with ks (Ref.xor_with ks chunk) = chunk.
Proof.
  induction chunk as [|d r IH]; intro ks; cbn; [reflexivity|].
  now rewrite bxor_involutive, IH.
Qed.

Lemma ctr_xor_nil fuel rk nonce i : Ref.ctr_xor fuel rk nonce i [] = [].
Proof. destruct fuel; reflexivity. Qed.

Lemma skipn_shorter (A : Type) (n : nat) (l : list A) :
  l <> [] -> (length (skipn (S n) l) < length l)%nat.
Proof.
  intro H. rewrite length_skipn. destruct l; [contradiction | cbn; lia].
Qed.

Lemma ctr_xor_length fuel : forall rk nonce i data,
  (length data <= fuel)%nat -> length (Ref.ctr_xor fuel rk nonce i data) = length data.
Proof.
  induction fuel as [|fuel IH]; intros rk nonce i data Hl.
  - destruct data; [reflexivity | cbn in Hl; lia].
  - destruct data as [|d data]; [reflexivity|].
    cbn [Ref.ctr_xor]. rewrite length_app, xor_with_length, IH.
    + rewrite <- length_app, firstn_skipn. reflexivity.
    + pose proof (@skipn_shorter _ 15 (d :: data)) as H. cbn [length] in *.
      assert (d :: data <> []) by discriminate. specialize (H H0). lia.
Qed.

Lemma ctr_xor_involutive fuel : forall fuel' rk nonce i data,
  (length data <= fuel)%nat -> (length data <= fuel')%nat ->
  Ref.ctr_xor fuel' rk nonce i (Ref.ctr_xor fuel rk nonce i data) = data.
Proof.
  induction fuel as [|fuel IH]; intros fuel' rk nonce i data Hl Hl'.
  - destruct data; [apply ctr_xor_nil | cbn in Hl; lia].
  - destruct data as [|d data]; [apply ctr_xor_nil|].
    destruct fuel' as [|fuel']; [cbn in Hl'; lia|].
    cbn [Ref.ctr_xor].
    set (ks := Ref.cols_bytes (Ref.aes_block rk (Ref.ctr_block nonce i))).
    set (A := Ref.xor_with ks (firstn 16 (d :: data))).
    set (R := Ref.ctr_xor fuel rk nonce (i + 1)%uint63 (skipn 16 (d :: data))).
    assert (HA : length A = length (firstn 16 (d :: data))) by apply xor_with_length.
    assert (Hne : A ++ R = hd x00 A :: tl (A ++ R)).
    { subst A. cbn. reflexivity. }
    assert (Hsk : (length (skipn 16 (d :: data)) < length (d :: data))%nat)
      by (apply skipn_shorter; discriminate).
    assert (E : firstn 16 (A ++ R) = A /\ skipn 16 (A ++ R) = R).
    { destruct (Nat.le_gt_cases 16 (length (d :: data))) as [Hge|Hlt].
      - rewrite length_firstn, Nat.min_l in HA by assumption.
        rewrite firstn_app, skipn_app, HA, firstn_all2, skipn_all2 by lia.
        cbn [Nat.sub firstn skipn]. now rewrite app_nil_r.
      - rewrite length_firstn, Nat.min_r in HA by lia.
        assert (HR : R = []).
        { subst R. rewrite skipn_all2 by lia. apply ctr_xor_nil. }
        rewrite HR, app_nil_r, firstn_all2, skipn_all2 by lia. auto. }
    rewrite Hne. rewrite <- Hne. destruct E as [E1 E2]. rewrite E1, E2.
    subst A R. rewrite xor_with_involutive, IH by (cbn [length] in *; lia).
    apply firstn_skipn.
Qed.

Lemma bytes_eqb_refl x : bytes_eqb x x = true.
Proof. now apply bytes_eqb_eq. Qed.

Lemma word_bytes_length x : length (Ref.word_bytes x) = 4%nat.
Proof. reflexivity. Qed.

Lemma cols_bytes_length s : length (Ref.cols_bytes s) = 16%nat.
Proof. destruct s as [[[a b0] c] d]. reflexivity. Qed.

Lemma sha256_length m : length (Ref.sha256 m) = 32%nat.
Proof.
  unfold Ref.sha256.
  destruct (Ref.absorb _ _ _) as [[[[[[[a b0] c] d] e] f] g] h]. reflexivity.
Qed.

Lemma hmac_length key msg : length (Ref.hmac key msg) = 32%nat.
Proof. apply sha256_length. Qed.

Lemma ref_hkdf_length m n s c : (n <= 32)%nat -> length (Ref.hkdf m n s c) = n.
Proof.
  intro Hn. unfold Ref.hkdf. rewrite length_firstn. apply Nat.min_l.
  destruct n as [|n]; [lia|].
  replace ((S n + 31) / 32)%nat with 1%nat.
  - cbn [Ref.hkdf_expand]. rewrite length_app, hmac_length. lia.
  - apply Nat.div_unique with (r := n); lia.
Qed.

(** ** The header that [json.dumps] writes is read back by [json.loads] *)

(** A test that holds of 0 to 15 holds of every hexadecimal digit value. *)
Lemma below_16 (P : N -> bool) :
  forallb P (map N.of_nat (seq 0 16)) = true -> forall v, (v < 16)%N -> P v = true.
Proof.
  intros H v Hv. rewrite forallb_forall in H. apply H.
  apply in_map_iff. exists (N.to_nat v). split; [apply N2Nat.id | apply in_seq; lia].
Qed.

Lemma hexdig_value n :
  (n < 16)%N -> Byte.to_N (hexdig n) = (if n <? 10 then 48 + n else 87 + n)%N.
Proof.
  intro H. apply N.eqb_eq.
  apply (@below_16 (fun v => Byte.to_N (hexdig v) =? (if v <? 10 then 48 + v else 87 + v))%N);
    [reflexivity | exact H].
Qed.

Lemma hexdig_decimal d : (d < 10)%N -> Byte.to_N (hexdig d) = (48 + d)%N.
Proof.
  intro H. rewrite hexdig_value by lia. apply N.ltb_lt in H. now rewrite H.
Qed.

Lemma xdigit_hexdig n : (n < 16)%N -> Ref.xdigit (Byte.to_N (hexdig n)) = Some n.
Proof.
  intro H.
  pose proof (@below_16 (fun v => match Ref.xdigit (Byte.to_N (hexdig v)) with
                                 | Some w => (w =? v)%N
                                 | None => false
                                 end) eq_refl n H) as E.
  cbv beta in E. destruct (Ref.xdigit (Byte.to_N (hexdig n))) as [w|]; [|discriminate].
  apply N.eqb_eq in E. now subst w.
Qed.

Lemma hexdig_ascii n : (n < 16)%N -> (Byte.to_N (hexdig n) < 128)%N.
Proof. intro H. rewrite hexdig_value by assumption. destruct (n <? 10)%N; lia. Qed.

Lemma to_N_byte_of_Z c : (c < 256)%N -> Byte.to_N (byte_of_Z (Z.of_N c)) = c.
Proof.
  intro H. unfold byte_of_Z.
  rewrite Z.mod_small by lia. rewrite N2Z.id.
  destruct (Byte.of_N c) as [b|] eqn:E.
  - now apply Byte.to_of_N.
  - apply Byte.of_N_None_iff in E. lia.
Qed.

Lemma is_ascii_app x y : is_ascii x -> is_ascii y -> is_ascii (x ++ y).
Proof. intros Hx Hy. apply Forall_app. split; assumption. Qed.

Lemma u_escape_ascii n : is_ascii (u_escape n).
Proof.
  unfold u_escape. apply is_ascii_app; [repeat constructor|].
  repeat constructor; apply hexdig_ascii; apply N.mod_lt; discriminate.
Qed.

Lemma json_escape_char_ascii c : is_ascii (json_escape_char c).
Proof.
  unfold json_escape_char.
  destruct (c =? 34)%N; [repeat constructor|].
  destruct (c =? 92)%N; [repeat constructor|].
  destruct (c =? 10)%N; [repeat constructor|].
  destruct (c =? 13)%N; [repeat constructor|].
  destruct (c =? 9)%N; [repeat constructor|].
  destruct (c =? 8)%N; [repeat constructor|].
  destruct (c =? 12)%N; [repeat constructor|].
  destruct ((32 <=? c) && (c <=? 126))%N eqn:E.
  - apply andb_true_iff in E. destruct E as [E1 E2].
    apply N.leb_le in E1, E2. repeat constructor.
    rewrite to_N_byte_of_Z; lia.
  - destruct (c <? 65536)%N; [apply u_escape_ascii|].
    apply is_ascii_app; apply u_escape_ascii.
Qed.

Lemma json_dumps_str_ascii s : is_ascii (json_dumps_str s).
Proof.
  unfold json_dumps_str. apply is_ascii_app; [repeat constructor|].
  apply is_ascii_app; [|repeat constructor].
  induction s as [|c s IH]; [constructor|].
  cbn [flat_map]. apply is_ascii_app; [apply json_escape_char_ascii | exact IH].
Qed.

Lemma is_digit_cases c :
  is_digit c ->
  (c = 48 \/ c = 49 \/ c = 50 \/ c = 51 \/ c = 52 \/ c = 53 \/ c = 54 \/ c = 55
   \/ c = 56 \/ c = 57)%N.
Proof. unfold is_digit. lia. Qed.

Lemma dec_digits_are_digits fuel : forall n acc,
  Forall (fun c => is_digit (Byte.to_N c)) acc ->
  Forall (fun c => is_digit (Byte.to_N c)) (dec_digits fuel n acc).
Proof.
  induction fuel as [|fuel IH]; intros n acc Hacc; [exact Hacc|].
  cbn [dec_digits].
  assert (Hd : is_digit (Byte.to_N (hexdig (n mod 10)))).
  { rewrite hexdig_decimal by (apply N.mod_lt; discriminate).
    assert (n mod 10 < 10)%N by (apply N.mod_lt; discriminate). unfold is_digit.
    generalize dependent (n mod 10)%N. intros. lia. }
  destruct (n <? 10)%N; [constructor; assumption|].
  apply IH. constructor; assumption.
Qed.

(** The decimal digits of a positive number start with a digit from 1 to 9. *)
Lemma dec_digits_leading fuel : forall n acc,
  (0 < n)%N -> (n < 2 ^ N.of_nat fuel)%N ->
  exists d ds, dec_digits fuel n acc = d :: ds ++ acc /\
               (49 <= Byte.to_N d <= 57)%N /\
               Forall (fun c => is_digit (Byte.to_N c)) ds.
Proof.
  induction fuel as [|fuel IH]; intros n acc Hpos Hn; [cbn in Hn; lia|].
  cbn [dec_digits].
  assert (Hm : (n mod 10 < 10)%N) by (apply N.mod_lt; discriminate).
  pose proof (hexdig_decimal Hm) as Hd.
  assert (Hq : n = (10 * (n / 10) + n mod 10)%N) by (apply N.div_mod; discriminate).
  destruct (n <? 10)%N eqn:E.
  - apply N.ltb_lt in E. exists (hexdig (n mod 10)), []. split; [reflexivity|].
    split; [|constructor]. rewrite Hd, N.mod_small by assumption. lia.
  - apply N.ltb_ge in E.
    destruct (IH (n / 10)%N (hexdig (n mod 10) :: acc)) as (d & ds & E1 & E2 & E3).
    + generalize dependent (n mod 10)%N. generalize dependent (n / 10)%N. intros. lia.
    + rewrite Nat2N.inj_succ, N.pow_succ_r' in Hn.
      generalize dependent (n mod 10)%N. generalize dependent (n / 10)%N. intros. lia.
    + exists d, (ds ++ [hexdig (n mod 10)]). rewrite E1, <- app_assoc. split; [reflexivity|].
      split; [exact E2|]. apply Forall_app. split; [exact E3|].
      constructor; [|constructor].
      unfold is_digit. rewrite Hd. generalize dependent (n mod 10)%N. intros. lia.
Qed.

Lemma pos_lt_pow_size p : (N.pos p < 2 ^ N.of_nat (Pos.size_nat p))%N.
Proof.
  induction p as [p IH|p IH|]; cbn [Pos.size_nat];
    rewrite ?Nat2N.inj_succ, ?N.pow_succ_r'; [| |reflexivity];
    generalize dependent (2 ^ N.of_nat (Pos.size_nat p))%N; intros; lia.
Qed.

(** [str(n)]: an optional minus sign, then ["0"] or a digit from 1 to 9 and
    further digits. *)
Lemma json_dumps_int_shape n :
  exists sign d ds,
    map Byte.to_N (json_dumps_int n) = sign ++ d :: ds /\
    (sign = [] \/ sign = [45%N]) /\
    ((d = 48%N /\ ds = []) \/ (49 <= d <= 57)%N) /\
    Forall is_digit ds.
Proof.
  assert (Hpos : forall p, exists d ds,
               map Byte.to_N (dec_digits (N.size_nat (N.pos p)) (N.pos p) []) = d :: ds /\
               (49 <= d <= 57)%N /\ Forall is_digit ds).
  { intro p.
    destruct (@dec_digits_leading (N.size_nat (N.pos p)) (N.pos p) []) as (d & ds & E & Hd & Hds);
      [lia | apply pos_lt_pow_size|].
    exists (Byte.to_N d), (map Byte.to_N ds). rewrite E, app_nil_r. split; [reflexivity|].
    split; [exact Hd|]. apply Forall_forall. intros c Hc. apply in_map_iff in Hc.
    destruct Hc as (b & <- & Hb). rewrite Forall_forall in Hds. now apply Hds. }
  destruct n as [|p|p].
  - exists [], 48%N, []. repeat split; auto.
  - destruct (Hpos p) as (d & ds & E & Hd & Hds).
    exists [], d, ds. unfold json_dumps_int. rewrite E. repeat split; auto.
  - destruct (Hpos p) as (d & ds & E & Hd & Hds).
    exists [45%N], d, ds. unfold json_dumps_int. rewrite map_app, E. repeat split; auto.
Qed.

Lemma json_dumps_int_ascii n : is_ascii (json_dumps_int n).
Proof.
  destruct (json_dumps_int_shape n) as (sign & d & ds & E & Hs & Hd & Hds).
  unfold is_ascii. apply Forall_forall. intros c Hc.
  assert (Hin : In (Byte.to_N c) (sign ++ d :: ds)) by (rewrite <- E; now apply in_map).
  apply in_app_or in Hin. destruct Hin as [Hin|[<-|Hin]].
  - destruct Hs as [->| ->]; [destruct Hin|]. destruct Hin as [<-|[]]. lia.
  - destruct Hd as [[-> _]|Hd]; lia.
  - rewrite Forall_forall in Hds. specialize (Hds _ Hin). unfold is_digit in Hds. lia.
Qed.

Lemma header_bytes_ascii sid n t i : is_ascii (V2.header_bytes sid n t i).
Proof.
  unfold V2.header_bytes.
  repeat (apply is_ascii_app;
          [first [apply json_dumps_str_ascii | apply json_dumps_int_ascii
                 | repeat constructor]|]).
  repeat constructor.
Qed.

Lemma utf8_strict_ascii (x : bytes) :
  is_ascii x -> Ref.utf8_strict (map Byte.to_N x) = Some (map Byte.to_N x).
Proof.
  induction 1 as [|c x Hc _ IH]; [reflexivity|].
  cbn [map Ref.utf8_strict]. apply N.ltb_lt in Hc. rewrite Hc, IH. reflexivity.
Qed.

(** One escaped character is read back as one or two code units. *)
Lemma scan_string_u_escape n tail :
  exists u, Ref.scan_string (map Byte.to_N (u_escape n) ++ tail)
            = Ref.push u (Ref.scan_string tail).
Proof.
  unfold u_escape. rewrite map_app, <- app_assoc.
  change (map Byte.to_N (lit "\u")) with [92; 117]%N. cbn [map app].
  cbn [Ref.scan_string N.eqb Pos.eqb]. unfold Ref.hex4.
  rewrite !xdigit_hexdig by (apply N.mod_lt; discriminate). eauto.
Qed.

Lemma scan_string_escape c tail :
  exists us, Ref.scan_string (map Byte.to_N (json_escape_char c) ++ tail)
             = fold_right Ref.push (Ref.scan_string tail) us.
Proof.
  unfold json_escape_char.
  destruct (c =? 34)%N eqn:E34; [exists [34%N]; reflexivity|].
  destruct (c =? 92)%N eqn:E92; [exists [92%N]; reflexivity|].
  destruct (c =? 10)%N; [exists [10%N]; reflexivity|].
  destruct (c =? 13)%N; [exists [13%N]; reflexivity|].
  destruct (c =? 9)%N; [exists [9%N]; reflexivity|].
  destruct (c =? 8)%N; [exists [8%N]; reflexivity|].
  destruct (c =? 12)%N; [exists [12%N]; reflexivity|].
  destruct ((32 <=? c) && (c <=? 126))%N eqn:E.
  - apply andb_true_iff in E. destruct E as [E1 E2]. apply N.leb_le in E1, E2.
    exists [c]. cbn [map app fold_right]. rewrite to_N_byte_of_Z by lia.
    cbn [Ref.scan_string]. rewrite E34, E92.
    replace (c <? 32)%N with false by (symmetry; apply N.ltb_ge; exact E1). reflexivity.
  - destruct (c <? 65536)%N.
    + destruct (scan_string_u_escape c tail) as [u Hu]. exists [u]. exact Hu.
    + rewrite map_app, <- app_assoc.
      destruct (scan_string_u_escape (55296 + (c - 65536) / 1024)
                  (map Byte.to_N (u_escape (56320 + (c - 65536) mod 1024)) ++ tail)) as [u Hu].
      destruct (scan_string_u_escape (56320 + (c - 65536) mod 1024) tail) as [v Hv].
      exists [u; v]. rewrite Hu, Hv. reflexivity.
Qed.

Lemma fold_push us : forall d rest,
  fold_right Ref.push (Some (d, rest)) us = Some (us ++ d, rest).
Proof. induction us as [|u us IH]; intros d rest; cbn; [|rewrite IH]; reflexivity. Qed.

Lemma scan_string_escaped s rest :
  exists d, Ref.scan_string (map Byte.to_N (flat_map json_escape_char s) ++ 34%N :: rest)
            = Some (d, rest).
Proof.
  induction s as [|c s [d IH]]; [exists []; reflexivity|].
  cbn [flat_map]. rewrite map_app, <- app_assoc.
  destruct (scan_string_escape c
              (map Byte.to_N (flat_map json_escape_char s) ++ 34%N :: rest)) as [us Hus].
  rewrite Hus, IH, fold_push. eauto.
Qed.

(** A dumped string, as a value. *)
Lemma scan_value_str f s rest :
  Ref.scan_value (S f) (map Byte.to_N (json_dumps_str s) ++ rest) = Some (None, rest).
Proof.
  unfold json_dumps_str. rewrite !map_app, <- !app_assoc.
  cbn [map app]. change (Byte.to_N x22) with 34%N.
  cbn [Ref.scan_value N.eqb Pos.eqb].
  destruct (scan_string_escaped s rest) as [d ->]. reflexivity.
Qed.

Lemma is_dig_digit c : is_digit c -> Ref.is_dig c = true.
Proof.
  unfold is_digit, Ref.is_dig. intro H. apply andb_true_iff. split; apply N.leb_le; lia.
Qed.

Lemma skip_digits_all ds c rest :
  Forall is_digit ds -> Ref.is_dig c = false ->
  Ref.skip_digits (ds ++ c :: rest) = c :: rest.
Proof.
  intros Hds Hc. induction Hds as [|d ds Hd _ IH]; cbn [app Ref.skip_digits].
  - now rewrite Hc.
  - now rewrite (is_dig_digit Hd).
Qed.

(** A dumped integer, as a value, before a comma or a closing brace. *)
Lemma scan_value_int f n c rest :
  c = 44%N \/ c = 125%N ->
  Ref.scan_value (S f) (map Byte.to_N (json_dumps_int n) ++ c :: rest)
  = Some (None, c :: rest).
Proof.
  intro Hc.
  assert (Hnd : Ref.is_dig c = false) by (destruct Hc as [-> | ->]; reflexivity).
  assert (Htail : Ref.scan_exp (Ref.scan_frac (c :: rest)) = c :: rest).
  { destruct Hc as [-> | ->]; destruct rest; reflexivity. }
  destruct (json_dumps_int_shape n) as (sign & d & ds & E & Hs & Hd & Hds).
  rewrite E, <- app_assoc. cbn [app].
  assert (Hd' : is_digit d) by (unfold is_digit; destruct Hd as [[-> _]|Hd]; lia).
  apply is_digit_cases in Hd'.
  assert (Hnumber : Ref.scan_number (d :: ds ++ c :: rest) = Some (c :: rest)).
  { unfold Ref.scan_number. cbv beta iota zeta. destruct Hd as [[-> ->]|Hd].
    - cbn [app N.eqb Pos.eqb]. now rewrite Htail.
    - replace (d =? 45)%N with false by (symmetry; apply N.eqb_neq; lia).
      replace (d =? 48)%N with false by (symmetry; apply N.eqb_neq; lia).
      replace ((49 <=? d) && (d <=? 57))%N with true
        by (symmetry; apply andb_true_iff; split; apply N.leb_le; lia).
      rewrite skip_digits_all by assumption. now rewrite Htail. }
  destruct Hs as [-> | ->]; cbn [app].
  - assert (Hatom : Ref.scan_atom (d :: ds ++ c :: rest) = Some (c :: rest)).
    { unfold Ref.scan_atom.
      repeat (destruct Hd' as [->|Hd']; [exact Hnumber|]). subst d. exact Hnumber. }
    repeat (destruct Hd' as [->|Hd'];
            [cbn [Ref.scan_value N.eqb Pos.eqb]; now rewrite Hatom|]).
    subst d. cbn [Ref.scan_value N.eqb Pos.eqb]. now rewrite Hatom.
  - assert (Hneg : Ref.scan_number (45%N :: d :: ds ++ c :: rest) = Some (c :: rest)).
    { rewrite <- Hnumber. unfold Ref.scan_number. cbv beta iota zeta.
      cbn [N.eqb Pos.eqb].
      replace (d =? 45)%N with false
        by (symmetry; apply N.eqb_neq; destruct Hd as [[-> _]|Hd]; lia).
      reflexivity. }
    assert (Hatom : Ref.scan_atom (45%N :: d :: ds ++ c :: rest) = Some (c :: rest)).
    { unfold Ref.scan_atom.
      repeat (destruct Hd' as [->|Hd']; [exact Hneg|]). subst d. exact Hneg. }
    cbn [Ref.scan_value N.eqb Pos.eqb]. now rewrite Hatom.
Qed.

Lemma skip_ws_str s rest :
  Ref.skip_ws (map Byte.to_N (json_dumps_str s) ++ rest)
  = map Byte.to_N (json_dumps_str s) ++ rest.
Proof. reflexivity. Qed.

Lemma skip_ws_int n rest :
  Ref.skip_ws (map Byte.to_N (json_dumps_int n) ++ rest)
  = map Byte.to_N (json_dumps_int n) ++ rest.
Proof.
  destruct (json_dumps_int_shape n) as (sign & d & ds & E & Hs & Hd & _).
  rewrite E, <- app_assoc.
  destruct Hs as [-> | ->]; [|reflexivity].
  cbn [app Ref.skip_ws]. unfold Ref.json_ws.
  replace (d =? 32)%N with false by (symmetry; apply N.eqb_neq; destruct Hd as [[-> _]|Hd]; lia).
  replace (d =? 9)%N with false by (symmetry; apply N.eqb_neq; destruct Hd as [[-> _]|Hd]; lia).
  replace (d =? 10)%N with false by (symmetry; apply N.eqb_neq; destruct Hd as [[-> _]|Hd]; lia).
  replace (d =? 13)%N with false by (symmetry; apply N.eqb_neq; destruct Hd as [[-> _]|Hd]; lia).
  reflexivity.
Qed.

(** One member of the header: a key, a colon, a blank and the value. *)
Lemma scan_members_last f k V out :
  header_key k ->
  Ref.scan_value (S f) (Ref.skip_ws (V ++ 125%N :: out)) = Some (None, 125%N :: out) ->
  Ref.scan_members (S (S f)) ([34; k; 34; 58; 32]%N ++ V ++ 125%N :: out)
  = Some ([[k]], out).
Proof.
  intros Hk Hv.
  assert (E : Ref.scan_members (S (S f)) ([34; k; 34; 58; 32]%N ++ V ++ 125%N :: out)
              = match Ref.scan_value (S f) (Ref.skip_ws (V ++ 125%N :: out)) with
                | None => None
                | Some (_, r3) =>
                    match Ref.skip_ws r3 with
                    | [] => None
                    | c4 :: r4 =>
                        if (c4 =? 125)%N then Some ([[k]], r4)
                        else if (c4 =? 44)%N then
                          match Ref.scan_members (S f) (Ref.skip_ws r4) with
                          | Some (ks, rest) => Some ([k] :: ks, rest)
                          | None => None
                          end
                        else None
                    end
                end).
  { destruct Hk as [->|[->|[->| ->]]]; reflexivity. }
  rewrite E, Hv. reflexivity.
Qed.

Lemma scan_members_more f k V rest ks out :
  header_key k ->
  Ref.scan_value (S f) (Ref.skip_ws (V ++ [44; 32; 34]%N ++ rest))
  = Some (None, [44; 32; 34]%N ++ rest) ->
  Ref.scan_members (S f) (34%N :: rest) = Some (ks, out) ->
  Ref.scan_members (S (S f)) ([34; k; 34; 58; 32]%N ++ V ++ [44; 32; 34]%N ++ rest)
  = Some ([k] :: ks, out).
Proof.
  intros Hk Hv Hm.
  assert (E : Ref.scan_members (S (S f)) ([34; k; 34; 58; 32]%N ++ V ++ [44; 32; 34]%N ++ rest)
              = match Ref.scan_value (S f) (Ref.skip_ws (V ++ [44; 32; 34]%N ++ rest)) with
                | None => None
                | Some (_, r3) =>
                    match Ref.skip_ws r3 with
                    | [] => None
                    | c4 :: r4 =>
                        if (c4 =? 125)%N then Some ([[k]], r4)
                        else if (c4 =? 44)%N then
                          match Ref.scan_members (S f) (Ref.skip_ws r4) with
                          | Some (ks, rest) => Some ([k] :: ks, rest)
                          | None => None
                          end
                        else None
                    end
                end).
  { destruct Hk as [->|[->|[->| ->]]]; reflexivity. }
  rewrite E, Hv.
  change (Ref.skip_ws ([44; 32; 34]%N ++ rest)) with (44%N :: 32%N :: 34%N :: rest).
  cbv beta iota.
  change (44 =? 125)%N with false. change (44 =? 44)%N with true. cbv beta iota.
  change (Ref.skip_ws (32%N :: 34%N :: rest)) with (34%N :: rest).
  rewrite Hm. reflexivity.
Qed.

Lemma header_bytes_text sid n t i :
  map Byte.to_N (V2.header_bytes sid n t i)
  = 123%N ::
    [34; 115; 34; 58; 32]%N ++ map Byte.to_N (json_dumps_str sid) ++ [44; 32; 34]%N ++
    [110; 34; 58; 32]%N ++ map Byte.to_N (json_dumps_int n) ++ [44; 32; 34]%N ++
    [116; 34; 58; 32]%N ++ map Byte.to_N (json_dumps_int t) ++ [44; 32; 34]%N ++
    [105; 34; 58; 32]%N ++ map Byte.to_N (json_dumps_str i) ++ [125%N].
Proof.
  unfold V2.header_bytes. rewrite !map_app. reflexivity.
Qed.

Lemma ref_loads_header sid n t i :
  Ref.loads (map Byte.to_N (V2.header_bytes sid n t i))
  = Some (Some [[115]; [110]; [116]; [105]]%N).
Proof.
  unfold Ref.loads.
  remember (2 * length (map Byte.to_N (V2.header_bytes sid n t i)) + 2)%nat as fuel eqn:Ef.
  assert (Hf : (6 <= fuel)%nat)
    by (subst fuel; rewrite header_bytes_text; cbn [length app]; lia).
  clear Ef. do 6 (destruct fuel as [|fuel]; [lia|]). clear Hf. rename fuel into f.
  rewrite header_bytes_text.
  set (Vs := map Byte.to_N (json_dumps_str sid)).
  set (Vn := map Byte.to_N (json_dumps_int n)).
  set (Vt := map Byte.to_N (json_dumps_int t)).
  set (Vi := map Byte.to_N (json_dumps_str i)).
  assert (M4 : Ref.scan_members (S (S f)) ([34; 105; 34; 58; 32]%N ++ Vi ++ [125%N])
               = Some ([[105%N]], [])).
  { apply scan_members_last; [unfold header_key; auto|].
    subst Vi. rewrite skip_ws_str. apply scan_value_str. }
  assert (M3 : Ref.scan_members (S (S (S f)))
                 ([34; 116; 34; 58; 32]%N ++ Vt ++ [44; 32; 34]%N ++
                  [105; 34; 58; 32]%N ++ Vi ++ [125%N])
               = Some ([[116]; [105]]%N, [])).
  { apply scan_members_more; [unfold header_key; auto | | exact M4].
    subst Vt. rewrite skip_ws_int. apply scan_value_int. now left. }
  assert (M2 : Ref.scan_members (S (S (S (S f))))
                 ([34; 110; 34; 58; 32]%N ++ Vn ++ [44; 32; 34]%N ++
                  [116; 34; 58; 32]%N ++ Vt ++ [44; 32; 34]%N ++
                  [105; 34; 58; 32]%N ++ Vi ++ [125%N])
               = Some ([[110]; [116]; [105]]%N, [])).
  { apply scan_members_more; [unfold header_key; auto | | exact M3].
    subst Vn. rewrite skip_ws_int. apply scan_value_int. now left. }
  assert (M1 : Ref.scan_members (S (S (S (S (S f)))))
                 ([34; 115; 34; 58; 32]%N ++ Vs ++ [44; 32; 34]%N ++
                  [110; 34; 58; 32]%N ++ Vn ++ [44; 32; 34]%N ++
                  [116; 34; 58; 32]%N ++ Vt ++ [44; 32; 34]%N ++
                  [105; 34; 58; 32]%N ++ Vi ++ [125%N])
               = Some ([[115]; [110]; [116]; [105]]%N, [])).
  { apply scan_members_more; [unfold header_key; auto | | exact M2].
    subst Vs. rewrite skip_ws_str. apply scan_value_str. }
  match goal with
  | |- context [Ref.scan_value ?F (Ref.skip_ws (123%N :: ?r))] =>
      change (Ref.scan_value F (Ref.skip_ws (123%N :: r)))
        with (match Ref.scan_members (S (S (S (S (S f))))) r with
              | Some (ks, rest) => Some (Some ks, rest)
              | None => None
              end)
  end.
  rewrite M1. reflexivity.
Qed.

Lemma ref_header_ok sid n t i : Ref.header_ok (V2.header_bytes sid n t i) = true.
Proof.
  unfold Ref.header_ok.
  rewrite utf8_strict_ascii by apply header_bytes_ascii.
  rewrite ref_loads_header. reflexivity.
Qed.

(** ** The scanner of [json.loads] does not run out of fuel *)

Lemma skip_ws_length s : (length (Ref.skip_ws s) <= length s)%nat.
Proof.
  induction s as [|c s IH]; [apply Nat.le_refl|].
  cbn [Ref.skip_ws]. destruct (Ref.json_ws c); cbn [length]; lia.
Qed.

Lemma skip_ws_cons s c r : Ref.skip_ws s = c :: r -> (length r < length s)%nat.
Proof.
  intro E. pose proof (skip_ws_length s) as H. rewrite E in H. cbn [length] in H. lia.
Qed.

Lemma push_length u o d r :
  Ref.push u o = Some (d, r) -> exists d', o = Some (d', r).
Proof. destruct o as [[d' r']|]; [|discriminate]. intros [= _ <-]. eauto. Qed.

Lemma scan_string_length s0 : forall d r,
  Ref.scan_string s0 = Some (d, r) -> (length r < length s0)%nat.
Proof.
  assert (H : forall n s d r, (length s <= n)%nat ->
                              Ref.scan_string s = Some (d, r) -> (length r < length s)%nat).
  { induction n as [|n IH]; intros s d r Hn.
    - destruct s; [discriminate | cbn in Hn; lia].
    - destruct s as [|c s]; [discriminate|].
      cbn [Ref.scan_string length] in *.
      destruct (c =? 34)%N; [intros [= _ <-]; lia|].
      destruct (c =? 92)%N.
      + destruct s as [|e s1]; [discriminate|].
        destruct (e =? 117)%N.
        * destruct s1 as [|h1 [|h2 [|h3 [|h4 s2]]]]; try discriminate.
          destruct (Ref.hex4 h1 h2 h3 h4); [|discriminate].
          intro H. apply push_length in H. destruct H as [d' H].
          apply IH in H; cbn [length] in *; lia.
        * destruct (Ref.unescape e); [|discriminate].
          intro H. apply push_length in H. destruct H as [d' H].
          apply IH in H; cbn [length] in *; lia.
      + destruct (c <? 32)%N; [discriminate|].
        intro H. apply push_length in H. destruct H as [d' H].
        apply IH in H; cbn [length] in *; lia. }
  intros d r. apply (H (length s0)). apply Nat.le_refl.
Qed.

Lemma skip_digits_length s : (length (Ref.skip_digits s) <= length s)%nat.
Proof.
  induction s as [|c s IH]; [apply Nat.le_refl|].
  cbn [Ref.skip_digits]. destruct (Ref.is_dig c); cbn [length]; lia.
Qed.

Lemma scan_frac_length s : (length (Ref.scan_frac s) <= length s)%nat.
Proof.
  destruct s as [|c [|d r]]; cbn [Ref.scan_frac]; try apply Nat.le_refl.
  destruct ((c =? 46)%N && Ref.is_dig d); [|apply Nat.le_refl].
  pose proof (skip_digits_length r). cbn [length]. lia.
Qed.

Lemma scan_exp_length s : (length (Ref.scan_exp s) <= length s)%nat.
Proof.
  destruct s as [|e r]; cbn [Ref.scan_exp]; [apply Nat.le_refl|].
  destruct ((e =? 101)%N || (e =? 69)%N); [|apply Nat.le_refl].
  destruct r as [|sg r']; [apply Nat.le_refl|].
  destruct ((sg =? 43)%N || (sg =? 45)%N).
  - destruct r' as [|d r2]; [apply Nat.le_refl|].
    destruct (Ref.is_dig d); [|apply Nat.le_refl].
    pose proof (skip_digits_length r2). cbn [length]. lia.
  - destruct (Ref.is_dig sg); [|apply Nat.le_refl].
    pose proof (skip_digits_length r'). cbn [length]. lia.
Qed.

Lemma scan_number_length s r :
  Ref.scan_number s = Some r -> (length r < length s)%nat.
Proof.
  assert (H : forall c t r, (if (c =? 48)%N then Some (Ref.scan_exp (Ref.scan_frac t))
                             else if ((49 <=? c) && (c <=? 57))%N
                                  then Some (Ref.scan_exp (Ref.scan_frac (Ref.skip_digits t)))
                                  else None) = Some r ->
                            (length r < length (c :: t))%nat).
  { intros c t r0.
    pose proof (scan_exp_length (Ref.scan_frac t)).
    pose proof (scan_frac_length t).
    pose proof (scan_exp_length (Ref.scan_frac (Ref.skip_digits t))).
    pose proof (scan_frac_length (Ref.skip_digits t)).
    pose proof (skip_digits_length t).
    destruct (c =? 48)%N; [intros [= <-]; cbn [length]; lia|].
    destruct ((49 <=? c) && (c <=? 57))%N; [|discriminate].
    intros [= <-]. cbn [length]. lia. }
  unfold Ref.scan_number. destruct s as [|c t]; [discriminate|].
  destruct (c =? 45)%N.
  - destruct t as [|c' t']; [discriminate|].
    intro E. apply H in E. cbn [length] in *. lia.
  - apply H.
Qed.

Lemma scan_atom_length s r :
  Ref.scan_atom s = Some r -> (length r < length s)%nat.
Proof.
  assert (H : forall p n, str_prefix p s = true -> p <> [] -> n = length p ->
                          (length (skipn n s) < length s)%nat).
  { intros p n Hp Hne ->. rewrite length_skipn.
    assert (Hl : (length p <= length s)%nat).
    { clear Hne. revert s Hp. induction p as [|c p IH]; intros s Hp; [cbn; lia|].
      destruct s as [|d s]; [discriminate|]. cbn [str_prefix] in Hp.
      apply andb_true_iff in Hp. destruct Hp as [_ Hp]. apply IH in Hp. cbn [length]. lia. }
    destruct p; [contradiction|]. cbn [length] in *. lia. }
  unfold Ref.scan_atom.
  destruct (str_prefix [110; 117; 108; 108]%N s) eqn:E1;
    [intros [= <-]; apply (H _ 4%nat E1); [discriminate | reflexivity]|].
  destruct (str_prefix [116; 114; 117; 101]%N s) eqn:E2;
    [intros [= <-]; apply (H _ 4%nat E2); [discriminate | reflexivity]|].
  destruct (str_prefix [102; 97; 108; 115; 101]%N s) eqn:E3;
    [intros [= <-]; apply (H _ 5%nat E3); [discriminate | reflexivity]|].
  destruct (str_prefix [78; 97; 78]%N s) eqn:E4;
    [intros [= <-]; apply (H _ 3%nat E4); [discriminate | reflexivity]|].
  destruct (str_prefix [73; 110; 102; 105; 110; 105; 116; 121]%N s) eqn:E5;
    [intros [= <-]; apply (H _ 8%nat E5); [discriminate | reflexivity]|].
  destruct (str_prefix [45; 73; 110; 102; 105; 110; 105; 116; 121]%N s) eqn:E6;
    [intros [= <-]; apply (H _ 9%nat E6); [discriminate | reflexivity]|].
  apply scan_number_length.
Qed.

Lemma scan_value_S f s :
  Ref.scan_value (S f) s
  = match s with
    | [] => None
    | c :: r =>
        if (c =? 34)%N then
          match Ref.scan_string r with
          | Some (_, rest) => Some (None, rest)
          | None => None
          end
        else if (c =? 123)%N then
          match Ref.skip_ws r with
          | [] => None
          | c1 :: r1 =>
              if (c1 =? 125)%N then Some (Some [], r1)
              else match Ref.scan_members f (c1 :: r1) with
                   | Some (ks, rest) => Some (Some ks, rest)
                   | None => None
                   end
          end
        else if (c =? 91)%N then
          match Ref.skip_ws r with
          | [] => None
          | c1 :: r1 =>
              if (c1 =? 93)%N then Some (None, r1)
              else match Ref.scan_elements f (c1 :: r1) with
                   | Some rest => Some (None, rest)
                   | None => None
                   end
          end
        else
          match Ref.scan_atom s with
          | Some rest => Some (None, rest)
          | None => None
          end
    end.
Proof. destruct s; reflexivity. Qed.

Lemma scan_members_S f s :
  Ref.scan_members (S f) s
  = match s with
    | [] => None
    | c :: r =>
        if (c =? 34)%N then
          match Ref.scan_string r with
          | None => None
          | Some (key, r1) =>
              match Ref.skip_ws r1 with
              | [] => None
              | c2 :: r2 =>
                  if (c2 =? 58)%N then
                    match Ref.scan_value f (Ref.skip_ws r2) with
                    | None => None
                    | Some (_, r3) =>
                        match Ref.skip_ws r3 with
                        | [] => None
                        | c4 :: r4 =>
                            if (c4 =? 125)%N then Some ([key], r4)
                            else if (c4 =? 44)%N then
                              match Ref.scan_members f (Ref.skip_ws r4) with
                              | Some (ks, rest) => Some (key :: ks, rest)
                              | None => None
                              end
                            else None
                        end
                    end
                  else None
              end
          end
        else None
    end.
Proof. reflexivity. Qed.

Lemma scan_elements_S f s :
  Ref.scan_elements (S f) s
  = match Ref.scan_value f s with
    | None => None
    | Some (_, r1) =>
        match Ref.skip_ws r1 with
        | [] => None
        | c :: r2 =>
            if (c =? 93)%N then Some r2
            else if (c =? 44)%N then Ref.scan_elements f (Ref.skip_ws r2)
            else None
        end
    end.
Proof. reflexivity. Qed.

(** What a scan leaves is shorter than what it was given. *)
Lemma scan_lengths f :
  (forall s v r, Ref.scan_value f s = Some (v, r) -> (length r < length s)%nat) /\
  (forall s ks r, Ref.scan_members f s = Some (ks, r) -> (length r < length s)%nat) /\
  (forall s r, Ref.scan_elements f s = Some r -> (length r < length s)%nat).
Proof.
  induction f as [|f (IHv & IHm & IHe)]; [repeat split; discriminate|].
  split; [|split].
  - intros s v r. rewrite scan_value_S.
    destruct s as [|c t]; [discriminate|].
    destruct (c =? 34)%N.
    { destruct (Ref.scan_string t) as [[d r']|] eqn:E; [|discriminate].
      intros [= _ <-]. apply scan_string_length in E. cbn [length]. lia. }
    destruct (c =? 123)%N.
    { destruct (Ref.skip_ws t) as [|c1 r1] eqn:E; [discriminate|].
      pose proof (skip_ws_length t) as Hl. rewrite E in Hl.
      destruct (c1 =? 125)%N; [intros [= _ <-]; cbn [length] in *; lia|].
      destruct (Ref.scan_members f (c1 :: r1)) as [[ks r']|] eqn:E'; [|discriminate].
      intros [= _ <-]. apply IHm in E'. cbn [length] in *. lia. }
    destruct (c =? 91)%N.
    { destruct (Ref.skip_ws t) as [|c1 r1] eqn:E; [discriminate|].
      pose proof (skip_ws_length t) as Hl. rewrite E in Hl.
      destruct (c1 =? 93)%N; [intros [= _ <-]; cbn [length] in *; lia|].
      destruct (Ref.scan_elements f (c1 :: r1)) as [r'|] eqn:E'; [|discriminate].
      intros [= _ <-]. apply IHe in E'. cbn [length] in *. lia. }
    destruct (Ref.scan_atom (c :: t)) as [r'|] eqn:E; [|discriminate].
    intros [= _ <-]. now apply scan_atom_length in E.
  - intros s ks r. rewrite scan_members_S.
    destruct s as [|c t]; [discriminate|].
    destruct (c =? 34)%N; [|discriminate].
    destruct (Ref.scan_string t) as [[key r1]|] eqn:E1; [|discriminate].
    apply scan_string_length in E1.
    destruct (Ref.skip_ws r1) as [|c2 r2] eqn:E2; [discriminate|].
    apply skip_ws_cons in E2.
    destruct (c2 =? 58)%N; [|discriminate].
    pose proof (skip_ws_length r2) as E3.
    destruct (Ref.scan_value f (Ref.skip_ws r2)) as [[v r3]|] eqn:E4; [|discriminate].
    apply IHv in E4.
    destruct (Ref.skip_ws r3) as [|c4 r4] eqn:E5; [discriminate|].
    apply skip_ws_cons in E5.
    destruct (c4 =? 125)%N; [intros [= _ <-]; cbn [length]; lia|].
    destruct (c4 =? 44)%N; [|discriminate].
    pose proof (skip_ws_length r4) as E6.
    destruct (Ref.scan_members f (Ref.skip_ws r4)) as [[ks' r']|] eqn:E7; [|discriminate].
    apply IHm in E7. intros [= _ <-]. cbn [length]. lia.
  - intros s r. rewrite scan_elements_S.
    destruct (Ref.scan_value f s) as [[v r1]|] eqn:E1; [|discriminate].
    apply IHv in E1.
    destruct (Ref.skip_ws r1) as [|c r2] eqn:E2; [discriminate|].
    apply skip_ws_cons in E2.
    destruct (c =? 93)%N; [intros [= <-]; lia|].
    destruct (c =? 44)%N; [|discriminate].
    pose proof (skip_ws_length r2) as E3. intro E4. apply IHe in E4. lia.
Qed.

(** Two units of fuel per character, and one or two more, are as good as
    any larger amount. *)
Lemma scan_stable f :
  (forall s, (2 * length s + 1 <= f)%nat -> Ref.scan_value (S f) s = Ref.scan_value f s) /\
  (forall s, (2 * length s + 1 <= f)%nat -> Ref.scan_members (S f) s = Ref.scan_members f s) /\
  (forall s, (2 * length s + 2 <= f)%nat ->
             Ref.scan_elements (S f) s = Ref.scan_elements f s).
Proof.
  induction f as [|f (IHv & IHm & IHe)]; [repeat split; intros s H; lia|].
  destruct (scan_lengths f) as (Lv & Lm & Le).
  split; [|split].
  - intros s Hs. destruct s as [|c t]; [reflexivity|]. cbn [length] in Hs.
    rewrite (scan_value_S (S f) (c :: t)), (scan_value_S f (c :: t)).
    destruct (c =? 34)%N; [reflexivity|].
    pose proof (skip_ws_length t) as Hl.
    destruct (c =? 123)%N.
    { destruct (Ref.skip_ws t) as [|c1 r1]; [reflexivity|].
      destruct (c1 =? 125)%N; [reflexivity|].
      rewrite IHm by (cbn [length] in *; lia). reflexivity. }
    destruct (c =? 91)%N; [|reflexivity].
    destruct (Ref.skip_ws t) as [|c1 r1]; [reflexivity|].
    destruct (c1 =? 93)%N; [reflexivity|].
    rewrite IHe by (cbn [length] in *; lia). reflexivity.
  - intros s Hs. destruct s as [|c t]; [reflexivity|]. cbn [length] in Hs.
    rewrite (scan_members_S (S f) (c :: t)), (scan_members_S f (c :: t)).
    destruct (c =? 34)%N; [|reflexivity].
    destruct (Ref.scan_string t) as [[key r1]|] eqn:E1; [|reflexivity].
    apply scan_string_length in E1.
    destruct (Ref.skip_ws r1) as [|c2 r2] eqn:E2; [reflexivity|].
    apply skip_ws_cons in E2.
    destruct (c2 =? 58)%N; [|reflexivity].
    pose proof (skip_ws_length r2) as E3.
    rewrite IHv by lia.
    destruct (Ref.scan_value f (Ref.skip_ws r2)) as [[v r3]|] eqn:E4; [|reflexivity].
    apply Lv in E4.
    destruct (Ref.skip_ws r3) as [|c4 r4] eqn:E5; [reflexivity|].
    apply skip_ws_cons in E5.
    destruct (c4 =? 125)%N; [reflexivity|].
    destruct (c4 =? 44)%N; [|reflexivity].
    pose proof (skip_ws_length r4) as E6.
    rewrite IHm by lia. reflexivity.
  - intros s Hs.
    rewrite (scan_elements_S (S f) s), (scan_elements_S f s).
    rewrite IHv by lia.
    destruct (Ref.scan_value f s) as [[v r1]|] eqn:E1; [|reflexivity].
    apply Lv in E1.
    destruct (Ref.skip_ws r1) as [|c r2] eqn:E2; [reflexivity|].
    apply skip_ws_cons in E2.
    destruct (c =? 93)%N; [reflexivity|].
    destruct (c =? 44)%N; [|reflexivity].
    pose proof (skip_ws_length r2) as E3.
    rewrite IHe by lia. reflexivity.
Qed.

(** [loads] gives its value the fuel of two units per character; any
    larger amount gives the same result. *)
Lemma ref_loads_fuel s f :
  (2 * length s + 2 <= f)%nat ->
  Ref.scan_value f (Ref.skip_ws s) = Ref.scan_value (2 * length s + 2) (Ref.skip_ws s).
Proof.
  intro H. replace f with ((f - (2 * length s + 2)) + (2 * length s + 2))%nat by lia.
  generalize (f - (2 * length s + 2))%nat as d. clear H f.
  induction d as [|d IH]; [reflexivity|].
  cbn [Nat.add]. rewrite (proj1 (scan_stable _)); [exact IH|].
  pose proof (skip_ws_length s). lia.
Qed.

Lemma pylib_laws : Laws pylib.
Proof.
  constructor.
  - intros. apply ref_hkdf_length. assumption.
  - intros. apply cols_bytes_length.
  - intros. apply ctr_xor_length. reflexivity.
  - intros k n a p. cbn [gcm_decrypt gcm_encrypt pylib Ref.gcm_enc fst snd].
    unfold Ref.gcm_dec. rewrite bytes_eqb_refl, ctr_xor_length by reflexivity.
    f_equal. apply ctr_xor_involutive; reflexivity.
  - intros. apply ref_header_ok.
Qed.

(** * Which plaintexts the V2 sender accepts *)

Section V2Fits.
Context {L : Lib}.

Lemma content_length hl header ml pt :
  length hl = 4%nat -> length ml = 4%nat ->
  len (hl ++ header ++ ml ++ pt) = 8 + len header + len pt.
Proof. intros H1 H2. rewrite !len_app. unfold len. rewrite H1, H2. lia. Qed.

Lemma S2_encrypt_fits st now r pt :
  fits st now r pt = true ->
  exists pkg, S2.encrypt st now r pt = ((S2_advanced st, rng_after st now r pt), Ok pkg).
Proof.
  unfold fits. rewrite !andb_true_iff, !Z.ltb_lt, Z.leb_le. intros [[H1 H2] H3].
  rewrite S2_encrypt_eq. cbv zeta.
  destruct (@to_bytes4_some (len pt)) as [ml Eml]; [split; [unfold len; lia | exact H1]|].
  destruct (@to_bytes4_some (len (next_header st now r))) as [hl Ehl];
    [split; [unfold len; lia | exact H2]|].
  rewrite Eml, Ehl.
  destruct (to_bytes4_spec _ Eml) as (Lml & _). destruct (to_bytes4_spec _ Ehl) as (Lhl & _).
  rewrite (@content_length hl (next_header st now r) ml pt Lhl Lml), (gtb_false H3).
  eexists. unfold rng_after. reflexivity.
Qed.

Lemma send_all2_all_fit msgs : forall st r,
  all_fit st r msgs = true ->
  send_all2 st r msgs = map Ok (oks (send_all2 st r msgs)).
Proof.
  induction msgs as [|[now m] msgs IH]; intros st r H; [reflexivity|].
  cbn [all_fit] in H. apply andb_true_iff in H. destruct H as [H1 H2].
  destruct (S2_encrypt_fits _ _ _ _ H1) as [pkg E].
  cbn [send_all2]. rewrite E. cbn [oks map]. f_equal. apply IH. exact H2.
Qed.

Lemma send_all2_length msgs : forall st r, length (send_all2 st r msgs) = length msgs.
Proof.
  induction msgs as [|[now m] msgs IH]; intros st r; [reflexivity|].
  cbn [send_all2]. destruct (S2.encrypt st now r m) as [[st1 r1] res]. cbn. now rewrite IH.
Qed.
End V2Fits.

(** * Decidable distinctness of beacons *)

Lemma mem_bytes_In x l : In x l -> mem_bytes x l = true.
Proof.
  induction l as [|y r IH]; cbn; [tauto|]. intros [->|H].
  - now rewrite bytes_eqb_refl.
  - rewrite IH by assumption. apply orb_true_r.
Qed.

Lemma distinct_bytes_NoDup l : distinct_bytes l = true -> NoDup l.
Proof.
  induction l as [|x r IH]; cbn; [constructor|].
  rewrite andb_true_iff, negb_true_iff. intros [H1 H2]. constructor; [|auto].
  intro H. apply mem_bytes_In in H. congruence.
Qed.

Section BeaconList.
Context {L : Lib}.

Lemma beacon_list_spec k n : forall s,
  beacon_list n (chain_at k s) = map (beacon k) (seq (S s) n).
Proof.
  induction n as [|n IH]; intro s; [reflexivity|].
  cbn [beacon_list seq map]. unfold beacon at 1, message_key.
  replace (S s - 1)%nat with s by lia. f_equal. apply (IH (S s)).
Qed.

Lemma collision_free_decide k n :
  distinct_bytes (beacon_list n k) = true -> collision_free k n.
Proof.
  intro H. unfold collision_free. rewrite <- (beacon_list_spec k n 0).
  now apply distinct_bytes_NoDup.
Qed.

Lemma collision_free_le k n m : (n <= m)%nat -> collision_free k m -> collision_free k n.
Proof.
  intros Hle H. unfold collision_free in *.
  replace m with (n + (m - n))%nat in H by lia.
  rewrite seq_app, map_app in H. eapply NoDup_app_remove_r. exact H.
Qed.
End BeaconList.

(** * The beacons of the reference library *)

Lemma pylib_collision_free : collision_free (L := pylib) k0 103.
Proof. apply collision_free_decide. vm_compute. reflexivity. Qed.

(** * Monotone steps and consumed keys *)

Section Generic.
Context {L : Lib}.

Lemma R2_catch_up_mono n : forall st m blob,
  R2.step st <= R2.step (fst (R2.catch_up n st m blob)).
Proof.
  induction n as [|n IH]; intros st m blob; [simpl; lia|].
  rewrite R2_catch_up_S. destruct (R2.step st <? m); [|simpl; lia].
  cbv zeta. destruct (R2.step st + 1 =? m); [cbn; lia|].
  eapply Z.le_trans; [|apply IH]. cbn. lia.
Qed.

Lemma R2_decrypt_step_mono st pkg : R2.step st <= R2.step (fst (R2.decrypt st pkg)).
Proof.
  unfold R2.decrypt.
  destruct (_ <? _); [cbn; lia|].
  destruct (dict_get bytes_eqb _ _) as [[mk m]|]; [|cbn; lia].
  destruct (dict_get Z.eqb _ _); [cbn; lia|].
  pose proof (R2_catch_up_mono (Z.to_nat (m - R2.step st)) st m (skipn 16 pkg)) as H.
  destruct (R2.catch_up _ _ _ _) as [st1 [r|]]; exact H.
Qed.

Lemma run1_app st calls1 calls2 : run1 st (calls1 ++ calls2) = run1 (run1 st calls1) calls2.
Proof.
  revert st. induction calls1 as [|[p a] calls1 IH]; intro st; [reflexivity|]. cbn. apply IH.
Qed.

Lemma run2_app st pkgs1 pkgs2 : run2 st (pkgs1 ++ pkgs2) = run2 (run2 st pkgs1) pkgs2.
Proof.
  revert st. induction pkgs1 as [|p pkgs1 IH]; intro st; [reflexivity|]. cbn. apply IH.
Qed.

Lemma run1_step_mono calls : forall st, R1.step st <= R1.step (run1 st calls).
Proof.
  induction calls as [|[p a] calls IH]; intro st; [cbn; lia|].
  cbn [run1]. eapply Z.le_trans; [apply (R1_decrypt_step_mono st p a) | apply IH].
Qed.

Lemma run2_step_mono pkgs : forall st, R2.step st <= R2.step (run2 st pkgs).
Proof.
  induction pkgs as [|p pkgs IH]; intro st; [cbn; lia|].
  cbn [run2]. eapply Z.le_trans; [apply (R2_decrypt_step_mono st p) | apply IH].
Qed.

(** When the Case B loop returns, it stands at the target step. *)
Lemma R2_catch_up_returns n : forall st m blob st1 r,
  R2.catch_up n st m blob = (st1, Some r) ->
  R2.step st < m /\ R2.step st1 = m /\
  R2.chain_key st1 = chain_at (R2.chain_key st) (Z.to_nat (m - R2.step st)).
Proof.
  induction n as [|n IH]; intros st m blob st1 r H; [discriminate|].
  rewrite R2_catch_up_S in H. destruct (R2.step st <? m) eqn:E1; [|discriminate].
  apply Z.ltb_lt in E1. cbv zeta in H.
  destruct (R2.step st + 1 =? m) eqn:E2.
  - apply Z.eqb_eq in E2. injection H as H _. subst st1. cbn.
    replace (Z.to_nat (m - R2.step st)) with 1%nat by lia. auto.
  - apply Z.eqb_neq in E2. apply IH in H. cbn in H. destruct H as (H1 & H2 & H3).
    split; [lia|]. split; [assumption|]. rewrite H3.
    replace (Z.to_nat (m - R2.step st)) with (S (Z.to_nat (m - (R2.step st + 1)))) by lia.
    apply chain_at_shift.
Qed.

Lemma R1_auth_failure st pkg aad st' :
  R1.decrypt st pkg aad = (st', Err AuthFailure) ->
  st' <> st /\
  ((exists mk, dict_get Z.eqb (R1.target_of st aad) (R1.skipped_keys st) = Some mk /\
               st' = R1.set_skipped st (dict_del Z.eqb (R1.target_of st aad)
                                                 (R1.skipped_keys st)))
   \/ (dict_get Z.eqb (R1.target_of st aad) (R1.skipped_keys st) = None /\
       R1.step st < R1.target_of st aad /\
       R1.step st' = R1.target_of st aad /\
       R1.chain_key st' = chain_at (R1.chain_key st)
                                   (Z.to_nat (R1.target_of st aad - R1.step st)))).
Proof.
  unfold R1.decrypt. set (t := R1.target_of st aad).
  destruct (dict_get Z.eqb t (R1.skipped_keys st)) as [mk|] eqn:Hget.
  - intros [= <- _]. split.
    + intro E. apply (f_equal (fun s => length (R1.skipped_keys s))) in E. cbn in E.
      pose proof (dict_del_length _ _ _ Hget). lia.
    + left. eauto.
  - destruct (t >? R1.step st) eqn:E1; [|discriminate]. apply Z.gtb_lt in E1.
    destruct (_ >? V1.MAX_SKIP_RANGE); [discriminate|].
    destruct (_ >? V1.MAX_STORED_KEYS); [discriminate|].
    destruct (@R1_catch_up_core L (Z.to_nat (t - R1.step st)) st t None) as (H1 & H2 & _);
      [lia|].
    destruct (R1.catch_up _ _ _ _) as [st1 [mk|]]; [|discriminate].
    intros [= <- _]. cbn in H1, H2. split.
    + intro E. rewrite E in H1. lia.
    + right. auto with zarith.
Qed.

Lemma R2_auth_failure st pkg st' :
  R2.decrypt st pkg = (st', Err AuthFailure) ->
  st' <> st /\
  exists match_key match_seq,
    dict_get bytes_eqb (firstn 16 pkg) (R2.lookup_cache st) = Some (match_key, match_seq) /\
    ((exists mk, dict_get Z.eqb match_seq (R2.skipped_keys st) = Some mk /\
                 st' = R2._refresh_lookup_cache
                         (R2.set_skipped st (dict_del Z.eqb match_seq (R2.skipped_keys st))))
     \/ (dict_get Z.eqb match_seq (R2.skipped_keys st) = None /\
         R2.step st < match_seq /\
         R2.step st' = match_seq /\
         R2.chain_key st' = chain_at (R2.chain_key st) (Z.to_nat (match_seq - R2.step st)))).
Proof.
  unfold R2.decrypt. destruct (_ <? _); [discriminate|].
  destruct (dict_get bytes_eqb _ _) as [[mk m]|]; [|discriminate].
  destruct (dict_get Z.eqb m (R2.skipped_keys st)) as [mk'|] eqn:Hget.
  - intros [= <- _]. split.
    + intro E. apply (f_equal (fun s => length (R2.skipped_keys s))) in E. cbn in E.
      pose proof (dict_del_length _ _ _ Hget). lia.
    + exists mk, m. split; [reflexivity|]. left. eauto.
  - destruct (R2.catch_up _ _ _ _) as [st1 [r|]] eqn:E; [|discriminate].
    intros [= <- _]. apply R2_catch_up_returns in E. destruct E as (H1 & H2 & H3). split.
    + intro E. rewrite E in H2. lia.
    + exists mk, m. split; [reflexivity|]. right. auto.
Qed.
End Generic.

(** * Main theorems *)

Section MainTheorems.
Context {L : Lib}.

(** C7. The step counter of a receiver never decreases: along any sequence
    of [decrypt] calls, successful or not, the step after a longer run is at
    least the step after any shorter one, for V1 and for V2. *)
Theorem step_never_decreases :
  (forall st calls1 calls2,
      R1.step (run1 st calls1) <= R1.step (run1 st (calls1 ++ calls2))) /\
  (forall st pkgs1 pkgs2,
      R2.step (run2 st pkgs1) <= R2.step (run2 st (pkgs1 ++ pkgs2))).
Proof.
  split; intros.
  - rewrite run1_app. apply run1_step_mono.
  - rewrite run2_app. apply run2_step_mono.
Qed.

(** C4, as the code has it. On a reachable V1 receiver, a call whose target
    step [t] is beyond the current step [s] fails with [SkipTooLarge] when
    [t - s > MAX_SKIP_RANGE]; when [t - s <= MAX_SKIP_RANGE] and
    [len(skipped_keys) + (t - s) > MAX_STORED_KEYS] it fails with
    [SkipStoreOverflow]; either way the receiver is exactly as before. *)
Theorem v1_skip_guards st pkg aad :
  reachable1 st ->
  R1.target_of st aad > R1.step st ->
  (R1.target_of st aad - R1.step st > V1.MAX_SKIP_RANGE ->
   R1.decrypt st pkg aad = (st, Err SkipTooLarge)) /\
  (R1.target_of st aad - R1.step st <= V1.MAX_SKIP_RANGE ->
   dict_len (R1.skipped_keys st) + (R1.target_of st aad - R1.step st) > V1.MAX_STORED_KEYS ->
   R1.decrypt st pkg aad = (st, Err SkipStoreOverflow)).
Proof.
  intros Hr Ht. apply reachable1_wf in Hr. destruct Hr as (Hle & _ & _).
  assert (Hget : dict_get Z.eqb (R1.target_of st aad) (R1.skipped_keys st) = None)
    by (apply (dict_get_none_of_keys_le Hle); lia).
  split.
  - intro H1. unfold R1.decrypt. rewrite Hget, (gtb_true Ht), (gtb_true H1). reflexivity.
  - intros H1 H2. unfold R1.decrypt.
    rewrite Hget, (gtb_true Ht), (gtb_false H1), (gtb_true H2). reflexivity.
Qed.

Lemma V1_decrypt_message_cases key pkg aad :
  (len pkg < 44 /\ V1.decrypt_message key pkg aad = Err MalformedPacket) \/
  (44 <= len pkg /\
   (V1.decrypt_message key pkg aad = Err AuthFailure \/
    exists pt, V1.decrypt_message key pkg aad = Ok pt)).
Proof.
  unfold V1.decrypt_message.
  destruct (len pkg <? Z.of_nat (V1.SALT_SIZE + V1.NONCE_SIZE + V1.TAG_SIZE)) eqn:E.
  - apply Z.ltb_lt in E. cbn in E. left. split; [lia | reflexivity].
  - apply Z.ltb_ge in E. cbn in E. right. split; [lia|].
    destruct (gcm_decrypt _ _ _ _ _) as [pt|]; [right; eauto | left; reflexivity].
Qed.

(** A package that [decrypt] opened has at least the 44 bytes of salt, nonce
    and tag. *)
Lemma R1_decrypt_ok_length st pkg aad st' pt :
  R1.decrypt st pkg aad = (st', Ok pt) -> 44 <= len pkg.
Proof.
  assert (H : forall key, V1.decrypt_message key pkg aad = Ok pt -> 44 <= len pkg).
  { intros key E. destruct (V1_decrypt_message_cases key pkg aad) as [[_ E']|[Hl _]];
      [rewrite E in E'; discriminate | exact Hl]. }
  unfold R1.decrypt.
  destruct (dict_get Z.eqb (R1.target_of st aad) (R1.skipped_keys st)) as [mk|].
  - intros [= _ E]. now apply (H mk).
  - destruct (_ >? R1.step st); [|discriminate].
    destruct (_ >? V1.MAX_SKIP_RANGE); [discriminate|].
    destruct (_ >? V1.MAX_STORED_KEYS); [discriminate|].
    destruct (R1.catch_up _ _ _ _) as [st1 [mk|]]; [|discriminate].
    intros [= _ E]. now apply (H mk).
Qed.

(** C6, as the code has it. A V1 call whose target step is at or before the
    current step and has no saved key fails with [ReplayOrStale], leaving
    the receiver as it was and returning no plaintext.  On a reachable
    receiver, a package that was decrypted and is submitted again with its
    AAD meets one of two fates.  When the AAD names the step, the call fails
    with [ReplayOrStale] and the receiver stays as it is.  When the AAD
    names none, the receiver advances one step and tries the next message
    key: the call returns what [decrypt_message] returns under that key,
    which is [AuthFailure] unless the package carries a tag that is valid
    under the next key as well, and then it is a plaintext once more. *)
Theorem v1_replay_outcomes :
  (forall st pkg aad,
      R1.target_of st aad <= R1.step st ->
      dict_get Z.eqb (R1.target_of st aad) (R1.skipped_keys st) = None ->
      R1.decrypt st pkg aad = (st, Err ReplayOrStale)) /\
  (forall st pkg aad st' pt,
      reachable1 st ->
      R1.decrypt st pkg aad = (st', Ok pt) ->
      (forall n, R1.aad_seq aad = Some n ->
                 R1.decrypt st' pkg aad = (st', Err ReplayOrStale)) /\
      (R1.aad_seq aad = None ->
       exists st'',
         R1.decrypt st' pkg aad
         = (st'', V1.decrypt_message (msg_key_of (R1.chain_key st')) pkg aad) /\
         R1.step st'' = R1.step st' + 1 /\
         R1.chain_key st'' = next_chain (R1.chain_key st') /\
         (V1.decrypt_message (msg_key_of (R1.chain_key st')) pkg aad = Err AuthFailure \/
          exists pt', V1.decrypt_message (msg_key_of (R1.chain_key st')) pkg aad = Ok pt'))).
Proof.
  split; [apply R1_decrypt_stale|].
  intros st pkg aad st' pt Hr Hdec.
  pose proof (reachable1_wf Hr) as Hwf.
  assert (Hwf' : wf1 st') by (replace st' with (fst (R1.decrypt st pkg aad));
                              [now apply wf1_decrypt | now rewrite Hdec]).
  pose proof Hwf as (Hle & Hnd & Hlen). pose proof Hwf' as (Hle' & Hnd' & Hlen').
  split.
  - (* where the first call left the receiver *)
    intros n Hn.
    assert (Hpast : n <= R1.step st' /\ dict_get Z.eqb n (R1.skipped_keys st') = None).
    { unfold R1.decrypt in Hdec. rewrite (@R1_target_of_seq L st aad n Hn) in Hdec.
      destruct (dict_get Z.eqb n (R1.skipped_keys st)) as [mk|] eqn:Hget.
      - injection Hdec as <- _. cbn. split.
        + apply dict_get_In in Hget; [|apply Z_eqb_eq].
          assert (In n (keys (R1.skipped_keys st)))
            by (change n with (fst (n, mk)); now apply in_map).
          specialize (Hle n H). lia.
        + apply (@dict_get_None _ _ _ Z_eqb_eq). now apply dict_del_gone; [apply Z_eqb_eq|].
      - destruct (n >? R1.step st) eqn:E1; [|discriminate]. apply Z.gtb_lt in E1.
        destruct (_ >? V1.MAX_SKIP_RANGE); [discriminate|].
        destruct (_ >? V1.MAX_STORED_KEYS); [discriminate|].
        destruct (@R1_catch_up_core L (Z.to_nat (n - R1.step st)) st n None) as (H1 & _);
          [lia|].
        destruct (R1.catch_up _ _ _ _) as [st1 [mk|]]; [|discriminate].
        injection Hdec as <- _. cbn in H1. split; [lia|].
        apply (dict_get_none_of_keys_le Hle'). lia. }
    destruct Hpast as [H1 H2].
    apply R1_decrypt_stale; rewrite (@R1_target_of_seq L st' aad n Hn); auto.
  - intro Hseq.
    destruct (@R1_decrypt_catch_up L st' pkg aad Hwf') as (st2 & E & Hstep & Hck & _).
    + rewrite (@R1_target_of_default L st' aad Hseq). lia.
    + rewrite (@R1_target_of_default L st' aad Hseq). unfold V1.MAX_SKIP_RANGE. lia.
    + rewrite (@R1_target_of_default L st' aad Hseq). lia.
    + rewrite (@R1_target_of_default L st' aad Hseq) in E, Hstep, Hck.
      replace (Z.to_nat (R1.step st' + 1 - R1.step st')) with 1%nat in E, Hck by lia.
      cbn [Nat.sub chain_at] in E, Hck.
      exists st2. split; [exact E|]. split; [exact Hstep|]. split; [exact Hck|].
      pose proof (R1_decrypt_ok_length _ _ _ Hdec) as Hlen44.
      destruct (V1_decrypt_message_cases (msg_key_of (R1.chain_key st')) pkg aad)
        as [[Hl _]|[_ Hc]]; [lia | exact Hc].
Qed.

(** C5, as the code has it. A [decrypt] that ends in [AuthFailure] has
    already selected and consumed the key of its target step, in V1 and in
    V2: either a saved key was taken out of [skipped_keys] (and is not put
    back), or the chain was advanced, so the step counter stands at the
    target step and the chain key is the one of that step.  The receiver is
    never as it was before the call. *)
Theorem auth_failure_consumes_the_key :
  (forall st pkg aad st',
      R1.decrypt st pkg aad = (st', Err AuthFailure) ->
      st' <> st /\
      ((exists mk, dict_get Z.eqb (R1.target_of st aad) (R1.skipped_keys st) = Some mk /\
                   st' = R1.set_skipped st (dict_del Z.eqb (R1.target_of st aad)
                                                     (R1.skipped_keys st)))
       \/ (dict_get Z.eqb (R1.target_of st aad) (R1.skipped_keys st) = None /\
           R1.step st < R1.target_of st aad /\
           R1.step st' = R1.target_of st aad /\
           R1.chain_key st' = chain_at (R1.chain_key st)
                                       (Z.to_nat (R1.target_of st aad - R1.step st))))) /\
  (forall st pkg st',
      R2.decrypt st pkg = (st', Err AuthFailure) ->
      st' <> st /\
      exists match_key match_seq,
        dict_get bytes_eqb (firstn 16 pkg) (R2.lookup_cache st) = Some (match_key, match_seq) /\
        ((exists mk, dict_get Z.eqb match_seq (R2.skipped_keys st) = Some mk /\
                     st' = R2._refresh_lookup_cache
                             (R2.set_skipped st (dict_del Z.eqb match_seq (R2.skipped_keys st))))
         \/ (dict_get Z.eqb match_seq (R2.skipped_keys st) = None /\
             R2.step st < match_seq /\
             R2.step st' = match_seq /\
             R2.chain_key st' = chain_at (R2.chain_key st)
                                         (Z.to_nat (match_seq - R2.step st))))).
Proof.
  split; [apply R1_auth_failure | apply R2_auth_failure].
Qed.

Lemma lookahead_advance_keys n : forall st c,
  R2.lookahead n (R2.chain_key st) (R2.step st) c
  = fold_left set_entry (map entry_of (advance_keys n st)) c.
Proof.
  induction n as [|n IH]; intros st c; [reflexivity|].
  cbn [R2.lookahead advance_keys]. unfold R2._advance_chain. cbn [map fold_left].
  rewrite <- IH. reflexivity.
Qed.

(** C9. The shadow chain of [_refresh_lookup_cache] and the real chain give
    the same keys: the lookahead loop assigns to the cache, in order, exactly
    the cache lines of the keys that [_advance_chain] hands out from the same
    state, each under the step the real chain gives it; so a key found in a
    rebuilt cache is a saved key or, byte for byte, the key of the real chain
    for that step. *)
Theorem cached_keys_are_real_chain_keys :
  (forall st n c,
      R2.lookahead n (R2.chain_key st) (R2.step st) c
      = fold_left set_entry (map entry_of (advance_keys n st)) c) /\
  (forall st lid key seq,
      dict_get bytes_eqb lid (R2.lookup_cache (R2._refresh_lookup_cache st)) = Some (key, seq) ->
      In (seq, key) (R2.skipped_keys st) \/ In (key, seq) (advance_keys R2.MAX_SKIP st)).
Proof.
  split; [intros; apply lookahead_advance_keys|].
  intros st lid key seq H.
  unfold R2._refresh_lookup_cache in H. cbn [R2.lookup_cache R2.set_cache] in H.
  rewrite lookahead_advance_keys in H. apply fold_set_entry_get in H.
  destruct H as [H|H].
  - right. apply in_map_iff in H. destruct H as ([key' seq'] & E & Hin).
    unfold entry_of in E. cbn in E. now inversion E; subst.
  - left. rewrite index_skipped_fold in H. apply fold_set_entry_get in H.
    destruct H as [H|H]; [|discriminate].
    apply in_map_iff in H. destruct H as ([seq' key'] & E & Hin).
    cbn in E. now inversion E; subst.
Qed.
End MainTheorems.

Section MainTheoremsWithLaws.
Context {L : Lib} {HL : Laws L}.

Lemma recv_all2_in_order k sid r msgs pkts :
  send_all2 (S2.fresh k sid) r msgs = map Ok pkts ->
  collision_free k (length msgs + 99) ->
  recv_all2 (R2.fresh k) pkts = map (fun tm => Ok (snd tm)) msgs.
Proof.
  intros Hsend Hcf.
  assert (Hh : honest_from k 0 (map snd msgs) pkts)
    by (eapply send_all2_honest; eauto; reflexivity).
  destruct (honest_from_nth _ _ _ _ Hh) as [Hlen Hnth]. rewrite length_map in Hlen, Hnth.
  rewrite <- (map_nth_seq pkts []) at 1. rewrite Hlen, R2_fresh_synced.
  rewrite (@recv_all2_deliverable L HL k k (length msgs + 99)
             (fun t => nth (t - 1) (map snd msgs) [])); auto.
  - rewrite <- (map_map (fun t => nth (t - 1) (map snd msgs) []) Ok).
    rewrite <- (length_map snd msgs), map_nth_seq, map_map. reflexivity.
  - intros t Ht. apply in_seq in Ht.
    replace t with (0 + (t - 1) + 1)%nat at 1 by lia. apply Hnth. lia.
  - constructor.
  - intros j [].
  - apply deliverable_in_order. unfold R2.MAX_SKIP. lia.
Qed.

(** C10, as the code has it. No constructor looks at the length of the
    secret: for every byte string, of any length, each of the four
    constructors succeeds (never [BadInput]) and the ratchet starts at step 0
    on that very secret.  The ratchets so made work: what the V1 sender on
    [k] encrypts, the V1 receiver on [k] decrypts, and so do the V2 pair
    when the beacons of the receiver's first lookahead are distinct. *)
Theorem constructors_accept_any_secret (k : bytes) (sid : str) :
  (S1.init k = Ok (S1.fresh k) /\ S1.chain_key (S1.fresh k) = k /\ S1.step (S1.fresh k) = 0) /\
  (R1.init k = Ok (R1.fresh k) /\ R1.chain_key (R1.fresh k) = k /\ R1.step (R1.fresh k) = 0) /\
  (S2.init k sid = Ok (S2.fresh k sid) /\ S2.chain_key (S2.fresh k sid) = k /\
   S2.step (S2.fresh k sid) = 0) /\
  (R2.init k = Ok (R2.fresh k) /\ R2.chain_key (R2.fresh k) = k /\ R2.step (R2.fresh k) = 0) /\
  (forall r m,
      snd (R1.decrypt (R1.fresh k) (snd (S1.encrypt (S1.fresh k) r m None)) None) = Ok m) /\
  (forall now r m pkt,
      snd (S2.encrypt (S2.fresh k sid) now r m) = Ok pkt ->
      collision_free k R2.MAX_SKIP ->
      snd (R2.decrypt (R2.fresh k) pkt) = Ok m).
Proof.
  repeat (split; [repeat split|]); [|].
  - intros r m.
    pose proof (@V1_in_order L HL [(m, None)] k 0 r (Z.le_refl 0)) as H.
    cbn [send_all1 map snd combine recv_all1 fst aads_agree] in H.
    change {| S1.chain_key := k; S1.step := 0 |} with (S1.fresh k) in H.
    change {| R1.chain_key := k; R1.step := 0; R1.skipped_keys := [] |} with (R1.fresh k) in H.
    destruct (S1.encrypt (S1.fresh k) r m None) as [[st1 r1] pkg].
    cbn [snd combine recv_all1] in H |- *.
    destruct (R1.decrypt (R1.fresh k) pkg None) as [st2 res].
    cbn [snd]. specialize (H (conj (or_introl eq_refl) I)). now injection H.
  - intros now r m pkt Henc Hcf.
    pose proof (@recv_all2_in_order k sid r [(now, m)] [pkt]) as H.
    cbn [send_all2 map snd recv_all2 length] in H.
    destruct (S2.encrypt (S2.fresh k sid) now r m) as [[st1 r1] res].
    cbn [snd] in Henc. subst res.
    destruct (R2.decrypt (R2.fresh k) pkt) as [st2 res].
    cbn [snd]. specialize (H eq_refl Hcf). now injection H.
Qed.

(** C1, as the code has it. For every secret and every sequence of
    plaintexts, the receiver that decrypts the packages in the order they
    were made gets every plaintext back:
    in V1 when the AAD given to [encrypt] and to [decrypt] of the i-th
    message carries no readable ["seq:"] field or carries [seq:i];
    in V2 when every [encrypt] succeeded and no two steps within the
    receiver's lookahead share a beacon. *)
Theorem in_order_round_trip :
  (forall k r msgs,
      aads_agree 0 msgs ->
      recv_all1 (R1.fresh k) (combine (send_all1 (S1.fresh k) r msgs) (map snd msgs))
      = map (fun ma => Ok (fst ma)) msgs) /\
  (forall k sid r msgs pkts,
      send_all2 (S2.fresh k sid) r msgs = map Ok pkts ->
      collision_free k (length msgs + 99) ->
      recv_all2 (R2.fresh k) pkts = map (fun tm => Ok (snd tm)) msgs).
Proof.
  split.
  - intros k r msgs Ha. apply V1_in_order; [lia | exact Ha].
  - apply recv_all2_in_order.
Qed.

(** C2. For every secret, every sequence of at most [MAX_SKIP = 100]
    plaintexts that the V2 sender encrypted in order, and every permutation
    of them: the V2 receiver that decrypts the packages in the permuted order
    finds every beacon in its cache and returns, at each call, the plaintext
    of that package (the beacons of the first [n + 100] steps being
    distinct). *)
Theorem v2_any_order_round_trip k sid r msgs pkts order :
  send_all2 (S2.fresh k sid) r msgs = map Ok pkts ->
  (length msgs <= R2.MAX_SKIP)%nat ->
  Permutation order (seq 1 (length msgs)) ->
  collision_free k (length msgs + R2.MAX_SKIP) ->
  recv_all2 (R2.fresh k) (map (fun i => nth (i - 1) pkts []) order)
  = map (fun i => Ok (snd (nth (i - 1) msgs (0, [])))) order.
Proof.
  intros Hsend Hn Hperm Hcf.
  assert (Hh : honest_from k 0 (map snd msgs) pkts)
    by (eapply send_all2_honest; eauto; reflexivity).
  destruct (honest_from_nth _ _ _ _ Hh) as [Hlen Hnth]. rewrite length_map in Hlen, Hnth.
  assert (Hin : forall t, In t order -> (1 <= t <= length msgs)%nat).
  { intros t Ht. apply (Permutation_in _ Hperm) in Ht. apply in_seq in Ht. lia. }
  rewrite R2_fresh_synced.
  rewrite (@recv_all2_deliverable L HL k k (length msgs + R2.MAX_SKIP)
             (fun t => nth (t - 1) (map snd msgs) [])); auto.
  - apply map_ext. intro t. f_equal. change [] with (snd (0, @nil byte)) at 1.
    apply map_nth.
  - intros t Ht. specialize (Hin t Ht).
    replace t with (0 + (t - 1) + 1)%nat at 1 by lia. apply Hnth. lia.
  - constructor.
  - intros j [].
  - apply deliverable_any_order; auto; try lia.
    + eapply Permutation_NoDup; [apply Permutation_sym; exact Hperm | apply seq_NoDup].
    + intros t Ht. specialize (Hin t Ht). split; [lia | right; lia].
    + intros j [].
Qed.


(** A fresh V2 receiver whose first package is the one of step [i + 1] saves
    the [i] keys before it. *)
Lemma R2_first_packet_far_ahead k sid r msgs i :
  all_fit (S2.fresh k sid) r msgs = true ->
  (i < length msgs)%nat -> (i < R2.MAX_SKIP)%nat ->
  collision_free k R2.MAX_SKIP ->
  dict_len
    (R2.skipped_keys
       (fst (R2.decrypt (R2.fresh k)
                        (nth i (oks (send_all2 (S2.fresh k sid) r msgs)) []))))
  = Z.of_nat i.
Proof.
  intros Hfit Hi Hi' Hcf.
  pose proof (send_all2_all_fit msgs (S2.fresh k sid) r Hfit) as Hsend.
  assert (Hh : honest_from k 0 (map snd msgs) (oks (send_all2 (S2.fresh k sid) r msgs)))
    by (apply (@send_all2_honest L HL k msgs 0 (S2.fresh k sid) r _ eq_refl eq_refl Hsend)).
  destruct (honest_from_nth _ _ _ _ Hh) as [_ Hnth]. rewrite length_map in Hnth.
  destruct (honest_packet_opens (Hnth i Hi)) as (Hlen & Hb & _).
  rewrite R2_fresh_synced.
  rewrite (@R2_decrypt_synced L k k 0 [] (0 + i + 1)
             (nth i (oks (send_all2 (S2.fresh k sid) r msgs)) [])).
  - cbn [fst app]. destruct (in_dec Nat.eq_dec (0 + i + 1)%nat []) as [[]|_].
    change (R2.skipped_keys (synced k k (0 + i + 1) (seq 1 (0 + i + 1 - 0 - 1))))
      with (skipped_of k (seq 1 (0 + i + 1 - 0 - 1))).
    unfold dict_len, skipped_of. rewrite length_map, length_seq. lia.
  - apply (@window_collision_free L k R2.MAX_SKIP 0 []); auto.
    + constructor.
    + intros j [].
  - constructor.
  - intros j [].
  - exact Hlen.
  - exact Hb.
  - cbn [app]. apply in_seq. lia.
Qed.
End MainTheoremsWithLaws.

(** * The reference library against the published test vectors *)

Example sha256_abc :
  Ref.sha256 (lit "abc")
  = unhex "ba7816bf8f01cfea414140de5dae2223b00361a396177a9cb410ff61f20015ad".
Proof. vm_compute. reflexivity. Qed.

Example hkdf_rfc5869_case_1 :
  Ref.hkdf (repeat x0b 22) 42 (Some (unhex "000102030405060708090a0b0c"))
           (unhex "f0f1f2f3f4f5f6f7f8f9")
  = unhex "3cb25f25faacd57a90434f64d0362f2a2d2d0a90cf1a5a4c5db02d56ecc4c5bf34007208d5b887185865".
Proof. vm_compute. reflexivity. Qed.

Example aes256_fips197_c3 :
  Ref.cols_bytes
    (Ref.aes_block
       (Ref.key_schedule
          (unhex "000102030405060708090a0b0c0d0e0f101112131415161718191a1b1c1d1e1f"))
       (Ref.cols_of (unhex "00112233445566778899aabbccddeeff")))
  = unhex "8ea2b7ca516745bfeafc49904b496089".
Proof. vm_compute. reflexivity. Qed.

Example gcm_test_case_16 :
  Ref.gcm_enc
    (unhex "feffe9928665731c6d6a8f9467308308feffe9928665731c6d6a8f9467308308")
    (unhex "cafebabefacedbaddecaf888")
    (Some (unhex "feedfacedeadbeeffeedfacedeadbeefabaddad2"))
    (unhex "d9313225f88406e5a55909c5aff5269a86a7a9531534f7da2e4c303d8a318a721c3c0c95956809532fcf0e2449a6b525b16aedf5aa0de657ba637b39")
  = (unhex "522dc1f099567d07f47f37a32a84427d643a8cdcbfe5c0c97598a2bd2555d1aa8cb08e48590dbb3da7b08b1056828838c5f61e6393ba7a0abcc9f662",
     unhex "76fc6ece0f4e1768cddf8853bb2d551b").
Proof. vm_compute. reflexivity. Qed.

(** * Concrete runs: counterexamples and witnesses *)

#[local] Existing Instance pylib.

(** C1, counterexample. The sender encrypts ["hi"] with the AAD ["seq:0"]
    and the receiver decrypts that package with the same AAD: the receiver
    reads the target step 0 from the AAD and refuses ([ReplayOrStale]). *)
Lemma v1_seq0_aad_is_refused :
  recv_all1 (L := pylib) (R1.fresh k0)
    (combine (send_all1 (L := pylib) (S1.fresh k0) rng0 [(lit "hi", Some (lit "seq:0"))])
             [Some (lit "seq:0")])
  = [Err ReplayOrStale].
Proof. vm_compute. reflexivity. Qed.

Lemma in_order_round_trip_witness :
  recv_all1 (L := pylib) (R1.fresh k0)
    (combine (send_all1 (L := pylib) (S1.fresh k0) rng0 msgs_v1) (map snd msgs_v1))
  = [Ok (lit "hi"); Ok (lit "bye")] /\
  recv_all2 (L := pylib) (R2.fresh k0)
    (oks (send_all2 (L := pylib) (S2.fresh k0 user) rng0 msgs_v2))
  = [Ok (lit "hi"); Ok (lit "bye")].
Proof.
  split.
  - apply (proj1 (@in_order_round_trip pylib pylib_laws) k0 rng0 msgs_v1).
    split; [right; vm_compute; reflexivity | split; [left; reflexivity | exact I]].
  - apply (proj2 (@in_order_round_trip pylib pylib_laws) k0 user rng0 msgs_v2).
    + apply send_all2_all_fit. vm_compute. reflexivity.
    + apply (@collision_free_le pylib k0 _ 103); [cbn; lia | exact pylib_collision_free].
Defined.

Lemma v2_any_order_round_trip_witness :
  recv_all2 (L := pylib) (R2.fresh k0)
    (map (fun i => nth (i - 1) (oks (send_all2 (L := pylib) (S2.fresh k0 user) rng0 msgs3)) [])
         [3; 1; 2]%nat)
  = [Ok (lit "third"); Ok (lit "first"); Ok (lit "second")].
Proof.
  apply (@v2_any_order_round_trip pylib pylib_laws k0 user rng0 msgs3).
  - apply send_all2_all_fit. vm_compute. reflexivity.
  - cbn. unfold R2.MAX_SKIP. lia.
  - apply perm_trans with [1; 3; 2]%nat; [apply perm_swap | apply perm_skip, perm_swap].
  - exact pylib_collision_free.
Defined.



(** C4, counterexample. On a fresh receiver the AAD ["seq:5000"] asks for a
    skip of 5000: [len(skipped_keys) + 5000 > MAX_STORED_KEYS], yet the call
    fails with [SkipTooLarge], the guard that is tested first, and not with
    [SkipStoreOverflow]. *)
Lemma v1_far_skip_is_skip_too_large :
  R1.target_of (L := pylib) (R1.fresh k0) (Some (lit "seq:5000")) = 5000 /\
  dict_len (R1.skipped_keys (R1.fresh k0)) + (5000 - R1.step (R1.fresh k0))
  > V1.MAX_STORED_KEYS /\
  R1.decrypt (L := pylib) (R1.fresh k0) (repeat x00 60) (Some (lit "seq:5000"))
  = (R1.fresh k0, Err SkipTooLarge).
Proof. repeat split; vm_compute; reflexivity. Qed.

Lemma v1_skip_guards_witness :
  R1.decrypt (L := pylib) (R1.fresh k0) (repeat x00 60) (Some (lit "seq:1001|id:x"))
  = (R1.fresh k0, Err SkipTooLarge).
Proof.
  apply (@v1_skip_guards pylib (R1.fresh k0) (repeat x00 60) (Some (lit "seq:1001|id:x"))).
  - apply reach1_fresh.
  - vm_compute. reflexivity.
  - vm_compute. reflexivity.
Defined.

(** C5, counterexample. A fresh V1 receiver is given a package whose last
    byte was flipped in transit: the call fails with [AuthFailure], and the
    step counter has moved from 0 to 1. *)
Lemma v1_auth_failure_advances_the_step :
  snd (R1.decrypt (L := pylib) (R1.fresh k0) (corrupt pkg_hi) None) = Err AuthFailure /\
  R1.step (R1.fresh k0) = 0 /\
  R1.step (fst (R1.decrypt (L := pylib) (R1.fresh k0) (corrupt pkg_hi) None)) = 1.
Proof. repeat split; vm_compute; reflexivity. Qed.

Lemma auth_failure_consumes_the_key_witness :
  fst (R1.decrypt (L := pylib) (R1.fresh k0) (corrupt pkg_hi) None) <> R1.fresh k0 /\
  ((exists mk,
       dict_get Z.eqb (R1.target_of (L := pylib) (R1.fresh k0) None)
                (R1.skipped_keys (R1.fresh k0)) = Some mk /\
       fst (R1.decrypt (L := pylib) (R1.fresh k0) (corrupt pkg_hi) None)
       = R1.set_skipped (R1.fresh k0)
           (dict_del Z.eqb (R1.target_of (L := pylib) (R1.fresh k0) None)
                     (R1.skipped_keys (R1.fresh k0))))
   \/ (dict_get Z.eqb (R1.target_of (L := pylib) (R1.fresh k0) None)
                (R1.skipped_keys (R1.fresh k0)) = None /\
       R1.step (R1.fresh k0) < R1.target_of (L := pylib) (R1.fresh k0) None /\
       R1.step (fst (R1.decrypt (L := pylib) (R1.fresh k0) (corrupt pkg_hi) None))
       = R1.target_of (L := pylib) (R1.fresh k0) None /\
       R1.chain_key (fst (R1.decrypt (L := pylib) (R1.fresh k0) (corrupt pkg_hi) None))
       = chain_at (L := pylib) (R1.chain_key (R1.fresh k0))
           (Z.to_nat (R1.target_of (L := pylib) (R1.fresh k0) None - R1.step (R1.fresh k0))))).
Proof.
  apply (proj1 (@auth_failure_consumes_the_key pylib)
               (R1.fresh k0) (corrupt pkg_hi) None).
  vm_compute. reflexivity.
Defined.

(** C6, counterexample. The package [pkg_twice] carries a tag that is valid
    under the keys of step 1 and of step 2: a fresh receiver opens it, and
    opens it again when it is submitted a second time, each time with
    another plaintext.  Neither call fails. *)
Lemma v1_crafted_package_opens_twice :
  len pkg_twice = 60 /\
  recv_all1 (L := pylib) (R1.fresh k0) [(pkg_twice, None); (pkg_twice, None)]
  = [Ok (unhex "2e9793910545042c4a5da02e35426b67");
     Ok (unhex "74f1965b76ee97faad0bbde3ecab9385")].
Proof. split; vm_compute; reflexivity. Qed.

Lemma v1_replay_outcomes_witness :
  R1.decrypt (L := pylib) (fst (R1.decrypt (L := pylib) (R1.fresh k0) pkg_hi None)) pkg_hi None
  = (fst (R1.decrypt (L := pylib)
            (fst (R1.decrypt (L := pylib) (R1.fresh k0) pkg_hi None)) pkg_hi None),
     Err AuthFailure) /\
  exists st'',
    R1.decrypt (L := pylib) (fst (R1.decrypt (L := pylib) (R1.fresh k0) pkg_hi None))
               pkg_hi None
    = (st'', V1.decrypt_message (L := pylib)
               (msg_key_of (L := pylib)
                  (R1.chain_key (fst (R1.decrypt (L := pylib) (R1.fresh k0) pkg_hi None))))
               pkg_hi None) /\
    R1.step st'' = R1.step (fst (R1.decrypt (L := pylib) (R1.fresh k0) pkg_hi None)) + 1 /\
    R1.chain_key st''
    = next_chain (L := pylib)
        (R1.chain_key (fst (R1.decrypt (L := pylib) (R1.fresh k0) pkg_hi None))) /\
    (V1.decrypt_message (L := pylib)
       (msg_key_of (L := pylib)
          (R1.chain_key (fst (R1.decrypt (L := pylib) (R1.fresh k0) pkg_hi None))))
       pkg_hi None = Err AuthFailure \/
     exists pt',
       V1.decrypt_message (L := pylib)
         (msg_key_of (L := pylib)
            (R1.chain_key (fst (R1.decrypt (L := pylib) (R1.fresh k0) pkg_hi None))))
         pkg_hi None = Ok pt').
Proof.
  split; [vm_compute; reflexivity|].
  apply (proj2 (proj2 (@v1_replay_outcomes pylib) (R1.fresh k0) pkg_hi None
                      (fst (R1.decrypt (L := pylib) (R1.fresh k0) pkg_hi None)) (lit "hi")
                      (reach1_fresh k0) eq_refl)).
  reflexivity.
Defined.

(** C8, the code at a failing input. The sender encrypts 52 messages; the
    first package to reach a fresh receiver is the last one.  The receiver
    advances to step 52 and saves the 51 keys in between: more than
    [MAX_CACHE = 50], which no method ever compares with anything. *)
Theorem v2_skipped_keys_exceed_max_cache :
  dict_len
    (R2.skipped_keys
       (fold_left (do_call2 (L := pylib))
          [Decrypt (nth 51 (oks (send_all2 (L := pylib) (S2.fresh k0 user) rng_const
                                           (repeat (now0, lit "m") 52))) [])]
          (R2.fresh k0)))
  = 51 /\ 51 > R2.MAX_CACHE.
Proof.
  split; [|reflexivity]. cbn [fold_left do_call2].
  apply (@R2_first_packet_far_ahead pylib pylib_laws k0 user rng_const
           (repeat (now0, lit "m") 52) 51).
  - vm_compute. reflexivity.
  - rewrite repeat_length. lia.
  - unfold R2.MAX_SKIP. lia.
  - apply (@collision_free_le pylib k0 _ 103); [unfold R2.MAX_SKIP; lia|].
    exact pylib_collision_free.
Qed.

Lemma cached_keys_are_real_chain_keys_witness :
  In (1, message_key (L := pylib) k0 1)
     (R2.skipped_keys (at_step (L := pylib) k0 k0 0 [] [])) \/
  In (message_key (L := pylib) k0 1, 1)
     (advance_keys (L := pylib) R2.MAX_SKIP (at_step (L := pylib) k0 k0 0 [] [])).
Proof.
  apply (proj2 (@cached_keys_are_real_chain_keys pylib)
               (at_step (L := pylib) k0 k0 0 [] []) (beacon (L := pylib) k0 1)).
  apply (@synced_lookup pylib k0 k0 0 [] 1).
  - apply (@window_collision_free pylib k0 103 0 [] pylib_collision_free (NoDup_nil _)).
    + intros j [].
    + unfold R2.MAX_SKIP. lia.
  - cbn [app]. apply in_seq. unfold R2.MAX_SKIP. lia.
Defined.

(** C10, counterexample. A secret of three bytes: every constructor
    returns a ratchet, none fails, and the V1 pair made from it carries a
    message. *)
Lemma three_byte_secret_is_accepted :
  length k3 = 3%nat /\
  S1.init k3 = Ok (S1.fresh k3) /\
  R1.init k3 = Ok (R1.fresh k3) /\
  S2.init k3 user = Ok (S2.fresh k3 user) /\
  R2.init (L := pylib) k3 = Ok (R2.fresh (L := pylib) k3) /\
  snd (R1.decrypt (L := pylib) (R1.fresh k3)
         (snd (S1.encrypt (L := pylib) (S1.fresh k3) rng0 (lit "hi") None)) None)
  = Ok (lit "hi").
Proof. do 5 (split; [reflexivity|]). vm_compute. reflexivity. Qed.

(** The beacons on the chain of the three-byte secret. *)
Lemma k3_collision_free : collision_free (L := pylib) k3 R2.MAX_SKIP.
Proof. apply collision_free_decide. vm_compute. reflexivity. Qed.

Lemma constructors_accept_any_secret_witness :
  snd (R1.decrypt (L := pylib) (R1.fresh k3)
         (snd (S1.encrypt (L := pylib) (S1.fresh k3) rng0 (lit "hi") None)) None)
  = Ok (lit "hi") /\
  snd (R2.decrypt (L := pylib) (R2.fresh k3)
         (nth 0 (oks (send_all2 (L := pylib) (S2.fresh k3 user) rng0 [(now0, lit "hi")])) []))
  = Ok (lit "hi").
Proof.
  split.
  - apply (proj1 (proj2 (proj2 (proj2 (proj2
             (@constructors_accept_any_secret pylib pylib_laws k3 user)))))).
  - apply (proj2 (proj2 (proj2 (proj2 (proj2
             (@constructors_accept_any_secret pylib pylib_laws k3 user)))))
             now0 rng0).
    + vm_compute. reflexivity.
    + exact k3_collision_free.
Defined.

(** * More on the V1 ratchet *)

Section V1More.
Context {L : Lib}.

Lemma R1_catch_up_at n : forall k s js mk0,
  (forall j, In j js -> j <= s)%nat ->
  R1.catch_up (S n) (v1_at k s js) (Z.of_nat (s + S n)) mk0
  = (v1_at k (s + S n) (js ++ seq (S s) n), Some (message_key k (s + S n))).
Proof.
  induction n as [|n IH]; intros k s js mk0 Hle.
  - rewrite R1_catch_up_S. cbn [v1_at R1.step R1.chain_key R1.skipped_keys].
    replace (Z.of_nat s <? Z.of_nat (s + 1)) with true by (symmetry; apply Z.ltb_lt; lia).
    replace (Z.of_nat s + 1 <? Z.of_nat (s + 1)) with false by (symmetry; apply Z.ltb_ge; lia).
    cbv zeta. cbn [R1.catch_up]. rewrite app_nil_r. unfold message_key.
    replace (s + 1 - 1)%nat with s by lia. f_equal.
    replace (Z.of_nat s + 1) with (Z.of_nat (s + 1)) by lia.
    change (next_chain (chain_at k s)) with (chain_at k (S s)).
    replace (S s) with (s + 1)%nat by lia. reflexivity.
  - rewrite R1_catch_up_S. cbn [v1_at R1.step R1.chain_key R1.skipped_keys].
    replace (Z.of_nat s <? Z.of_nat (s + S (S n))) with true
      by (symmetry; apply Z.ltb_lt; lia).
    replace (Z.of_nat s + 1 <? Z.of_nat (s + S (S n))) with true
      by (symmetry; apply Z.ltb_lt; lia).
    cbv zeta.
    assert (Hfresh : ~ In (Z.of_nat s + 1) (keys (skipped_of k js))).
    { rewrite keys_skipped_of. intro H. apply in_map_iff in H. destruct H as (i & E & Hi).
      specialize (Hle i Hi). lia. }
    rewrite (@dict_set_fresh _ _ _ Z_eqb_eq _ _ _ Hfresh).
    replace (Z.of_nat s + 1) with (Z.of_nat (S s)) by lia.
    change (next_chain (chain_at k s)) with (chain_at k (S s)).
    assert (E : R1.set_skipped
                  {| R1.chain_key := chain_at k (S s); R1.step := Z.of_nat (S s);
                     R1.skipped_keys := skipped_of k js |}
                  (skipped_of k js ++ [(Z.of_nat (S s), msg_key_of (chain_at k s))])
                = v1_at k (S s) (js ++ [S s])).
    { unfold R1.set_skipped, v1_at, skipped_of. cbn [R1.chain_key R1.step].
      rewrite map_app. cbn [map]. unfold message_key.
      replace (S s - 1)%nat with s by lia. reflexivity. }
    rewrite E.
    replace (s + S (S n))%nat with (S s + S n)%nat by lia.
    rewrite IH.
    + rewrite <- app_assoc. reflexivity.
    + intros j Hj. apply in_app_or in Hj. destruct Hj as [Hj|[<-|[]]]; [|lia].
      specialize (Hle j Hj). lia.
Qed.

Lemma R1_fresh_at k : R1.fresh k = v1_at k 0 [].
Proof. reflexivity. Qed.

Lemma skipped_of_get_some k js t mk :
  dict_get Z.eqb t (skipped_of k js) = Some mk ->
  exists j, In j js /\ t = Z.of_nat j /\ mk = message_key k j.
Proof.
  intro H. apply dict_get_In in H; [|apply Z_eqb_eq].
  unfold skipped_of in H. apply in_map_iff in H. destruct H as (j & E & Hj).
  inversion E; subst. eauto.
Qed.

Lemma NoDup_remove_nat (l : list nat) x : NoDup l -> NoDup (remove Nat.eq_dec x l).
Proof.
  induction l as [|a l IH]; [constructor|]. intro ND.
  inversion ND; subst. cbn. destruct (Nat.eq_dec x a); [auto|].
  constructor; [|auto]. intro H. apply in_remove in H. tauto.
Qed.

Lemma holds1_length s js : holds1 s js -> (length js <= s - 1)%nat.
Proof.
  intros [ND Hr].
  assert (H : incl js (seq 1 (s - 1))).
  { intros j Hj. apply in_seq. specialize (Hr j Hj). lia. }
  pose proof (NoDup_incl_length ND H) as Hl. now rewrite length_seq in Hl.
Qed.

Lemma holds1_remove s js t : holds1 s js -> holds1 s (remove Nat.eq_dec t js).
Proof.
  intros [ND Hr]. split.
  - now apply NoDup_remove_nat.
  - intros j Hj. apply in_remove in Hj. apply Hr. tauto.
Qed.

Lemma holds1_skip s js t :
  holds1 s js -> (s < t)%nat -> holds1 t (js ++ seq (S s) (t - s - 1)).
Proof.
  intros [ND Hr] Hlt. split.
  - apply NoDup_app; [assumption | apply seq_NoDup |].
    intros j H1 H2. apply in_seq in H2. specialize (Hr j H1). lia.
  - intros j Hj. apply in_app_or in Hj. destruct Hj as [Hj|Hj].
    + specialize (Hr j Hj). lia.
    + apply in_seq in Hj. lia.
Qed.

(** What one [decrypt] does to a receiver on the chain of [k]. *)
Lemma R1_decrypt_at k s js pkg aad :
  holds1 s js ->
  let t := R1.target_of (v1_at k s js) aad in
  (exists j, In j js /\ t = Z.of_nat j /\
     R1.decrypt (v1_at k s js) pkg aad
     = (v1_at k s (remove Nat.eq_dec j js), V1.decrypt_message (message_key k j) pkg aad)) \/
  (exists j, (s < j)%nat /\ t = Z.of_nat j /\
     Z.of_nat (j - s) <= V1.MAX_SKIP_RANGE /\
     Z.of_nat (length js + (j - s)) <= V1.MAX_STORED_KEYS /\
     R1.decrypt (v1_at k s js) pkg aad
     = (v1_at k j (js ++ seq (S s) (j - s - 1)),
        V1.decrypt_message (message_key k j) pkg aad)) \/
  (exists e, (e = ReplayOrStale \/ e = SkipTooLarge \/ e = SkipStoreOverflow) /\
     R1.decrypt (v1_at k s js) pkg aad = (v1_at k s js, Err e)).
Proof.
  intros [ND Hr] t. unfold R1.decrypt. fold t.
  change (R1.skipped_keys (v1_at k s js)) with (skipped_of k js).
  change (R1.step (v1_at k s js)) with (Z.of_nat s).
  destruct (dict_get Z.eqb t (skipped_of k js)) as [mk|] eqn:Hget.
  - left. destruct (skipped_of_get_some _ _ _ Hget) as (j & Hj & -> & ->).
    exists j. repeat split; auto.
    rewrite (@skipped_of_del L k js j ND). reflexivity.
  - destruct (t >? Z.of_nat s) eqn:E1.
    + apply Z.gtb_lt in E1.
      destruct (t - Z.of_nat s >? V1.MAX_SKIP_RANGE) eqn:E2.
      { right. right. exists SkipTooLarge. auto. }
      destruct (dict_len (skipped_of k js) + (t - Z.of_nat s) >? V1.MAX_STORED_KEYS) eqn:E3.
      { right. right. exists SkipStoreOverflow. auto. }
      right. left.
      rewrite Z.gtb_ltb in E2, E3. apply Z.ltb_ge in E2, E3.
      unfold dict_len, skipped_of in E3. rewrite length_map in E3.
      remember (Z.to_nat t) as j eqn:Ej.
      assert (Et : t = Z.of_nat j) by lia. clearbody t. clear Ej. subst t.
      exists j. repeat split; try lia.
      replace (Z.to_nat (Z.of_nat j - Z.of_nat s)) with (S (j - s - 1)) by lia.
      replace (Z.of_nat j) with (Z.of_nat (s + S (j - s - 1))) at 1 by lia.
      rewrite R1_catch_up_at by (intros i Hi; specialize (Hr i Hi); lia).
      replace (s + S (j - s - 1))%nat with j by lia. reflexivity.
    + right. right. exists ReplayOrStale. auto.
Qed.

Lemma V1_decrypt_message_err key pkg aad e :
  V1.decrypt_message key pkg aad = Err e ->
  (e = MalformedPacket /\ len pkg < 44) \/ (e = AuthFailure /\ 44 <= len pkg).
Proof.
  unfold V1.decrypt_message.
  destruct (len pkg <? Z.of_nat (V1.SALT_SIZE + V1.NONCE_SIZE + V1.TAG_SIZE)) eqn:E.
  - apply Z.ltb_lt in E. cbn in E. intros [= <-]. left. split; [reflexivity | lia].
  - apply Z.ltb_ge in E. cbn in E. destruct (gcm_decrypt _ _ _ _ _); [discriminate|].
    intros [= <-]. right. split; [reflexivity | lia].
Qed.

(** The receiver stays on the chain of its secret. *)
Lemma run1_at k calls : forall s js,
  holds1 s js -> Z.of_nat (length js) < V1.MAX_STORED_KEYS ->
  exists s' js',
    run1 (v1_at k s js) calls = v1_at k s' js' /\ holds1 s' js' /\
    Z.of_nat (length js') < V1.MAX_STORED_KEYS.
Proof.
  induction calls as [|[pkg aad] calls IH]; intros s js Hh Hlen;
    [exists s, js; cbn; auto|].
  cbn [run1].
  destruct (@R1_decrypt_at k s js pkg aad Hh) as [(j & Hj & _ & E)|[(j & Hj & _ & _ & Hst & E)|(e & _ & E)]];
    rewrite E; cbn [fst].
  - apply IH; [now apply holds1_remove|].
    pose proof (remove_length_lt Nat.eq_dec js j Hj). lia.
  - apply IH; [now apply holds1_skip|].
    rewrite length_app, length_seq. unfold V1.MAX_STORED_KEYS in *. lia.
  - now apply IH.
Qed.

(** X1. However it is called, a V1 receiver built on the secret [k] stays on
    the chain of [k]: its chain key is the chain key of its step, every saved
    key is the message key of the step it is saved under, the saved steps are
    distinct and earlier than the current step, and there are fewer than
    [MAX_STORED_KEYS] of them. *)
Theorem v1_receiver_stays_on_its_chain k calls :
  exists s js,
    run1 (R1.fresh k) calls = v1_at k s js /\
    R1.chain_key (run1 (R1.fresh k) calls) = chain_at k s /\
    R1.step (run1 (R1.fresh k) calls) = Z.of_nat s /\
    R1.skipped_keys (run1 (R1.fresh k) calls)
    = map (fun j => (Z.of_nat j, message_key k j)) js /\
    NoDup js /\ (forall j, In j js -> 1 <= j < s)%nat /\
    dict_len (R1.skipped_keys (run1 (R1.fresh k) calls)) < V1.MAX_STORED_KEYS.
Proof.
  rewrite R1_fresh_at.
  destruct (@run1_at k calls 0%nat []) as (s & js & E & [ND Hr] & Hlen).
  - split; [constructor | intros j []].
  - cbn. unfold V1.MAX_STORED_KEYS. lia.
  - exists s, js. rewrite E. repeat split; auto; try apply Hr; auto.
    unfold dict_len. cbn [v1_at R1.skipped_keys]. unfold skipped_of. now rewrite length_map.
Qed.

(** X2. The failures of the V1 [decrypt]: a call that fails with
    [ReplayOrStale], [SkipTooLarge] or [SkipStoreOverflow] leaves the receiver
    exactly as it was; every other failure is [MalformedPacket] (the package
    has fewer than 44 bytes) or [AuthFailure] (it has at least 44), and then
    the receiver has changed: the key of the target step is gone. *)
Theorem v1_decrypt_failures st pkg aad st' e :
  R1.decrypt st pkg aad = (st', Err e) ->
  ((e = ReplayOrStale \/ e = SkipTooLarge \/ e = SkipStoreOverflow) /\ st' = st) \/
  (((e = MalformedPacket /\ len pkg < 44) \/ (e = AuthFailure /\ 44 <= len pkg)) /\
   st' <> st).
Proof.
  unfold R1.decrypt. set (t := R1.target_of st aad).
  destruct (dict_get Z.eqb t (R1.skipped_keys st)) as [mk|] eqn:Hget.
  - intros [= <- H]. right. split; [now apply V1_decrypt_message_err in H|].
    intro E. apply (f_equal (fun s => length (R1.skipped_keys s))) in E. cbn in E.
    pose proof (dict_del_length _ _ _ Hget). lia.
  - destruct (t >? R1.step st) eqn:E1.
    + apply Z.gtb_lt in E1.
      destruct (_ >? V1.MAX_SKIP_RANGE); [intros [= <- <-]; left; auto|].
      destruct (_ >? V1.MAX_STORED_KEYS); [intros [= <- <-]; left; auto|].
      destruct (@R1_catch_up_core L (Z.to_nat (t - R1.step st)) st t None) as (H1 & _ & H3);
        [lia|].
      destruct (R1.catch_up _ _ _ _) as [st1 [mk|]].
      * intros [= <- H]. right. split; [now apply V1_decrypt_message_err in H|].
        cbn in H1. intro E. rewrite E in H1. lia.
      * cbn in H3. discriminate H3. lia.
    + intros [= <- <-]. left. auto.
Qed.
End V1More.

Section V1Delivery.
Context {L : Lib}.

Lemma R1_decrypt_at_saved k s js t pkg aad :
  holds1 s js -> In t js ->
  R1.aad_seq aad = Some (Z.of_nat t) ->
  R1.decrypt (v1_at k s js) pkg aad
  = (v1_at k s (remove Nat.eq_dec t js), V1.decrypt_message (message_key k t) pkg aad).
Proof.
  intros [ND Hr] Hin Ha. unfold R1.decrypt.
  rewrite (@R1_target_of_seq L (v1_at k s js) aad _ Ha).
  change (R1.skipped_keys (v1_at k s js)) with (skipped_of k js).
  rewrite (@skipped_of_get L k js t ND Hin), (@skipped_of_del L k js t ND). reflexivity.
Qed.

Lemma R1_decrypt_at_ahead k s js t pkg aad :
  holds1 s js -> (s < t)%nat ->
  Z.of_nat (t - s) <= V1.MAX_SKIP_RANGE ->
  Z.of_nat (length js + (t - s)) <= V1.MAX_STORED_KEYS ->
  R1.aad_seq aad = Some (Z.of_nat t) ->
  R1.decrypt (v1_at k s js) pkg aad
  = (v1_at k t (js ++ seq (S s) (t - s - 1)), V1.decrypt_message (message_key k t) pkg aad).
Proof.
  intros [ND Hr] Hlt H1 H2 Ha. unfold R1.decrypt.
  rewrite (@R1_target_of_seq L (v1_at k s js) aad _ Ha).
  change (R1.skipped_keys (v1_at k s js)) with (skipped_of k js).
  change (R1.step (v1_at k s js)) with (Z.of_nat s).
  rewrite (@skipped_of_get_none L k js t) by (intro H; specialize (Hr t H); lia).
  rewrite gtb_true by lia. rewrite gtb_false by lia.
  rewrite gtb_false by (unfold dict_len, skipped_of; rewrite length_map; lia).
  replace (Z.to_nat (Z.of_nat t - Z.of_nat s)) with (S (t - s - 1)) by lia.
  replace (Z.of_nat t) with (Z.of_nat (s + S (t - s - 1))) at 1 by lia.
  rewrite R1_catch_up_at by (intros i Hi; specialize (Hr i Hi); lia).
  replace (s + S (t - s - 1))%nat with t by lia. reflexivity.
Qed.

Lemma send_all1_honest k msgs : forall s st r i,
  S1.chain_key st = chain_at k s ->
  (i < length msgs)%nat ->
  honest_packet1 k (s + i + 1) (fst (nth i msgs ([], None))) (snd (nth i msgs ([], None)))
                 (nth i (send_all1 st r msgs) []).
Proof.
  induction msgs as [|[m a] msgs IH]; intros s st r i Hc Hi; [cbn in Hi; lia|].
  cbn [send_all1]. rewrite S1_encrypt_eq. cbv zeta. rewrite Hc.
  destruct i as [|i].
  - cbn [nth fst snd]. exists (fst (urandom r V1.SALT_SIZE)),
      (fst (urandom (snd (urandom r V1.SALT_SIZE)) V1.NONCE_SIZE)).
    split; [apply urandom_length|]. split; [apply urandom_length|].
    unfold message_key. replace (s + 0 + 1 - 1)%nat with s by lia. reflexivity.
  - cbn [nth]. replace (s + S i + 1)%nat with (S s + i + 1)%nat by lia.
    apply IH; [reflexivity | cbn in Hi; lia].
Qed.
End V1Delivery.

Section V1DeliveryWithLaws.
Context {L : Lib} {HL : Laws L}.

Lemma honest_packet1_opens k t m a pkg :
  honest_packet1 k t m a pkg -> V1.decrypt_message (message_key k t) pkg a = Ok m.
Proof.
  intros (salt & nonce & H1 & H2 & ->). now apply V1_decrypt_message_roundtrip.
Qed.

Lemma recv_all1_any_order k n (msg : nat -> bytes) (aad : nat -> option bytes)
      (pkt : nat -> bytes) todo : forall s js,
  Z.of_nat n <= V1.MAX_SKIP_RANGE ->
  (forall t, In t todo ->
             honest_packet1 k t (msg t) (aad t) (pkt t) /\
             R1.aad_seq (aad t) = Some (Z.of_nat t)) ->
  NoDup todo ->
  (forall t, In t todo -> (1 <= t <= n)%nat /\ (In t js \/ (s < t)%nat)) ->
  holds1 s js -> (s <= n)%nat ->
  recv_all1 (v1_at k s js) (map (fun t => (pkt t, aad t)) todo)
  = map (fun t => Ok (msg t)) todo.
Proof.
  induction todo as [|t todo IH]; intros s js Hn Hh ND Hin Hst Hs; [reflexivity|].
  cbn [map recv_all1].
  destruct (Hh t (or_introl eq_refl)) as [Hp Ha].
  destruct (Hin t (or_introl eq_refl)) as [Ht Hwhere].
  inversion ND as [|? ? Hnotin ND']; subst.
  pose proof (holds1_length Hst) as Hlen.
  destruct (in_dec Nat.eq_dec t js) as [Hj|Hj].
  - rewrite (@R1_decrypt_at_saved L k s js t (pkt t) (aad t) Hst Hj Ha).
    rewrite (honest_packet1_opens Hp). f_equal.
    apply IH; auto.
    + intros t' Ht'. apply Hh. now right.
    + intros t' Ht'. destruct (Hin t' (or_intror Ht')) as [H1 [H2|H2]]; split; auto.
      left. apply in_in_remove; [|assumption]. intros ->. contradiction.
    + now apply holds1_remove.
  - destruct Hwhere as [Hj'|Hlt]; [contradiction|].
    rewrite (@R1_decrypt_at_ahead L k s js t (pkt t) (aad t) Hst Hlt);
      [| unfold V1.MAX_SKIP_RANGE in *; lia | unfold V1.MAX_SKIP_RANGE, V1.MAX_STORED_KEYS in *; lia
       | exact Ha].
    rewrite (honest_packet1_opens Hp). f_equal.
    apply IH; auto.
    + intros t' Ht'. apply Hh. now right.
    + intros t' Ht'. destruct (Hin t' (or_intror Ht')) as [H1 [H2|H2]]; split; auto.
      * left. apply in_or_app. now left.
      * assert (t' <> t) by (intros ->; contradiction).
        destruct (Nat.lt_ge_cases t t') as [H3|H3]; [now right|].
        left. apply in_or_app. right. apply in_seq. lia.
    + now apply holds1_skip.
    + lia.
Qed.

(** X3. V1 out-of-order delivery, as [test_out_of_order.py] and
    [run_automated_test] try it on three messages: the sender encrypts at
    most [MAX_SKIP_RANGE = 1000] messages in order, the i-th with an AAD
    whose [seq:] field is [i]; the receiver is given any of the packages,
    each once, in any order, with their AADs.  Every call returns the
    plaintext of its package. *)
Theorem v1_out_of_order_round_trip k r (msgs : list (bytes * option bytes)) order :
  (forall i, (i < length msgs)%nat ->
             R1.aad_seq (snd (nth i msgs ([], None))) = Some (Z.of_nat (i + 1))) ->
  Z.of_nat (length msgs) <= V1.MAX_SKIP_RANGE ->
  NoDup order ->
  (forall i, In i order -> 1 <= i <= length msgs)%nat ->
  recv_all1 (R1.fresh k)
    (map (fun i => (nth (i - 1) (send_all1 (S1.fresh k) r msgs) [],
                    snd (nth (i - 1) msgs ([], None)))) order)
  = map (fun i => Ok (fst (nth (i - 1) msgs ([], None)))) order.
Proof.
  intros Ha Hn ND Hin. rewrite R1_fresh_at.
  apply (@recv_all1_any_order k (length msgs)
           (fun i => fst (nth (i - 1) msgs ([], None)))
           (fun i => snd (nth (i - 1) msgs ([], None)))
           (fun i => nth (i - 1) (send_all1 (S1.fresh k) r msgs) [])); auto.
  - intros t Ht. specialize (Hin t Ht). split.
    + replace t with (0 + (t - 1) + 1)%nat at 1 by lia.
      apply send_all1_honest; [reflexivity|].
      eapply Nat.lt_le_trans; [|exact (proj2 Hin)]. lia.
    + replace t with (t - 1 + 1)%nat at 2 by lia. apply Ha. lia.
  - intros t Ht. specialize (Hin t Ht). split; [lia | right; lia].
  - split; [constructor | intros j []].
  - lia.
Qed.

(** X4. [encrypt_message] and [decrypt_message], under any key: the package
    is [salt(16) || nonce(12) || ciphertext || tag(16)], exactly 44 bytes
    longer than the plaintext (so its length shows the length of the
    plaintext), 28 random bytes are drawn, and [decrypt_message] with the
    same key and AAD gives the plaintext back. *)
Theorem v1_message_round_trip key m a r :
  len (fst (V1.encrypt_message key m a r)) = len m + 44 /\
  pos (snd (V1.encrypt_message key m a r)) = (pos r + 28)%nat /\
  V1.decrypt_message key (fst (V1.encrypt_message key m a r)) a = Ok m.
Proof.
  unfold V1.encrypt_message.
  destruct (urandom r V1.SALT_SIZE) as [salt r1] eqn:E1.
  destruct (urandom r1 V1.NONCE_SIZE) as [nonce r2] eqn:E2.
  assert (L1 : length salt = 16%nat)
    by (replace salt with (fst (urandom r V1.SALT_SIZE)) by (now rewrite E1); apply urandom_length).
  assert (L2 : length nonce = 12%nat)
    by (replace nonce with (fst (urandom r1 V1.NONCE_SIZE)) by (now rewrite E2); apply urandom_length).
  pose proof (@V1_decrypt_message_roundtrip L HL key salt nonce a m L1 L2) as Hrt.
  cbv zeta in Hrt.
  pose proof (gcm_ct_length (HKDF key V1.AES_KEY_SIZE (Some salt) V1.HKDF_INFO) nonce a m) as Hc.
  pose proof (gcm_tag_length (HKDF key V1.AES_KEY_SIZE (Some salt) V1.HKDF_INFO) nonce a m) as Ht.
  destruct (gcm_encrypt _ _ _ _) as [ct tag]. cbn [fst snd] in *.
  split; [|split; [|exact Hrt]].
  - rewrite !len_app. unfold len. rewrite L1, L2, Hc, Ht. lia.
  - unfold urandom in E1, E2. inversion E1; subst. inversion E2; subst.
    cbn [pos]. unfold V1.SALT_SIZE, V1.NONCE_SIZE. lia.
Qed.
End V1DeliveryWithLaws.

(** * More on the V2 receiver *)

Section V2More.
Context {L : Lib}.

Lemma synced_cache_entry root k s js lid key sq :
  dict_get bytes_eqb lid (R2.lookup_cache (synced root k s js)) = Some (key, sq) ->
  exists t, In t (js ++ seq (S s) R2.MAX_SKIP) /\ lid = beacon k t /\
            key = message_key k t /\ sq = Z.of_nat t.
Proof.
  unfold synced, R2._refresh_lookup_cache, at_step.
  cbn [R2.lookup_cache R2.set_cache R2.chain_key R2.step R2.skipped_keys].
  rewrite lookahead_of, index_skipped_of. intro H.
  apply fold_set_entry_get in H. destruct H as [H|H].
  - unfold entries_of in H. apply in_map_iff in H. destruct H as (t & E & Ht).
    inversion E; subst. exists t. split; [apply in_or_app; now right | auto].
  - apply fold_set_entry_get in H. destruct H as [H|H]; [|discriminate].
    unfold entries_of in H. apply in_map_iff in H. destruct H as (t & E & Ht).
    inversion E; subst. exists t. split; [apply in_or_app; now left | auto].
Qed.

Lemma R2_refresh_root_synced st e :
  R2.refresh_root st e
  = synced (HKDF (R2.root_key st ++ e) V2.AES_KEY_SIZE None V2.ROOT_REFRESH)
           (HKDF (R2.root_key st ++ e) V2.AES_KEY_SIZE None V2.ROOT_REFRESH) 0 [].
Proof. reflexivity. Qed.

(** Where one [decrypt] leaves a receiver with a rebuilt cache, whatever the
    package. *)
Lemma R2_decrypt_state root k s js pkg :
  holds1 s js ->
  exists s' js',
    fst (R2.decrypt (synced root k s js) pkg) = synced root k s' js' /\
    holds1 s' js' /\ (s <= s' <= s + R2.MAX_SKIP)%nat /\
    (length js' <= length js + (R2.MAX_SKIP - 1))%nat.
Proof.
  intros Hh. pose proof Hh as [ND Hr].
  assert (Hsame : exists s' js',
             synced root k s js = synced root k s' js' /\ holds1 s' js' /\
             (s <= s' <= s + R2.MAX_SKIP)%nat /\
             (length js' <= length js + (R2.MAX_SKIP - 1))%nat)
    by (exists s, js; split; [reflexivity|]; split; [exact Hh|]; lia).
  unfold R2.decrypt.
  destruct (len pkg <? Z.of_nat (16 + V2.NONCE_SIZE + V2.TAG_SIZE)); [exact Hsame|].
  destruct (dict_get bytes_eqb (firstn 16 pkg) (R2.lookup_cache (synced root k s js)))
    as [[key sq]|] eqn:Hget; [|exact Hsame].
  destruct (synced_cache_entry _ _ _ _ _ Hget) as (t & Hin & _ & -> & ->).
  change (R2.skipped_keys (synced root k s js)) with (skipped_of k js).
  destruct (in_dec Nat.eq_dec t js) as [Hj|Hj].
  - rewrite (@skipped_of_get L k js t ND Hj), (@skipped_of_del L k js t ND),
      refresh_set_skipped. cbn [fst].
    exists s, (remove Nat.eq_dec t js). split; [reflexivity|].
    split; [now apply holds1_remove|]. split; [lia|].
    pose proof (remove_length_le Nat.eq_dec js t). lia.
  - rewrite (@skipped_of_get_none L k js t Hj).
    apply in_app_or in Hin. destruct Hin as [Hin|Hin]; [contradiction|].
    apply in_seq in Hin.
    change (R2.step (synced root k s js)) with (Z.of_nat s).
    replace (Z.to_nat (Z.of_nat t - Z.of_nat s)) with (S (t - s - 1)) by lia.
    rewrite synced_as_at_step.
    replace (Z.of_nat t) with (Z.of_nat (s + S (t - s - 1))) by lia.
    rewrite R2_catch_up_at_step by (intros i Hi; specialize (Hr i Hi); lia).
    replace (s + S (t - s - 1))%nat with t by lia. cbn [fst].
    exists t, (js ++ seq (S s) (t - s - 1)). split; [reflexivity|].
    split; [apply holds1_skip; [assumption | lia]|]. split; [lia|].
    rewrite length_app, length_seq. unfold R2.MAX_SKIP in *. lia.
Qed.

Lemma fold_calls2_decrypt st pkg calls :
  fold_left do_call2 (Decrypt pkg :: calls) st
  = fold_left do_call2 calls (fst (R2.decrypt st pkg)).
Proof. reflexivity. Qed.

Lemma fold_calls2_refresh st e calls :
  fold_left do_call2 (RefreshRoot e :: calls) st
  = fold_left do_call2 calls (R2.refresh_root st e).
Proof. reflexivity. Qed.

Lemma root_after_decrypt k pkg calls :
  root_after k (Decrypt pkg :: calls) = root_after k calls.
Proof. reflexivity. Qed.

Lemma root_after_refresh k e calls :
  root_after k (RefreshRoot e :: calls)
  = root_after (HKDF (k ++ e) V2.AES_KEY_SIZE None V2.ROOT_REFRESH) calls.
Proof. reflexivity. Qed.

Lemma synced_root_key root k s js : R2.root_key (synced root k s js) = root.
Proof. reflexivity. Qed.

Lemma run_calls2_synced calls : forall root s js,
  holds1 s js ->
  exists s' js',
    fold_left do_call2 calls (synced root root s js)
    = synced (root_after root calls) (root_after root calls) s' js' /\
    holds1 s' js'.
Proof.
  induction calls as [|[pkg|e] calls IH]; intros root s js Hh.
  - exists s, js. auto.
  - rewrite fold_calls2_decrypt, root_after_decrypt.
    destruct (@R2_decrypt_state root root s js pkg Hh) as (s' & js' & E & Hh' & _).
    rewrite E. now apply IH.
  - rewrite fold_calls2_refresh, root_after_refresh, R2_refresh_root_synced, synced_root_key.
    apply IH. split; [constructor | intros j []].
Qed.

(** X5. However it is called ([decrypt] with any package, [refresh_root]
    with any entropy), a V2 receiver built on the secret [k] stays on the
    chain of its root key: the root key is the one the [refresh_root] calls
    made (no package changes it), the chain key is the chain key of the
    current step, every saved key is the message key of the step it is saved
    under, the saved steps are distinct and earlier than the current step,
    and the lookup cache is the one [_refresh_lookup_cache] would rebuild. *)
Theorem v2_receiver_stays_on_its_chain k calls :
  exists s js,
    R2.root_key (fold_left do_call2 calls (R2.fresh k)) = root_after k calls /\
    R2.chain_key (fold_left do_call2 calls (R2.fresh k)) = chain_at (root_after k calls) s /\
    R2.step (fold_left do_call2 calls (R2.fresh k)) = Z.of_nat s /\
    R2.skipped_keys (fold_left do_call2 calls (R2.fresh k))
    = map (fun j => (Z.of_nat j, message_key (root_after k calls) j)) js /\
    R2._refresh_lookup_cache (fold_left do_call2 calls (R2.fresh k))
    = fold_left do_call2 calls (R2.fresh k) /\
    NoDup js /\ (forall j, In j js -> 1 <= j < s)%nat.
Proof.
  rewrite R2_fresh_synced.
  destruct (@run_calls2_synced calls k 0%nat []) as (s & js & E & [ND Hr]).
  - split; [constructor | intros j []].
  - exists s, js. rewrite E. repeat split; auto; apply Hr; auto.
Qed.

(** X6. One [decrypt] call on such a receiver, whatever the package, moves
    the step forward by at most [MAX_SKIP = 100] and adds at most
    [MAX_SKIP - 1 = 99] saved keys; and the receiver never holds more saved
    keys than its step counts. *)
Theorem v2_decrypt_advances_at_most_max_skip k calls pkg :
  R2.step (fold_left do_call2 calls (R2.fresh k))
  <= R2.step (fst (R2.decrypt (fold_left do_call2 calls (R2.fresh k)) pkg))
  <= R2.step (fold_left do_call2 calls (R2.fresh k)) + Z.of_nat R2.MAX_SKIP /\
  dict_len (R2.skipped_keys (fst (R2.decrypt (fold_left do_call2 calls (R2.fresh k)) pkg)))
  <= dict_len (R2.skipped_keys (fold_left do_call2 calls (R2.fresh k)))
     + (Z.of_nat R2.MAX_SKIP - 1) /\
  dict_len (R2.skipped_keys (fold_left do_call2 calls (R2.fresh k)))
  <= R2.step (fold_left do_call2 calls (R2.fresh k)).
Proof.
  rewrite R2_fresh_synced.
  destruct (@run_calls2_synced calls k 0%nat []) as (s & js & E & Hh).
  - split; [constructor | intros j []].
  - rewrite E.
    destruct (@R2_decrypt_state (root_after k calls) (root_after k calls) s js pkg Hh)
      as (s' & js' & E' & _ & Hs & Hl).
    rewrite E'. pose proof (holds1_length Hh) as Hlen.
    change (R2.step (synced (root_after k calls) (root_after k calls) s js)) with (Z.of_nat s).
    change (R2.step (synced (root_after k calls) (root_after k calls) s' js'))
      with (Z.of_nat s').
    change (R2.skipped_keys (synced (root_after k calls) (root_after k calls) s js))
      with (skipped_of (root_after k calls) js).
    change (R2.skipped_keys (synced (root_after k calls) (root_after k calls) s' js'))
      with (skipped_of (root_after k calls) js').
    unfold dict_len, skipped_of. rewrite !length_map. unfold R2.MAX_SKIP in *. lia.
Qed.

Lemma R2_unpack_err x e :
  R2._unpack x = Err e ->
  (e = AuthFailure /\ x = None) \/ (e = HeaderError /\ x <> None).
Proof.
  unfold R2._unpack. destruct x as [p|].
  - destruct (json_header_ok _); [discriminate|]. intros [= <-]. right. split; congruence.
  - intros [= <-]. now left.
Qed.

Lemma R2_catch_up_result n : forall st m blob st1 r,
  R2.catch_up n st m blob = (st1, Some r) ->
  exists key, r = R2._unpack (V2.trial_decrypt key blob).
Proof.
  induction n as [|n IH]; intros st m blob st1 r H; [discriminate|].
  rewrite R2_catch_up_S in H. destruct (R2.step st <? m); [|discriminate].
  cbv zeta in H. destruct (R2.step st + 1 =? m).
  - injection H as _ <-. eauto.
  - eapply IH; eauto.
Qed.

Lemma R2_catch_up_none n : forall st m blob st1,
  m - R2.step st <= Z.of_nat n ->
  R2.catch_up n st m blob = (st1, None) ->
  st1 = st /\ m <= R2.step st.
Proof.
  induction n as [|n IH]; intros st m blob st1 Hn H.
  - cbn in H. injection H as <-. split; [reflexivity | lia].
  - rewrite R2_catch_up_S in H. destruct (R2.step st <? m) eqn:E1.
    + apply Z.ltb_lt in E1. cbv zeta in H.
      destruct (R2.step st + 1 =? m) eqn:E2; [discriminate|].
      apply Z.eqb_neq in E2. apply IH in H; [|cbn; lia].
      cbn in H. lia.
    + apply Z.ltb_ge in E1. injection H as <-. auto.
Qed.

(** X7. The failures of the V2 [decrypt]: [MalformedPacket] (fewer than 44
    bytes) and [UnknownBeacon] are raised before anything is touched, and the
    receiver is exactly as it was; every other failure is [AuthFailure] or
    [HeaderError], comes after the beacon was found in the cache, and has
    changed the receiver. *)
Theorem v2_decrypt_failures st pkg st' e :
  R2.decrypt st pkg = (st', Err e) ->
  (e = MalformedPacket /\ len pkg < 44 /\ st' = st) \/
  (e = UnknownBeacon /\ 44 <= len pkg /\ st' = st) \/
  ((e = AuthFailure \/ e = HeaderError) /\ 44 <= len pkg /\ st' <> st /\
   exists key sq,
     dict_get bytes_eqb (firstn 16 pkg) (R2.lookup_cache st) = Some (key, sq)).
Proof.
  unfold R2.decrypt.
  destruct (len pkg <? Z.of_nat (16 + V2.NONCE_SIZE + V2.TAG_SIZE)) eqn:El.
  { apply Z.ltb_lt in El. cbn in El. intros [= <- <-]. left. auto. }
  apply Z.ltb_ge in El. cbn in El.
  destruct (dict_get bytes_eqb (firstn 16 pkg) (R2.lookup_cache st)) as [[mk m]|] eqn:Hc.
  2:{ intros [= <- <-]. right. left. auto. }
  destruct (dict_get Z.eqb m (R2.skipped_keys st)) as [mk'|] eqn:Hget.
  - intros [= <- H]. right. right.
    split; [apply R2_unpack_err in H; tauto|]. split; [lia|]. split; [|eauto].
    intro E. apply (f_equal (fun s => length (R2.skipped_keys s))) in E. cbn in E.
    pose proof (dict_del_length _ _ _ Hget). lia.
  - destruct (R2.catch_up _ _ _ _) as [st1 [r|]] eqn:E.
    + intros [= <- ->]. right. right.
      destruct (R2_catch_up_result _ _ _ _ E) as [key Hr].
      apply R2_catch_up_returns in E. destruct E as (H1 & H2 & _).
      symmetry in Hr.
      split; [apply R2_unpack_err in Hr; tauto|]. split; [lia|]. split; [|eauto].
      intro E. rewrite E in H2. lia.
    + intros [= <- <-]. apply R2_catch_up_none in E; [|lia].
      right. left. split; [reflexivity|]. split; [lia | tauto].
Qed.
End V2More.

(** * V2 delivery: losses, replays, the window, and healing *)

Lemma deliver_cons s js t todo :
  deliver s js (t :: todo) = deliver (fst (next2 s js t)) (snd (next2 s js t)) todo.
Proof. unfold deliver. cbn [fold_left fst snd]. now destruct (next2 s js t). Qed.

Lemma deliver_invariant bound todo : forall s js,
  deliverable bound s js todo ->
  NoDup js -> (forall j, In j js -> 1 <= j <= s)%nat ->
  NoDup (snd (deliver s js todo)) /\
  (forall j, In j (snd (deliver s js todo)) -> 1 <= j <= fst (deliver s js todo))%nat.
Proof.
  induction todo as [|t todo IH]; intros s js Hd ND Hr; [split; assumption|].
  destruct Hd as (Hin & _ & Hd). rewrite deliver_cons.
  destruct (next2_invariant t ND Hr Hin) as (ND' & Hr'). now apply IH.
Qed.

Lemma deliver_keeps_out bound todo : forall s js x,
  deliverable bound s js todo ->
  ~ In x js -> (x <= s)%nat -> ~ In x todo ->
  ~ In x (snd (deliver s js todo)) /\ (x <= fst (deliver s js todo))%nat.
Proof.
  induction todo as [|t todo IH]; intros s js x Hd Hx Hle Hnt; [split; assumption|].
  destruct Hd as (Hin & _ & Hd). rewrite deliver_cons.
  assert (Hnt' : ~ In x todo) by (intro H; apply Hnt; now right).
  unfold next2 in *. destruct (in_dec Nat.eq_dec t js) as [Hj|Hj]; cbn [fst snd] in *.
  - apply IH; auto. intro H. apply in_remove in H. tauto.
  - apply in_app_or in Hin. destruct Hin as [Hin|Hin]; [contradiction|].
    apply in_seq in Hin. apply IH; auto; [|lia].
    intro H. apply in_app_or in H. destruct H as [H|H]; [contradiction|].
    apply in_seq in H. lia.
Qed.

Lemma delivered_out bound todo : forall s js t,
  deliverable bound s js todo ->
  NoDup todo -> NoDup js -> (forall j, In j js -> 1 <= j <= s)%nat -> In t todo ->
  ~ In t (snd (deliver s js todo)) /\ (t <= fst (deliver s js todo))%nat.
Proof.
  induction todo as [|u todo IH]; intros s js t Hd ND NDj Hr Ht; [contradiction|].
  pose proof Hd as (Hin & _ & Hd'). rewrite deliver_cons.
  inversion ND as [|? ? Hnu ND']; subst.
  destruct (next2_invariant u NDj Hr Hin) as (NDn & Hrn).
  destruct Ht as [->|Ht]; [|now apply IH].
  apply (@deliver_keeps_out bound); auto;
    unfold next2; destruct (in_dec Nat.eq_dec t js) as [Hj|Hj]; cbn [fst snd].
  - apply remove_In.
  - intro H. apply in_app_or in H. destruct H as [H|H]; [contradiction|].
    apply in_seq in H. lia.
  - specialize (Hr t Hj). lia.
  - lia.
Qed.

Lemma deliver_bound n todo : forall s js,
  (forall t, In t todo -> t <= n)%nat -> (s <= n)%nat ->
  (fst (deliver s js todo) <= n)%nat.
Proof.
  induction todo as [|t todo IH]; intros s js Ht Hs; [exact Hs|].
  rewrite deliver_cons. apply IH; [intros u Hu; apply Ht; now right|].
  unfold next2. destruct (in_dec Nat.eq_dec t js); cbn [fst]; [exact Hs|].
  apply Ht. now left.
Qed.

Lemma deliver_in_order n : forall s, deliver s [] (seq (S s) n) = ((s + n)%nat, []).
Proof.
  induction n as [|n IH]; intro s; [cbn; f_equal; lia|].
  cbn [seq]. rewrite deliver_cons. unfold next2. cbn [in_dec fst snd app].
  replace (S s - s - 1)%nat with 0%nat by lia. cbn [seq].
  rewrite IH. f_equal. lia.
Qed.

Lemma deliverable_gaps n order : forall s js,
  gaps_ok s order ->
  (s <= n)%nat -> (forall t, In t order -> t <= n)%nat ->
  (forall j, In j js -> j <= s)%nat ->
  deliverable (n + R2.MAX_SKIP) s js order.
Proof.
  induction order as [|t order IH]; intros s js Hg Hs Ht Hr; [exact I|].
  destruct Hg as [Hw Hg]. cbn [deliverable]. split; [|split; [lia|]].
  - apply in_or_app. right. apply in_seq. lia.
  - unfold next2. destruct (in_dec Nat.eq_dec t js) as [Hj|Hj]; cbn [fst snd].
    + specialize (Hr t Hj). lia.
    + apply IH; auto.
      * apply Ht. now left.
      * intros u Hu. apply Ht. now right.
      * intros j Hj'. apply in_app_or in Hj'. destruct Hj' as [H|H].
        -- specialize (Hr j H). lia.
        -- apply in_seq in H. lia.
Qed.

Lemma sentb_sent res i : sentb res i = true -> sent res i.
Proof.
  unfold sentb, sent. intro H. apply andb_true_iff in H. destruct H as [H1 H2].
  apply Nat.leb_le in H1. split; [exact H1|].
  destruct (nth_error res (i - 1)) as [[p|e]|]; try discriminate. eauto.
Qed.

Section V2Sent.
Context {L : Lib}.

Lemma all_fit_sent st r msgs i :
  all_fit st r msgs = true -> (1 <= i <= length msgs)%nat -> sent (send_all2 st r msgs) i.
Proof.
  intros Hfit Hi. split; [lia|].
  pose proof (send_all2_all_fit msgs st r Hfit) as E.
  pose proof (send_all2_length msgs st r) as Hl.
  remember (oks (send_all2 st r msgs)) as pk eqn:Epk. clear Epk.
  rewrite E in Hl |- *. rewrite length_map in Hl.
  destruct (nth_error pk (i - 1)) as [p|] eqn:En.
  - exists p. now rewrite nth_error_map, En.
  - apply nth_error_None in En. lia.
Qed.
End V2Sent.

Section V2Delivery.
Context {L : Lib} {HL : Laws L}.

Lemma send_all2_nth_honest k msgs : forall s st r i p,
  S2.chain_key st = chain_at k s -> S2.step st = Z.of_nat s ->
  nth_error (send_all2 st r msgs) i = Some (Ok p) ->
  honest_packet k (s + i + 1) (snd (nth i msgs (0, []))) p.
Proof.
  induction msgs as [|[now m] msgs IH]; intros s st r i p Hc Hs H.
  - destruct i; discriminate.
  - cbn [send_all2] in H.
    pose proof (S2_encrypt_advances st now r m) as Hadv.
    destruct (S2.encrypt st now r m) as [[st1 r1] res] eqn:E. cbn [fst] in Hadv.
    destruct i as [|i]; cbn [nth_error nth snd] in *.
    + injection H as ->. replace (s + 0 + 1)%nat with (S s) by lia.
      apply (proj1 (@S2_encrypt_honest L HL k s st now r m st1 r1 p Hc Hs E)).
    + replace (s + S i + 1)%nat with (S s + i + 1)%nat by lia.
      apply (IH (S s) st1 r1 i p); auto; subst st1; cbn; [now rewrite Hc | lia].
Qed.

Lemma sent_honest k sid r msgs i :
  sent (send_all2 (S2.fresh k sid) r msgs) i ->
  honest_packet k i (snd (nth (i - 1) msgs (0, [])))
                (pkt_at (send_all2 (S2.fresh k sid) r msgs) i) /\
  (1 <= i <= length msgs)%nat.
Proof.
  intros [Hi [p Hp]]. split.
  - unfold pkt_at. rewrite Hp. replace i with (0 + (i - 1) + 1)%nat at 1 by lia.
    eapply send_all2_nth_honest; eauto; reflexivity.
  - split; [exact Hi|].
    assert (H : (i - 1 < length (send_all2 (S2.fresh k sid) r msgs))%nat)
      by (apply nth_error_Some; congruence).
    rewrite send_all2_length in H. lia.
Qed.

Lemma recv_all2_sent k sid r msgs order bound :
  (forall i, In i order -> sent (send_all2 (S2.fresh k sid) r msgs) i) ->
  deliverable bound 0 [] order ->
  collision_free k bound ->
  recv_all2 (R2.fresh k) (map (pkt_at (send_all2 (S2.fresh k sid) r msgs)) order)
  = map (fun i => Ok (snd (nth (i - 1) msgs (0, [])))) order.
Proof.
  intros Hs Hd Hcf. rewrite R2_fresh_synced.
  apply (@recv_all2_deliverable L HL k k bound
           (fun i => snd (nth (i - 1) msgs (0, [])))); auto.
  - intros t Ht. apply sent_honest. now apply Hs.
  - constructor.
  - intros j [].
Qed.

Lemma run2_deliverable root k bound (msg pkt : nat -> bytes) todo : forall s js,
  collision_free k bound ->
  (forall t, In t todo -> honest_packet k t (msg t) (pkt t)) ->
  NoDup js -> (forall j, In j js -> 1 <= j <= s)%nat ->
  deliverable bound s js todo ->
  run2 (synced root k s js) (map pkt todo)
  = synced root k (fst (deliver s js todo)) (snd (deliver s js todo)).
Proof.
  induction todo as [|t todo IH]; intros s js Hcf Hh ND Hr Hd; [reflexivity|].
  destruct Hd as (Hin & Hb & Hd).
  destruct (honest_packet_opens (Hh t (or_introl eq_refl))) as (Hlen & Hbeacon & _).
  cbn [map run2]. rewrite deliver_cons.
  rewrite (@R2_decrypt_synced L root k s js t (pkt t)); auto.
  2:{ eapply window_collision_free; eauto. }
  2:{ intros j Hj. specialize (Hr j Hj). lia. }
  cbn [fst].
  destruct (next2_invariant t ND Hr Hin) as (ND' & Hr').
  unfold next2 in *. destruct (in_dec Nat.eq_dec t js); cbn [fst snd] in *;
    apply IH; auto; intros u Hu; apply Hh; now right.
Qed.

Lemma run2_sent k sid r msgs order bound :
  (forall i, In i order -> sent (send_all2 (S2.fresh k sid) r msgs) i) ->
  deliverable bound 0 [] order ->
  collision_free k bound ->
  run2 (R2.fresh k) (map (pkt_at (send_all2 (S2.fresh k sid) r msgs)) order)
  = synced k k (fst (deliver 0 [] order)) (snd (deliver 0 [] order)).
Proof.
  intros Hs Hd Hcf. rewrite R2_fresh_synced.
  apply (@run2_deliverable k k bound (fun i => snd (nth (i - 1) msgs (0, [])))); auto.
  - intros t Ht. apply sent_honest. now apply Hs.
  - constructor.
  - intros j [].
Qed.

(** A package that carries the beacon of a step the cache does not hold. *)
Lemma R2_decrypt_unknown root k bound s js t pkg :
  collision_free k bound ->
  NoDup js -> (forall j, In j js -> 1 <= j <= s)%nat ->
  (s + R2.MAX_SKIP <= bound)%nat -> (1 <= t <= bound)%nat ->
  ~ In t (js ++ seq (S s) R2.MAX_SKIP) ->
  44 <= len pkg -> firstn 16 pkg = beacon k t ->
  R2.decrypt (synced root k s js) pkg = (synced root k s js, Err UnknownBeacon).
Proof.
  intros Hcf ND Hr Hb Ht Hout Hlen Hbeacon.
  pose proof (window_collision_free Hcf ND Hr Hb) as NDw.
  unfold R2.decrypt.
  replace (len pkg <? Z.of_nat (16 + V2.NONCE_SIZE + V2.TAG_SIZE)) with false
    by (symmetry; apply Z.ltb_ge; cbn; lia).
  rewrite Hbeacon, (@synced_cache L root k s js NDw).
  replace (dict_get bytes_eqb (beacon k t) (entries_of k (js ++ seq (S s) R2.MAX_SKIP)))
    with (@None (bytes * Z)); [reflexivity|].
  symmetry. apply (@dict_get_None _ _ _ bytes_eqb_eq).
  unfold keys, entries_of. rewrite map_map. cbn [fst]. intro H.
  apply in_map_iff in H. destruct H as (j & E & Hj).
  assert (Hjr : In j (seq 1 bound)).
  { apply in_seq. apply in_app_or in Hj. destruct Hj as [Hj|Hj].
    - specialize (Hr j Hj). lia.
    - apply in_seq in Hj. lia. }
  assert (Htr : In t (seq 1 bound)) by (apply in_seq; lia).
  assert (j = t) by (apply (@inj_on_NoDup_map _ _ (beacon k) (seq 1 bound) j t Hcf Hjr Htr E)).
  subst j. contradiction.
Qed.

(** X8. V2 delivery with losses, in any order: of at most [MAX_SKIP = 100]
    [encrypt] calls, some may have failed (each failure still uses up a
    step) and some packages may be lost; the receiver that is given any of
    the packages that were made, each once, in any order, returns the
    plaintext of each (the beacons of the first [n + 100] steps being
    distinct). *)
Theorem v2_delivery_with_losses k sid r msgs order :
  (length msgs <= R2.MAX_SKIP)%nat ->
  NoDup order ->
  (forall i, In i order -> sent (send_all2 (S2.fresh k sid) r msgs) i) ->
  collision_free k (length msgs + R2.MAX_SKIP) ->
  recv_all2 (R2.fresh k) (map (pkt_at (send_all2 (S2.fresh k sid) r msgs)) order)
  = map (fun i => Ok (snd (nth (i - 1) msgs (0, [])))) order.
Proof.
  intros Hn ND Hs Hcf. apply recv_all2_sent with (bound := (length msgs + R2.MAX_SKIP)%nat); auto.
  apply deliverable_any_order; auto; try lia.
  - intros t Ht. destruct (@sent_honest _ _ _ _ _ (Hs t Ht)) as [_ H]. split; [exact H | right; lia].
  - intros j [].
Qed.

(** X9. V2 delivery in order over any number of messages: the receiver is
    given packages in the order they were made, some missing (lost, or never
    made because [encrypt] failed); as long as no step is more than
    [MAX_SKIP = 100] beyond the one before, every call returns the plaintext
    of its package. *)
Theorem v2_in_order_with_gaps k sid r msgs order :
  gaps_ok 0 order ->
  (forall i, In i order -> sent (send_all2 (S2.fresh k sid) r msgs) i) ->
  collision_free k (length msgs + R2.MAX_SKIP) ->
  recv_all2 (R2.fresh k) (map (pkt_at (send_all2 (S2.fresh k sid) r msgs)) order)
  = map (fun i => Ok (snd (nth (i - 1) msgs (0, [])))) order.
Proof.
  intros Hg Hs Hcf. apply recv_all2_sent with (bound := (length msgs + R2.MAX_SKIP)%nat); auto.
  apply deliverable_gaps; auto; try lia.
  - intros t Ht. destruct (@sent_honest _ _ _ _ _ (Hs t Ht)) as [_ H]. lia.
  - intros j [].
Qed.

(** X10. V2 replay: after the receiver has taken packages in any order (as
    in X8), a package it has already decrypted is refused with
    [UnknownBeacon] when it is given again, and the receiver is exactly as
    before. *)
Theorem v2_replay_is_refused k sid r msgs order t :
  (length msgs <= R2.MAX_SKIP)%nat ->
  NoDup order ->
  (forall i, In i order -> sent (send_all2 (S2.fresh k sid) r msgs) i) ->
  collision_free k (length msgs + R2.MAX_SKIP) ->
  In t order ->
  R2.decrypt (run2 (R2.fresh k) (map (pkt_at (send_all2 (S2.fresh k sid) r msgs)) order))
             (pkt_at (send_all2 (S2.fresh k sid) r msgs) t)
  = (run2 (R2.fresh k) (map (pkt_at (send_all2 (S2.fresh k sid) r msgs)) order),
     Err UnknownBeacon).
Proof.
  intros Hn ND Hs Hcf Ht.
  assert (Hd : deliverable (length msgs + R2.MAX_SKIP) 0 [] order).
  { apply deliverable_any_order; auto; try lia.
    - intros u Hu. destruct (@sent_honest _ _ _ _ _ (Hs u Hu)) as [_ H]. split; [exact H | right; lia].
    - intros j []. }
  rewrite (@run2_sent k sid r msgs order _ Hs Hd Hcf).
  assert (Hnil : forall j, In j (@nil nat) -> (1 <= j <= 0)%nat) by (intros j []).
  destruct (@deliver_invariant _ _ _ _ Hd (NoDup_nil _) Hnil) as (ND' & Hr').
  destruct (@delivered_out _ _ _ _ _ Hd ND (NoDup_nil _) Hnil Ht) as (Hout & Hle).
  assert (Hb : (fst (deliver 0 [] order) <= length msgs)%nat).
  { apply deliver_bound; [|lia]. intros u Hu. destruct (@sent_honest _ _ _ _ _ (Hs u Hu)) as [_ H]. lia. }
  destruct (@sent_honest _ _ _ _ _ (Hs t Ht)) as [Hp Hrange].
  destruct (honest_packet_opens Hp) as (Hlen & Hbeacon & _).
  apply (@R2_decrypt_unknown k k (length msgs + R2.MAX_SKIP)%nat _ _ t); auto; try lia.
  intro H. apply in_app_or in H. destruct H as [H|H]; [contradiction|].
  apply in_seq in H. lia.
Qed.

(** X11. The V2 window: a receiver that has decrypted the packages of the
    steps [1..s] in order cannot open a package more than [MAX_SKIP = 100]
    steps ahead; the call fails with [UnknownBeacon] and leaves the receiver
    as it was.  With [s = 0]: a fresh receiver cannot open the package of
    step 101 or later. *)
Theorem v2_beyond_the_window k sid r msgs s t :
  (forall i, (1 <= i <= s)%nat -> sent (send_all2 (S2.fresh k sid) r msgs) i) ->
  sent (send_all2 (S2.fresh k sid) r msgs) t ->
  (s + R2.MAX_SKIP < t)%nat ->
  collision_free k (length msgs) ->
  R2.decrypt (run2 (R2.fresh k)
                (map (pkt_at (send_all2 (S2.fresh k sid) r msgs)) (seq 1 s)))
             (pkt_at (send_all2 (S2.fresh k sid) r msgs) t)
  = (run2 (R2.fresh k) (map (pkt_at (send_all2 (S2.fresh k sid) r msgs)) (seq 1 s)),
     Err UnknownBeacon).
Proof.
  intros Hs Ht Hfar Hcf.
  destruct (@sent_honest _ _ _ _ _ Ht) as [Hp Hrange].
  destruct (honest_packet_opens Hp) as (Hlen & Hbeacon & _).
  assert (Hs' : forall i, In i (seq 1 s) -> sent (send_all2 (S2.fresh k sid) r msgs) i)
    by (intros i Hi; apply Hs; apply in_seq in Hi; lia).
  assert (Hd : deliverable (length msgs) 0 [] (seq 1 s))
    by (apply deliverable_in_order; lia).
  rewrite (@run2_sent k sid r msgs (seq 1 s) _ Hs' Hd Hcf), deliver_in_order. cbn [fst snd Nat.add].
  apply (@R2_decrypt_unknown k k (length msgs) s [] t); auto; try lia.
  - constructor.
  - intros j [].
  - cbn [app]. intro H. apply in_seq in H. lia.
Qed.

(** X12. Healing: whatever state a V2 sender and a V2 receiver are in, if
    they hold the same root key and both call [refresh_root] with the same
    entropy, they are in step again on the chain of the new root key: the
    packages the sender makes afterwards (at most 100, any of them, in any
    order) are decrypted to their plaintexts. *)
Theorem v2_refresh_root_heals ss rs e r msgs order :
  S2.root_key ss = R2.root_key rs ->
  (length msgs <= R2.MAX_SKIP)%nat ->
  NoDup order ->
  (forall i, In i order -> sent (send_all2 (S2.refresh_root ss e) r msgs) i) ->
  collision_free (HKDF (R2.root_key rs ++ e) V2.AES_KEY_SIZE None V2.ROOT_REFRESH)
                 (length msgs + R2.MAX_SKIP) ->
  recv_all2 (R2.refresh_root rs e)
            (map (pkt_at (send_all2 (S2.refresh_root ss e) r msgs)) order)
  = map (fun i => Ok (snd (nth (i - 1) msgs (0, [])))) order.
Proof.
  intros Hroot Hn ND Hs Hcf.
  set (root' := HKDF (R2.root_key rs ++ e) V2.AES_KEY_SIZE None V2.ROOT_REFRESH) in *.
  assert (Es : S2.refresh_root ss e = S2.fresh root' (S2.sender_id ss))
    by (unfold S2.refresh_root, S2.fresh, root'; now rewrite Hroot).
  assert (Er : R2.refresh_root rs e = R2.fresh root') by reflexivity.
  rewrite Es in *. rewrite Er.
  apply recv_all2_sent with (bound := (length msgs + R2.MAX_SKIP)%nat); auto.
  apply deliverable_any_order; auto; try lia.
  - intros t Ht. destruct (@sent_honest _ _ _ _ _ (Hs t Ht)) as [_ H]. split; [exact H | right; lia].
  - intros j [].
Qed.
End V2Delivery.

(** * The V2 frame: header, lengths and capacity *)

Lemma hex_pair_escaped c :
  length (flat_map json_escape_char
            [Byte.to_N (hexdig (Byte.to_N c / 16)); Byte.to_N (hexdig (Byte.to_N c mod 16))]%N)
  = 2%nat.
Proof. destruct c; vm_compute; reflexivity. Qed.

Lemma hex_string_escaped (u : bytes) :
  length (flat_map json_escape_char
            (flat_map (fun c => [Byte.to_N (hexdig (Byte.to_N c / 16));
                                 Byte.to_N (hexdig (Byte.to_N c mod 16))]%N) u))
  = (2 * length u)%nat.
Proof.
  induction u as [|c u IH]; [reflexivity|].
  cbn [flat_map]. rewrite flat_map_app, length_app, IH.
  change (length (flat_map json_escape_char _ ) + 2 * length u = 2 * length (c :: u))%nat
    with (length (flat_map json_escape_char
            [Byte.to_N (hexdig (Byte.to_N c / 16)); Byte.to_N (hexdig (Byte.to_N c mod 16))]%N)
          + 2 * length u = 2 * S (length u))%nat.
  rewrite hex_pair_escaped. lia.
Qed.

Lemma uuid4_8_dumped r : len (json_dumps_str (fst (uuid4_8 r))) = 10.
Proof.
  unfold uuid4_8. pose proof (urandom_length r 16) as Hl.
  destruct (urandom r 16) as [u r1]. cbn [fst] in *.
  unfold json_dumps_str, len. rewrite !length_app, hex_string_escaped, length_firstn, Hl.
  reflexivity.
Qed.

Lemma header_length sid n t r :
  len (V2.header_bytes sid n t (fst (uuid4_8 r)))
  = 38 + len (json_dumps_str sid) + len (json_dumps_int n) + len (json_dumps_int t).
Proof.
  unfold V2.header_bytes. rewrite !len_app, uuid4_8_dumped.
  change (len (lit "{")) with 1. change (len (lit "}")) with 1.
  change (len (lit ": ")) with 2. change (len (lit ", ")) with 2.
  change (len (json_dumps_str (str_of_bytes (lit "s")))) with 3.
  change (len (json_dumps_str (str_of_bytes (lit "n")))) with 3.
  change (len (json_dumps_str (str_of_bytes (lit "t")))) with 3.
  change (len (json_dumps_str (str_of_bytes (lit "i")))) with 3.
  lia.
Qed.

Section V2Frame.
Context {L : Lib}.

(** X13. [_unpack] reads the frame [encrypt] packs, whatever the padding:
    from [len(header) || header || len(message) || message || padding] it
    returns the message when the header parses, and fails with
    [HeaderError] when it does not. *)
Theorem unpack_reads_the_frame header m pad hl ml :
  to_bytes4 (len header) = Some hl ->
  to_bytes4 (len m) = Some ml ->
  (json_header_ok header = true ->
   R2._unpack (Some (hl ++ header ++ ml ++ m ++ pad)) = Ok m) /\
  (json_header_ok header = false ->
   R2._unpack (Some (hl ++ header ++ ml ++ m ++ pad)) = Err HeaderError).
Proof.
  intros Hhl Hml.
  destruct (to_bytes4_spec _ Hhl) as (Lhl & Ihl & _).
  destruct (to_bytes4_spec _ Hml) as (Lml & Iml & _).
  unfold R2._unpack.
  rewrite (@slice_head hl (header ++ ml ++ m ++ pad) 4)
    by (unfold len; rewrite Lhl; reflexivity).
  rewrite Ihl.
  rewrite (@slice_mid hl header (ml ++ m ++ pad) 4 (4 + len header))
    by (unfold len; rewrite ?Lhl; lia).
  split; intros ->; [|reflexivity].
  replace (hl ++ header ++ ml ++ m ++ pad) with ((hl ++ header) ++ ml ++ m ++ pad)
    by (now rewrite <- app_assoc).
  rewrite (@slice_mid (hl ++ header) ml (m ++ pad) (4 + len header) (4 + len header + 4))
    by (rewrite ?len_app; unfold len; rewrite ?Lhl, ?Lml; lia).
  rewrite Iml.
  replace ((hl ++ header) ++ ml ++ m ++ pad) with (((hl ++ header) ++ ml) ++ m ++ pad)
    by (now rewrite <- !app_assoc).
  rewrite (@slice_mid ((hl ++ header) ++ ml) m pad)
    by (rewrite ?len_app; unfold len; rewrite ?Lhl, ?Lml; lia).
  reflexivity.
Qed.

(** X14. How much the V2 [encrypt] takes: the hidden header has
    [38 + len(json(sender_id)) + digits(step) + digits(clock)] bytes, and a
    plaintext is refused with [PayloadTooLarge] exactly when it is longer
    than what the header and the two length fields leave of the 512 bytes;
    any shorter plaintext gives a package. *)
Theorem v2_capacity st now r pt :
  len pt < 2 ^ 32 ->
  len (json_dumps_str (S2.sender_id st)) + len (json_dumps_int (S2.step st + 1))
  + len (json_dumps_int now) < 2 ^ 31 ->
  len (next_header st now r)
  = 38 + len (json_dumps_str (S2.sender_id st)) + len (json_dumps_int (S2.step st + 1))
    + len (json_dumps_int now) /\
  (snd (S2.encrypt st now r pt) = Err PayloadTooLarge
   <-> capacity (S2.sender_id st) (S2.step st + 1) now < len pt) /\
  (len pt <= capacity (S2.sender_id st) (S2.step st + 1) now ->
   exists pkg, snd (S2.encrypt st now r pt) = Ok pkg).
Proof.
  intros H1 H2.
  pose proof (header_length (S2.sender_id st) (S2.step st + 1) now r) as Hh.
  fold (next_header st now r) in Hh.
  split; [exact Hh|].
  destruct (@to_bytes4_some (len pt)) as [ml Eml]; [split; [unfold len; lia | exact H1]|].
  destruct (@to_bytes4_some (len (next_header st now r))) as [hl Ehl];
    [split; [unfold len; lia | rewrite Hh; lia]|].
  destruct (to_bytes4_spec _ Eml) as (Lml & _). destruct (to_bytes4_spec _ Ehl) as (Lhl & _).
  pose proof (@content_length hl (next_header st now r) ml pt Lhl Lml) as Hc.
  rewrite S2_encrypt_eq. cbv zeta. rewrite Eml, Ehl, Hc.
  unfold capacity. rewrite <- Hh.
  destruct (Z_gt_le_dec (8 + len (next_header st now r) + len pt) V2.FIXED_PAYLOAD_SIZE)
    as [Hgt|Hle].
  - rewrite (gtb_true Hgt). cbn [snd]. split.
    + split; [intros _; lia | reflexivity].
    + intro H. lia.
  - rewrite (gtb_false Hle). cbn [snd]. split.
    + split; [discriminate | intro H; lia].
    + intros _. eauto.
Qed.
End V2Frame.

(** * The key loader *)

Lemma lstrip_spaces pre s :
  Forall (fun c => Ref.is_space c = true) pre -> Ref.lstrip (pre ++ s) = Ref.lstrip s.
Proof.
  induction 1 as [|c pre Hc _ IH]; [reflexivity|]. cbn [app Ref.lstrip]. now rewrite Hc.
Qed.

Lemma lstrip_head c s : Ref.is_space c = false -> Ref.lstrip (c :: s) = c :: s.
Proof. intro H. cbn [Ref.lstrip]. now rewrite H. Qed.

Lemma lstrip_all pre :
  Forall (fun c => Ref.is_space c = true) pre -> Ref.lstrip pre = [].
Proof. induction 1 as [|c pre Hc _ IH]; [reflexivity|]. cbn [Ref.lstrip]. now rewrite Hc. Qed.

(** The string between the spaces starts and ends with something else. *)
Lemma strip_between pre post c mid d :
  Forall (fun c => Ref.is_space c = true) pre ->
  Forall (fun c => Ref.is_space c = true) post ->
  Ref.is_space c = false -> Ref.is_space d = false ->
  strip (pre ++ (c :: mid ++ [d]) ++ post) = c :: mid ++ [d].
Proof.
  intros Hpre Hpost Hc Hd. unfold strip.
  rewrite lstrip_spaces by assumption. cbn [app]. rewrite lstrip_head by assumption.
  replace (c :: (mid ++ [d]) ++ post) with ((c :: mid) ++ d :: post)
    by (cbn; now rewrite <- app_assoc).
  rewrite rev_app_distr. cbn [rev]. rewrite <- app_assoc. cbn [app].
  rewrite lstrip_spaces by (apply Forall_rev; assumption).
  rewrite lstrip_head by assumption.
  change (d :: rev mid ++ [c]) with ([d] ++ rev (c :: mid)).
  rewrite rev_app_distr, rev_involutive. reflexivity.
Qed.

Lemma hex_pair_plain c :
  Ref.is_space (Byte.to_N (hexdig (Byte.to_N c / 16))) = false /\
  Ref.is_space (Byte.to_N (hexdig (Byte.to_N c mod 16))) = false.
Proof. destruct c; split; vm_compute; reflexivity. Qed.

Lemma fromhex_pair c s :
  fromhex (Byte.to_N (hexdig (Byte.to_N c / 16)) :: Byte.to_N (hexdig (Byte.to_N c mod 16)) :: s)
  = match fromhex s with Some rest => Some (c :: rest) | None => None end.
Proof. destruct c; reflexivity. Qed.

Lemma fromhex_hex_of x s :
  fromhex (hex_of x ++ s) = match fromhex s with Some rest => Some (x ++ rest) | None => None end.
Proof.
  induction x as [|c x IH]; [cbn; now destruct (fromhex s)|].
  cbn [hex_of flat_map app]. fold (hex_of x). rewrite fromhex_pair, IH.
  now destruct (fromhex s).
Qed.

Lemma hex_of_length x : length (hex_of x) = (2 * length x)%nat.
Proof. induction x as [|c x IH]; [reflexivity|]. cbn [hex_of flat_map app length] in *. fold (hex_of x). lia. Qed.

Lemma hex_of_app x y : hex_of (x ++ y) = hex_of x ++ hex_of y.
Proof. unfold hex_of. apply flat_map_app. Qed.

(** A hex string of at least one byte, seen from both ends. *)
Lemma hex_of_ends x :
  x <> [] ->
  exists c mid d, hex_of x = c :: mid ++ [d] /\
                  Ref.is_space c = false /\ Ref.is_space d = false.
Proof.
  intro Hx. destruct x as [|a x]; [contradiction|].
  destruct (@exists_last _ (a :: x)) as (x' & z & E); [discriminate|].
  destruct (hex_pair_plain a) as [Ha _]. destruct (hex_pair_plain z) as [_ Hz].
  exists (Byte.to_N (hexdig (Byte.to_N a / 16))).
  assert (Hh : hex_of (a :: x) = hex_of x' ++ [Byte.to_N (hexdig (Byte.to_N z / 16))]
                                 ++ [Byte.to_N (hexdig (Byte.to_N z mod 16))])
    by (rewrite E, hex_of_app; reflexivity).
  cbn [hex_of flat_map app] in Hh |- *. fold (hex_of x) in *.
  exists (removelast (Byte.to_N (hexdig (Byte.to_N a mod 16)) :: hex_of x)),
    (Byte.to_N (hexdig (Byte.to_N z mod 16))).
  split; [|auto]. f_equal.
  assert (Hl : last (Byte.to_N (hexdig (Byte.to_N a mod 16)) :: hex_of x) 0%N
               = Byte.to_N (hexdig (Byte.to_N z mod 16))).
  { change (Byte.to_N (hexdig (Byte.to_N a mod 16)) :: hex_of x)
      with (tl (Byte.to_N (hexdig (Byte.to_N a / 16))
                  :: Byte.to_N (hexdig (Byte.to_N a mod 16)) :: hex_of x)).
    rewrite Hh. destruct (hex_of x') as [|h1 t1].
    - reflexivity.
    - cbn [app tl]. change (t1 ++ [Byte.to_N (hexdig (Byte.to_N z / 16));
                                  Byte.to_N (hexdig (Byte.to_N z mod 16))])
        with (t1 ++ [Byte.to_N (hexdig (Byte.to_N z / 16))]
                 ++ [Byte.to_N (hexdig (Byte.to_N z mod 16))]).
      rewrite app_assoc. apply last_last. }
  rewrite <- Hl. apply app_removelast_last. discriminate.
Qed.

Lemma fromhex_length n : forall s x,
  (length s <= n)%nat -> fromhex s = Some x ->
  length s = (2 * length x + length (filter hex_space s))%nat.
Proof.
  induction n as [|n IH]; intros s x Hn H.
  - destruct s; [|cbn in Hn; lia]. cbn in H. injection H as <-. reflexivity.
  - destruct s as [|c r]; [cbn in H; injection H as <-; reflexivity|].
    cbn [fromhex] in H. cbn [filter]. destruct (hex_space c) eqn:Ec.
    + cbn [length] in *. rewrite (IH r x) at 1 by (assumption || lia). lia.
    + destruct (hex_val c) as [top|]; [|discriminate].
      destruct r as [|d r']; [discriminate|].
      destruct (hex_val d) as [bot|] eqn:Ed; [|discriminate].
      destruct (fromhex r') as [rest|] eqn:Er; [|discriminate].
      injection H as <-.
      assert (Hd : hex_space d = false).
      { unfold hex_val in Ed. unfold hex_space.
        destruct ((9 <=? d) && (d <=? 13))%N eqn:E1; [|destruct (d =? 32)%N eqn:E2; [|reflexivity]].
        - apply andb_true_iff in E1. destruct E1 as [E1 E1']. apply N.leb_le in E1, E1'.
          replace ((48 <=? d) && (d <=? 57))%N with false in Ed
            by (symmetry; apply andb_false_iff; left; apply N.leb_gt; lia).
          replace ((97 <=? d) && (d <=? 102))%N with false in Ed
            by (symmetry; apply andb_false_iff; left; apply N.leb_gt; lia).
          replace ((65 <=? d) && (d <=? 70))%N with false in Ed
            by (symmetry; apply andb_false_iff; left; apply N.leb_gt; lia).
          discriminate.
        - apply N.eqb_eq in E2. subst d. discriminate. }
      cbn [filter length] in *. rewrite Hd.
      rewrite (IH r' rest) at 1 by (assumption || lia). lia.
Qed.

Section KeyLoaderFacts.
Variable b64decode : str -> option bytes.

(** X15. [smart_load_secret] reads back the 64 hexadecimal digits that
    [bytes.hex()] prints for a 32-byte secret, with any whitespace around
    them. *)
Theorem smart_load_secret_reads_hex k pre post :
  length k = 32%nat ->
  Forall (fun c => Ref.is_space c = true) pre ->
  Forall (fun c => Ref.is_space c = true) post ->
  smart_load_secret b64decode (pre ++ hex_of k ++ post) = Some k.
Proof.
  intros Hk Hpre Hpost.
  destruct (@hex_of_ends k) as (c & mid & d & E & Hc & Hd);
    [intros ->; discriminate|].
  unfold smart_load_secret. cbv zeta. rewrite E.
  rewrite (@strip_between pre post c mid d Hpre Hpost Hc Hd), <- E.
  rewrite hex_of_length, Hk. cbn [Nat.mul Nat.add Nat.eqb].
  rewrite <- (app_nil_r (hex_of k)), fromhex_hex_of. cbn [fromhex].
  now rewrite app_nil_r.
Qed.

(** X16. What [smart_load_secret] returns is never longer than 32 bytes,
    and is shorter only when the input has 64 characters with whitespace
    among its hexadecimal digits; and that does happen: a 31-byte string
    whose 62 digits are written with two spaces between them is returned as
    the secret. *)
Theorem smart_load_secret_length :
  (forall s k,
      smart_load_secret b64decode s = Some k ->
      (length k <= 32)%nat /\
      (length k = 32%nat \/
       (length (strip s) = 64%nat /\ exists c, In c (strip s) /\ hex_space c = true))) /\
  (forall a b,
      a <> [] -> b <> [] -> (length a + length b = 31)%nat ->
      smart_load_secret b64decode (hex_of a ++ [32; 32]%N ++ hex_of b) = Some (a ++ b)).
Proof.
  split.
  - intros s k. unfold smart_load_secret. cbv zeta.
    destruct (length (strip s) =? 64)%nat eqn:E64.
    + apply Nat.eqb_eq in E64. intro H.
      pose proof (@fromhex_length _ (strip s) k (Nat.le_refl _) H) as Hl.
      rewrite E64 in Hl. split; [lia|].
      destruct (filter hex_space (strip s)) as [|c f] eqn:Ef.
      * left. cbn in Hl. lia.
      * right. split; [exact E64|]. exists c.
        assert (Hin : In c (filter hex_space (strip s))) by (rewrite Ef; now left).
        apply filter_In in Hin. exact Hin.
    + destruct ((length (strip s) =? 44)%nat || endswith_eq (strip s)); [|discriminate].
      destruct (b64decode (strip s)) as [decoded|]; [|discriminate].
      destruct (length decoded =? 32)%nat eqn:E32; [|discriminate].
      apply Nat.eqb_eq in E32. intros [= <-]. split; [lia | now left].
  - intros a b Ha Hb Hlen.
    destruct (@hex_of_ends a Ha) as (c & mid & d & E & Hc & _).
    destruct (@hex_of_ends b Hb) as (c' & mid' & d' & E' & _ & Hd').
    unfold smart_load_secret. cbv zeta.
    assert (Es : strip (hex_of a ++ [32; 32]%N ++ hex_of b) = hex_of a ++ [32; 32]%N ++ hex_of b).
    { rewrite E, E'.
      replace ((c :: mid ++ [d]) ++ [32; 32]%N ++ c' :: mid' ++ [d'])
        with ([] ++ (c :: (mid ++ [d] ++ [32; 32]%N ++ c' :: mid') ++ [d']) ++ [])
        by (cbn; rewrite app_nil_r, <- !app_assoc; reflexivity).
      rewrite (@strip_between [] [] c (mid ++ [d] ++ [32; 32]%N ++ c' :: mid') d'
                 (Forall_nil _) (Forall_nil _) Hc Hd').
      cbn. rewrite <- !app_assoc. reflexivity. }
    rewrite Es, !length_app, !hex_of_length. cbn [length].
    replace (2 * length a + (2 + 2 * length b))%nat with 64%nat by lia. cbn [Nat.eqb].
    rewrite fromhex_hex_of. cbn [app fromhex hex_space].
    change (((9 <=? 32) && (32 <=? 13) || (32 =? 32))%N) with true. cbv iota.
    rewrite <- (app_nil_r (hex_of b)), fromhex_hex_of. cbn [fromhex].
    now rewrite app_nil_r.
Qed.
End KeyLoaderFacts.

(** * The step number in the V1 AAD *)

Lemma utf8_ascii (x : bytes) (r : list N) :
  Forall (fun c => (Byte.to_N c < 128)%N) x ->
  Ref.utf8_ignore (map Byte.to_N x ++ r) = map Byte.to_N x ++ Ref.utf8_ignore r.
Proof.
  induction 1 as [|c x Hc _ IH]; [reflexivity|].
  cbn [map app Ref.utf8_ignore]. apply N.ltb_lt in Hc. rewrite Hc. now rewrite IH.
Qed.

Lemma str_prefix_straddle c P X :
  str_prefix [115; 101; 113; 58]%N (c :: P) = false ->
  str_prefix [115; 101; 113; 58]%N (c :: P ++ [115; 101; 113; 58]%N ++ X) = false.
Proof.
  destruct P as [|c1 [|c2 [|c3 P3]]]; cbn; intro H;
    rewrite ?andb_false_r; auto.
Qed.

Lemma after_first_seq P X :
  after_first [115; 101; 113; 58]%N P = None ->
  after_first [115; 101; 113; 58]%N (P ++ [115; 101; 113; 58]%N ++ X) = Some X.
Proof.
  induction P as [|c P IH]; intro H; [reflexivity|].
  cbn [after_first] in H.
  destruct (str_prefix [115; 101; 113; 58]%N (c :: P)) eqn:E; [discriminate|].
  change ((c :: P) ++ [115; 101; 113; 58]%N ++ X)
    with (c :: (P ++ [115; 101; 113; 58]%N ++ X)).
  cbn [after_first]. rewrite (str_prefix_straddle _ _ _ E). now apply IH.
Qed.

Lemma before_first_skip s0 sep D X :
  Forall (fun c => c <> s0) D ->
  before_first (s0 :: sep) (D ++ X) = D ++ before_first (s0 :: sep) X.
Proof.
  induction 1 as [|c D Hc _ IH]; [reflexivity|].
  cbn [app before_first str_prefix].
  replace (s0 =? c)%N with false by (symmetry; apply N.eqb_neq; congruence).
  cbn [andb]. now rewrite IH.
Qed.

Lemma decimal_ascii c : is_digit c -> Ref.decimal c = Some (c - 48)%N.
Proof.
  unfold is_digit. intro H. unfold Ref.decimal, Ref.decimal_zeros. cbn [Ref.decimal_in].
  replace ((48 <=? c) && (c <? 48 + 10))%N with true; [reflexivity|].
  symmetry. apply andb_true_iff. split; [apply N.leb_le | apply N.ltb_lt]; lia.
Qed.

Lemma dec_digits_nonempty fuel : forall n acc,
  fuel <> O -> dec_digits fuel n acc <> [].
Proof.
  induction fuel as [|fuel IH]; intros n acc Hf; [contradiction|].
  cbn [dec_digits]. destruct (n <? 10)%N; [discriminate|].
  destruct fuel as [|fuel']; [discriminate|]. apply IH. discriminate.
Qed.

Lemma digits_dec_digits fuel : forall n acc b,
  (n < 2 ^ N.of_nat fuel)%N -> fuel <> O ->
  Ref.digits (map Byte.to_N (dec_digits fuel n acc)) 0 b
  = Ref.digits (map Byte.to_N acc) (Z.of_N n) true.
Proof.
  induction fuel as [|fuel IH]; intros n acc b Hn Hf; [contradiction|].
  cbn [dec_digits].
  assert (Hm : (n mod 10 < 10)%N) by (apply N.mod_lt; discriminate).
  pose proof (hexdig_decimal Hm) as Hd.
  assert (Hq : n = (10 * (n / 10) + n mod 10)%N) by (apply N.div_mod; discriminate).
  assert (Hr : Ref.decimal (48 + n mod 10) = Some (n mod 10)%N).
  { rewrite decimal_ascii by (unfold is_digit; generalize dependent (n mod 10)%N; intros; lia).
    f_equal. generalize dependent (n mod 10)%N. intros. lia. }
  destruct (n <? 10)%N eqn:E.
  - apply N.ltb_lt in E. cbn [map Ref.digits]. rewrite Hd, Hr.
    rewrite N.mod_small by assumption. f_equal.
  - apply N.ltb_ge in E.
    assert (Hfuel : fuel <> O).
    { intros ->. cbn in Hn. lia. }
    rewrite IH; [| |exact Hfuel].
    + cbn [map Ref.digits]. rewrite Hd, Hr.
      f_equal. generalize dependent (n mod 10)%N. generalize dependent (n / 10)%N.
      intros. lia.
    + rewrite Nat2N.inj_succ, N.pow_succ_r' in Hn.
      generalize dependent (n mod 10)%N. generalize dependent (n / 10)%N.
      intros. lia.
Qed.

Lemma json_dumps_int_digits n :
  0 <= n ->
  Forall (fun c => is_digit (Byte.to_N c)) (json_dumps_int n) /\
  json_dumps_int n <> [] /\
  Ref.digits (map Byte.to_N (json_dumps_int n)) 0 false = Some n.
Proof.
  intro Hn. destruct n as [|p|p]; [| |lia].
  - split; [repeat constructor; unfold is_digit; cbn; lia|]. split; [discriminate | reflexivity].
  - unfold json_dumps_int.
    assert (Hf : N.size_nat (N.pos p) <> O) by (cbn; destruct p; discriminate).
    split; [apply dec_digits_are_digits; constructor|].
    split; [now apply dec_digits_nonempty|].
    rewrite digits_dec_digits; [reflexivity | | exact Hf].
    apply pos_lt_pow_size.
Qed.

Lemma is_digit_plain c : is_digit c -> Ref.int_space c = false.
Proof.
  intro H. apply is_digit_cases in H.
  repeat (destruct H as [->|H]; [reflexivity|]). subst c. reflexivity.
Qed.

Lemma filter_decimal_digits s : Forall is_digit s -> filter Ref.is_decimal s = s.
Proof.
  induction 1 as [|c s Hc _ IH]; [reflexivity|].
  cbn [filter]. unfold Ref.is_decimal at 1. rewrite (decimal_ascii Hc), IH. reflexivity.
Qed.

(** [int] of a text of ASCII digits, not too many of them. *)
Lemma int_of_str_digits s :
  Forall is_digit s -> s <> [] -> Z.of_nat (length s) <= Ref.MAX_STR_DIGITS ->
  Ref.int_of_str s = Ref.digits s 0 false.
Proof.
  intros Hs Hne Hlen. unfold Ref.int_of_str.
  assert (Hl : forall t, Forall is_digit t -> Ref.lstrip_int t = t).
  { intros [|c t] Ht; [reflexivity|]. inversion Ht; subst.
    cbn [Ref.lstrip_int]. now rewrite is_digit_plain. }
  rewrite (Hl s Hs), (Hl (rev s)) by (apply Forall_rev; assumption).
  rewrite rev_involutive. destruct s as [|c t]; [contradiction|].
  assert (Hu : Ref.unsigned_int (c :: t) = Ref.digits (c :: t) 0 false).
  { unfold Ref.unsigned_int. rewrite (filter_decimal_digits Hs).
    replace (Ref.MAX_STR_DIGITS <? Z.of_nat (length (c :: t))) with false
      by (symmetry; apply Z.ltb_ge; exact Hlen).
    reflexivity. }
  inversion Hs as [|? ? Hc _]; subst. unfold is_digit in Hc.
  replace (c =? 43)%N with false by (symmetry; apply N.eqb_neq; lia).
  replace (c =? 45)%N with false by (symmetry; apply N.eqb_neq; lia).
  exact Hu.
Qed.

(** X17. The step number the V1 receiver reads from an AAD is the one the
    sender's format writes: for an AAD [pre + "seq:" + str(n) + tail] with
    [pre] in ASCII and without ["seq:"], [n >= 0] of at most 4300 digits
    (beyond which [int] raises), and [tail] empty or starting with ["|"] (as
    in ["sender:Test|seq:3|ts:12345678"] and ["seq:3"]), the target step is
    [n]; the first ["seq:"] field decides, whatever follows it. *)
Theorem v1_aad_carries_the_step pre n tail :
  Forall (fun c => (Byte.to_N c < 128)%N) pre ->
  after_first (str_of_bytes (lit "seq:")) (str_of_bytes pre) = None ->
  0 <= n ->
  len (json_dumps_int n) <= Ref.MAX_STR_DIGITS ->
  tail = [] \/ (exists rest, tail = lit "|" ++ rest) ->
  R1.aad_seq (L := pylib) (Some (pre ++ lit "seq:" ++ json_dumps_int n ++ tail)) = Some n.
Proof.
  intros Hpre Hno Hn Hmax Htail.
  destruct (json_dumps_int_digits Hn) as (Hd & Hne & Hval).
  set (D := json_dumps_int n) in *.
  assert (HdN : Forall is_digit (map Byte.to_N D)).
  { apply Forall_forall. intros c Hc. apply in_map_iff in Hc. destruct Hc as (b & <- & Hb).
    rewrite Forall_forall in Hd. now apply Hd. }
  assert (Hdec : exists T,
             decode_utf8_ignore (Lib := pylib) (pre ++ lit "seq:" ++ D ++ tail)
             = map Byte.to_N pre ++ [115; 101; 113; 58]%N ++ map Byte.to_N D ++ T /\
             (T = [] \/ exists Y, T = 124%N :: Y)).
  { cbn [decode_utf8_ignore pylib]. rewrite !map_app.
    rewrite utf8_ascii by assumption.
    change (map Byte.to_N (lit "seq:")) with (map Byte.to_N [x73; x65; x71; x3a]).
    rewrite (@utf8_ascii [x73; x65; x71; x3a]) by (repeat constructor).
    rewrite utf8_ascii.
    2:{ apply Forall_forall. intros c Hc. rewrite Forall_forall in Hd.
        specialize (Hd c Hc). unfold is_digit in Hd. lia. }
    destruct Htail as [->|[rest ->]].
    - exists []. split; [reflexivity | now left].
    - exists (124%N :: Ref.utf8_ignore (map Byte.to_N rest)). split; [reflexivity | right; eauto]. }
  destruct Hdec as (T & Edec & HT).
  unfold R1.aad_seq.
  destruct (pre ++ lit "seq:" ++ D ++ tail) as [|a0 a] eqn:Ea.
  { apply app_eq_nil in Ea. destruct Ea as [_ Ea]. discriminate Ea. }
  rewrite Edec.
  change (str_of_bytes (lit "seq:")) with [115; 101; 113; 58]%N in *.
  change (str_of_bytes (lit "|")) with [124]%N.
  unfold str_of_bytes in Hno.
  rewrite (@after_first_seq (map Byte.to_N pre) (map Byte.to_N D ++ T) Hno).
  assert (Hs : Forall (fun c => c <> 115%N) (map Byte.to_N D)).
  { eapply Forall_impl; [|exact HdN]. unfold is_digit. intros c Hc. lia. }
  assert (Hb : Forall (fun c => c <> 124%N) (map Byte.to_N D)).
  { eapply Forall_impl; [|exact HdN]. unfold is_digit. intros c Hc. lia. }
  rewrite (@before_first_skip 115%N [101; 113; 58]%N (map Byte.to_N D) T Hs).
  assert (Eparts : before_first [124]%N
                     (map Byte.to_N D ++ before_first [115; 101; 113; 58]%N T)
                   = map Byte.to_N D).
  { rewrite (@before_first_skip 124%N [] (map Byte.to_N D) _ Hb).
    destruct HT as [->|[Y ->]]; cbn; now rewrite app_nil_r. }
  rewrite Eparts. cbn [py_int pylib].
  rewrite int_of_str_digits; [exact Hval | exact HdN | |].
  - intro E. apply map_eq_nil in E. contradiction.
  - rewrite length_map. exact Hmax.
Qed.

(** * Concrete runs of the further properties *)

Lemma v1_decrypt_failures_witness :
  ((MalformedPacket = ReplayOrStale \/ MalformedPacket = SkipTooLarge
    \/ MalformedPacket = SkipStoreOverflow) /\
   fst (R1.decrypt (L := pylib) (R1.fresh k0) (repeat x00 10) None) = R1.fresh k0) \/
  (((MalformedPacket = MalformedPacket /\ len (repeat x00 10) < 44) \/
    (MalformedPacket = AuthFailure /\ 44 <= len (repeat x00 10))) /\
   fst (R1.decrypt (L := pylib) (R1.fresh k0) (repeat x00 10) None) <> R1.fresh k0).
Proof.
  apply (@v1_decrypt_failures pylib (R1.fresh k0) (repeat x00 10) None).
  vm_compute. reflexivity.
Defined.

Lemma v1_out_of_order_round_trip_witness :
  recv_all1 (L := pylib) (R1.fresh k0)
    (map (fun i => (nth (i - 1) (send_all1 (L := pylib) (S1.fresh k0) rng0 msgs_test) [],
                    snd (nth (i - 1) msgs_test ([], None)))) [3; 1; 2]%nat)
  = map (fun i => Ok (fst (nth (i - 1) msgs_test ([], None)))) [3; 1; 2]%nat.
Proof.
  apply (@v1_out_of_order_round_trip pylib pylib_laws k0 rng0 msgs_test [3; 1; 2]%nat).
  - intros [|[|[|i]]] Hi; [vm_compute; reflexivity .. | cbn in Hi; lia].
  - vm_compute. discriminate.
  - repeat constructor; cbn; intuition lia.
  - intros i Hi. cbn in Hi |- *. lia.
Defined.

Lemma v1_message_round_trip_witness :
  len (fst (V1.encrypt_message (L := pylib) k0 (lit "hi") None rng0)) = len (lit "hi") + 44 /\
  pos (snd (V1.encrypt_message (L := pylib) k0 (lit "hi") None rng0)) = (pos rng0 + 28)%nat /\
  V1.decrypt_message (L := pylib) k0
    (fst (V1.encrypt_message (L := pylib) k0 (lit "hi") None rng0)) None = Ok (lit "hi").
Proof. exact (@v1_message_round_trip pylib pylib_laws k0 (lit "hi") None rng0). Defined.

Lemma v2_decrypt_failures_witness :
  (MalformedPacket = MalformedPacket /\ len (repeat x00 10) < 44 /\ R2.fresh (L := pylib) k0 = R2.fresh k0) \/
  (MalformedPacket = UnknownBeacon /\ 44 <= len (repeat x00 10) /\ R2.fresh (L := pylib) k0 = R2.fresh k0) \/
  ((MalformedPacket = AuthFailure \/ MalformedPacket = HeaderError) /\
   44 <= len (repeat x00 10) /\ R2.fresh (L := pylib) k0 <> R2.fresh k0 /\
   exists key sq,
     dict_get bytes_eqb (firstn 16 (repeat x00 10)) (R2.lookup_cache (R2.fresh (L := pylib) k0))
     = Some (key, sq)).
Proof.
  apply (@v2_decrypt_failures pylib (R2.fresh k0) (repeat x00 10) (R2.fresh k0) MalformedPacket).
  reflexivity.
Defined.

Lemma v2_delivery_with_losses_witness :
  recv_all2 (L := pylib) (R2.fresh k0)
    (map (pkt_at (send_all2 (L := pylib) (S2.fresh k0 user) rng0 msgs_gap)) [3; 1]%nat)
  = [Ok (lit "third"); Ok (lit "first")].
Proof.
  apply (@v2_delivery_with_losses pylib pylib_laws k0 user rng0 msgs_gap [3; 1]%nat).
  - cbn. unfold R2.MAX_SKIP. lia.
  - repeat constructor; cbn; intuition lia.
  - intros i [<-|[<-|[]]]; apply sentb_sent; vm_compute; reflexivity.
  - exact pylib_collision_free.
Defined.

Lemma v2_in_order_with_gaps_witness :
  recv_all2 (L := pylib) (R2.fresh k0)
    (map (pkt_at (send_all2 (L := pylib) (S2.fresh k0 user) rng0 msgs_gap)) [1; 3]%nat)
  = [Ok (lit "first"); Ok (lit "third")].
Proof.
  apply (@v2_in_order_with_gaps pylib pylib_laws k0 user rng0 msgs_gap [1; 3]%nat).
  - cbn. unfold R2.MAX_SKIP. lia.
  - intros i [<-|[<-|[]]]; apply sentb_sent; vm_compute; reflexivity.
  - exact pylib_collision_free.
Defined.

Lemma v2_replay_is_refused_witness :
  R2.decrypt (L := pylib)
    (run2 (L := pylib) (R2.fresh k0)
       (map (pkt_at (send_all2 (L := pylib) (S2.fresh k0 user) rng0 msgs_gap)) [3; 1]%nat))
    (pkt_at (send_all2 (L := pylib) (S2.fresh k0 user) rng0 msgs_gap) 1)
  = (run2 (L := pylib) (R2.fresh k0)
       (map (pkt_at (send_all2 (L := pylib) (S2.fresh k0 user) rng0 msgs_gap)) [3; 1]%nat),
     Err UnknownBeacon).
Proof.
  apply (@v2_replay_is_refused pylib pylib_laws k0 user rng0 msgs_gap [3; 1]%nat 1%nat).
  - cbn. unfold R2.MAX_SKIP. lia.
  - repeat constructor; cbn; intuition lia.
  - intros i [<-|[<-|[]]]; apply sentb_sent; vm_compute; reflexivity.
  - exact pylib_collision_free.
  - cbn. auto.
Defined.

Lemma v2_beyond_the_window_witness :
  R2.decrypt (L := pylib)
    (run2 (L := pylib) (R2.fresh k0)
       (map (pkt_at (send_all2 (L := pylib) (S2.fresh k0 user) rng_const
                               (repeat (now0, lit "m") 101))) (seq 1 0)))
    (pkt_at (send_all2 (L := pylib) (S2.fresh k0 user) rng_const (repeat (now0, lit "m") 101))
            101)
  = (run2 (L := pylib) (R2.fresh k0)
       (map (pkt_at (send_all2 (L := pylib) (S2.fresh k0 user) rng_const
                               (repeat (now0, lit "m") 101))) (seq 1 0)),
     Err UnknownBeacon).
Proof.
  apply (@v2_beyond_the_window pylib pylib_laws k0 user rng_const
           (repeat (now0, lit "m") 101) 0%nat 101%nat).
  - intros i Hi. lia.
  - apply all_fit_sent; [vm_compute; reflexivity | rewrite repeat_length; lia].
  - unfold R2.MAX_SKIP. lia.
  - rewrite repeat_length.
    apply (@collision_free_le pylib k0 _ 103); [lia | exact pylib_collision_free].
Defined.

(** The beacons on the chain of the root key that the entropy ["heal"] gives. *)
Lemma healed_collision_free :
  collision_free (L := pylib)
    (HKDF (Lib := pylib) (R2.root_key (R2.fresh (L := pylib) k0) ++ lit "heal")
          V2.AES_KEY_SIZE None V2.ROOT_REFRESH)
    (length [(now0, lit "hi")] + R2.MAX_SKIP).
Proof. apply collision_free_decide. vm_compute. reflexivity. Qed.

Lemma v2_refresh_root_heals_witness :
  recv_all2 (L := pylib) (R2.refresh_root (L := pylib) (R2.fresh k0) (lit "heal"))
    (map (pkt_at (send_all2 (L := pylib)
                    (S2.refresh_root (L := pylib) (S2.fresh k0 user) (lit "heal")) rng0
                    [(now0, lit "hi")])) [1%nat])
  = [Ok (lit "hi")].
Proof.
  apply (@v2_refresh_root_heals pylib pylib_laws (S2.fresh k0 user) (R2.fresh k0)
           (lit "heal") rng0 [(now0, lit "hi")] [1%nat]).
  - reflexivity.
  - cbn. unfold R2.MAX_SKIP. lia.
  - repeat constructor; cbn; intuition lia.
  - intros i [<-|[]]. apply sentb_sent. vm_compute. reflexivity.
  - exact healed_collision_free.
Defined.

Lemma unpack_reads_the_frame_witness :
  R2._unpack (L := pylib)
    (Some ([x00; x00; x00; x37]
           ++ V2.header_bytes user 1 now0 (str_of_bytes (lit "abcdef12"))
           ++ [x00; x00; x00; x02] ++ lit "hi" ++ lit "noise"))
  = Ok (lit "hi") /\
  R2._unpack (L := pylib)
    (Some ([x00; x00; x00; x02] ++ lit "{}" ++ [x00; x00; x00; x02] ++ lit "hi" ++ lit "noise"))
  = Err HeaderError.
Proof.
  split.
  - apply (proj1 (@unpack_reads_the_frame pylib
                    (V2.header_bytes user 1 now0 (str_of_bytes (lit "abcdef12")))
                    (lit "hi") (lit "noise")
                    [x00; x00; x00; x37] [x00; x00; x00; x02] eq_refl eq_refl)).
    apply ref_header_ok.
  - apply (proj2 (@unpack_reads_the_frame pylib (lit "{}") (lit "hi") (lit "noise")
                    [x00; x00; x00; x02] [x00; x00; x00; x02] eq_refl eq_refl)).
    reflexivity.
Defined.

Lemma v2_capacity_witness :
  len (next_header (S2.fresh k0 user) now0 rng0) = 55 /\
  (snd (S2.encrypt (L := pylib) (S2.fresh k0 user) now0 rng0 (repeat x00 450))
   = Err PayloadTooLarge
   <-> capacity user 1 now0 < len (repeat x00 450)) /\
  (len (repeat x00 450) <= capacity user 1 now0 ->
   exists pkg, snd (S2.encrypt (L := pylib) (S2.fresh k0 user) now0 rng0 (repeat x00 450))
               = Ok pkg).
Proof.
  apply (@v2_capacity pylib (S2.fresh k0 user) now0 rng0 (repeat x00 450));
    vm_compute; reflexivity.
Defined.

Lemma smart_load_secret_reads_hex_witness :
  smart_load_secret (fun _ => None) ([32%N] ++ hex_of k0 ++ [10%N]) = Some k0.
Proof.
  apply (@smart_load_secret_reads_hex (fun _ => None) k0 [32%N] [10%N]).
  - reflexivity.
  - repeat constructor.
  - repeat constructor.
Defined.

Lemma smart_load_secret_length_witness :
  smart_load_secret (fun _ => None)
    (hex_of (repeat x01 15) ++ [32; 32]%N ++ hex_of (repeat x02 16))
  = Some (repeat x01 15 ++ repeat x02 16).
Proof.
  apply (proj2 (@smart_load_secret_length (fun _ => None)) (repeat x01 15) (repeat x02 16));
    [discriminate | discriminate | reflexivity].
Defined.

Lemma v1_aad_carries_the_step_witness :
  R1.aad_seq (L := pylib) (Some (lit "sender:Test|" ++ lit "seq:" ++ json_dumps_int 3
                                   ++ lit "|ts:12345678"))
  = Some 3.
Proof.
  apply (@v1_aad_carries_the_step (lit "sender:Test|") 3 (lit "|ts:12345678")).
  - repeat constructor.
  - reflexivity.
  - lia.
  - vm_compute. discriminate.
  - right. exists (lit "ts:12345678"). reflexivity.
Defined.
